(** * Report formatting of the ledger: truncation, template compilation,
      rendering and account display

    A shallow embedding of [format.cc] (the report-formatting layer of the
    ledger) and the properties of it that its specification states.

    Conventions of the embedding:
    - [std::string] values are lists of characters ([text]); a [const char *]
      pointing into a string is the list of the characters from that position
      on, the terminating NUL being implicit;
    - [unsigned int] and [size_t] values are integers in [Z], every operation
      that can wrap being written with [u32] or [usize];
    - [char buf[N]] is a list of [N] cells, a cell being [None] while it is
      indeterminate; every access is bounds-checked and an access outside the
      array is [Undefined];
    - a call either returns, fails an [assert], throws, or has undefined
      behaviour: see [outcome]. *)

From Stdlib Require Import ZArith Ascii String Lia Bool.
From stdpp Require Import base list.

Open Scope Z_scope.

(** ** Outcomes of a call *)

Inductive exception : Set :=
| format_error (what : list ascii)
| parse_error (what : list ascii).

Inductive outcome (A : Type) : Type :=
| Returned (a : A)              (* normal return *)
| AssertionFailed               (* an [assert] did not hold *)
| Thrown (e : exception)        (* a [throw] *)
| Undefined                     (* out-of-bounds access, indeterminate read,
                                   signed overflow *)
| OutOfFuel.                    (* the embedding's loop bound was too small:
                                   shown below never to happen *)

Arguments Returned {A} a.
Arguments AssertionFailed {A}.
Arguments Thrown {A} e.
Arguments Undefined {A}.
Arguments OutOfFuel {A}.

Definition obind {A B} (m : outcome A) (k : A -> outcome B) : outcome B :=
  match m with
  | Returned a => k a
  | AssertionFailed => AssertionFailed
  | Thrown e => Thrown e
  | Undefined => Undefined
  | OutOfFuel => OutOfFuel
  end.

Notation "x <-- m ;; k" := (obind m (fun x => k))
  (at level 100, m at next level, right associativity).

(** ** Machine integers *)

Definition u32 (z : Z) : Z := z mod 2 ^ 32.
Definition usize (z : Z) : Z := z mod 2 ^ 64.

(** ** Text and C strings *)

Abbreviation text := (list ascii).

Definition txt (s : string) : text := list_ascii_of_string s.

Definition NUL : ascii := Ascii.zero.

Definition is_nul (c : ascii) : bool := Ascii.eqb c NUL.

(** [str.length()] stored in an [unsigned int]. *)
Definition length32 (s : text) : Z := u32 (Z.of_nat (length s)).

(** The characters a C function sees at a pointer: those before the first
    NUL. *)
Fixpoint c_chars (p : text) : text :=
  match p with
  | [] => []
  | c :: p' => if is_nul c then [] else c :: c_chars p'
  end.

(** [p + k] for a pointer [p] into a string's characters: defined up to the
    terminator. *)
Definition ptr_add (p : text) (k : Z) : outcome text :=
  if (0 <=? k) && (k <=? Z.of_nat (length p))
  then Returned (drop (Z.to_nat k) p)
  else Undefined.

(** ** Character buffers *)

Abbreviation buffer := (list (option ascii)).

Definition new_buffer (n : nat) : buffer := replicate n None.

(** [buf[i] = c] *)
Definition poke (i : Z) (c : ascii) (b : buffer) : outcome buffer :=
  if (0 <=? i) && (i <? Z.of_nat (length b))
  then Returned (<[Z.to_nat i := Some c]> b)
  else Undefined.

(** Writing the characters [cs] at [buf + dst]. *)
Definition store (dst : Z) (cs : text) (b : buffer) : outcome buffer :=
  if (0 <=? dst) && (dst + Z.of_nat (length cs) <=? Z.of_nat (length b))
  then Returned (take (Z.to_nat dst) b ++ (Some <$> cs)
                   ++ drop (Z.to_nat dst + length cs) b)
  else Undefined.

(** What [strncpy(_, p, n)] writes: exactly [n] characters, those of [p] and
    then NULs when [p] is shorter. *)
Definition strncpy_image (p : text) (n : nat) : text :=
  let body := take n (c_chars p) in
  body ++ replicate (n - length body) NUL.

(** [strncpy(buf + dst, p, n)] *)
Definition strncpy (dst : Z) (p : text) (n : Z) (b : buffer) : outcome buffer :=
  if (0 <=? dst) && (dst + n <=? Z.of_nat (length b))
  then store dst (strncpy_image p (Z.to_nat n)) b
  else Undefined.

(** [strcpy(buf, p)]: the characters of [p] and the terminator. *)
Definition strcpy (p : text) (b : buffer) : outcome buffer :=
  store 0 (c_chars p ++ [NUL]) b.

(** [string(buf)]: the characters up to the first NUL; reading an
    indeterminate cell or running off the array is undefined. *)
Fixpoint string_of_buffer (b : buffer) : outcome text :=
  match b with
  | [] => Undefined
  | None :: _ => Undefined
  | Some c :: b' =>
      if is_nul c then Returned []
      else r <-- string_of_buffer b' ;; Returned (c :: r)
  end.

(** ** [format_t::truncate] *)

Inductive elision_style_t : Set :=
| TRUNCATE_TRAILING
| TRUNCATE_MIDDLE
| TRUNCATE_LEADING
| ABBREVIATE.

(** The static members [format_t::elision_style] and
    [format_t::abbrev_length]. *)
Record settings : Set := Settings {
  elision_style : elision_style_t;
  abbrev_length : Z                (* an [int] *)
}.

Definition initial_settings : settings :=
  {| elision_style := ABBREVIATE; abbrev_length := 2 |}.

Definition colon : ascii := ":"%char.
Definition dot : ascii := "."%char.

(** The [str.find(':')] loop: the segments between the colons, in order;
    there is always a last segment (empty when [str] ends in a colon). *)
Fixpoint split_parts (s : text) : list text :=
  match s with
  | [] => [[]]
  | c :: s' =>
      if Ascii.eqb c colon then [] :: split_parts s'
      else match split_parts s' with
           | p :: ps => (c :: p) :: ps
           | [] => [[c]]
           end
  end.

(** The loop over [parts]: returns [result] and the final [newlen]. The
    update of [newlen] subtracts a [size_t] from an [unsigned int]. *)
Fixpoint abbreviate_parts (abbrev width : Z) (parts : list text) (newlen : Z)
  : text * Z :=
  match parts with
  | [] => ([], newlen)
  | [p] => (p, newlen)                       (* the last element is kept *)
  | p :: rest =>
      if width <? newlen then
        let newlen' :=
          u32 (usize (newlen - usize (Z.of_nat (length p) - abbrev))) in
        let '(r, n) := abbreviate_parts abbrev width rest newlen' in
        (take (Z.to_nat (usize abbrev)) p ++ colon :: r, n)
      else
        let '(r, n) := abbreviate_parts abbrev width rest newlen in
        (p ++ colon :: r, n)
  end.

(** [case TRUNCATE_LEADING], and the end of [case ABBREVIATE]: the last
    [width] characters, the first two overwritten with dots. [off] is the
    offset the source computes, [len - width]. *)
Definition truncate_leading (p : text) (off width : Z) : outcome buffer :=
  src <-- ptr_add p off ;;
  b <-- strncpy 0 src width (new_buffer 4096) ;;
  b <-- poke 0 dot b ;;
  poke 1 dot b.

(** [case TRUNCATE_MIDDLE] *)
Definition truncate_middle (str : text) (len width : Z) : outcome buffer :=
  let half := width / 2 in
  let tail := half + width mod 2 in
  b <-- strncpy 0 str half (new_buffer 4096) ;;
  src <-- ptr_add str (u32 (len - tail)) ;;
  b <-- strncpy half src tail b ;;
  b <-- poke (u32 (half - 1)) dot b ;;
  poke half dot b.

(** [case TRUNCATE_TRAILING] *)
Definition truncate_trailing (str : text) (width : Z) : outcome buffer :=
  b <-- strncpy 0 str (u32 (width - 2)) (new_buffer 4096) ;;
  b <-- poke (u32 (width - 2)) dot b ;;
  poke (u32 (width - 1)) dot b.

(** [case ABBREVIATE] for an account path *)
Definition truncate_abbreviate (cfg : settings) (str : text) (len width : Z)
  : outcome buffer :=
  let '(result, newlen) :=
    abbreviate_parts (abbrev_length cfg) width (split_parts str) len in
  if width <? newlen then
    truncate_leading result (usize (Z.of_nat (length result) - width)) width
  else
    strcpy result (new_buffer 4096).

(** The end of [truncate]: [buf[width] = 0; return buf;] *)
Definition finish (r : outcome buffer) (width : Z) : outcome text :=
  b <-- r ;;
  b <-- poke width NUL b ;;
  string_of_buffer b.

Definition truncate (cfg : settings) (str : text) (width : Z)
    (is_account : bool) : outcome text :=
  let len := length32 str in
  if len <=? width then Returned str
  else if negb (width <? 4095) then AssertionFailed
  else
    finish
      match elision_style cfg with
      | TRUNCATE_LEADING => truncate_leading str (u32 (len - width)) width
      | TRUNCATE_MIDDLE => truncate_middle str len width
      | ABBREVIATE =>
          if is_account then truncate_abbreviate cfg str len width
          else truncate_trailing str width         (* falls through *)
      | TRUNCATE_TRAILING => truncate_trailing str width
      end
      width.

(** ** Accounts and [partial_account_name] *)

(** The value type of the ledger lives outside this file; the functions here
    only store and compare totals, and an integer amount stands for it. *)
Definition value_t : Set := Z.

Record account_xdata_t : Set := AccountXData {
  value : value_t;
  total : value_t;
  dflags : Z
}.

(** An account as the functions of this file see it through its pointers:
    [parent] is the chain of its ancestors ([None] at the root), [accounts]
    its sub-accounts, [data] its extended data when it has any. *)
#[local] Unset Elimination Schemes.
Inductive account_t : Set := Account {
  parent : option account_t;
  name : text;
  accounts : list account_t;
  data : option account_xdata_t
}.
#[local] Set Elimination Schemes.

Section Accounts.

(** The flag bit, declared with the extended data and not in this file. *)
Variable ACCOUNT_DISPLAYED : Z.

(** Modelled from the spec: [account_has_xdata] and [account_xdata_] are
    declared in a header that is missing here; an account carries its
    one-shot displayed flag in the flags of its extended data, when it has
    any. This is the test
    [account_has_xdata(a) && account_xdata_(a).dflags & ACCOUNT_DISPLAYED]. *)
Definition account_displayed (a : account_t) : bool :=
  match data a with
  | Some x => negb (Z.land (dflags x) ACCOUNT_DISPLAYED =? 0)
  | None => false
  end.

(** The [for] loop of [partial_account_name] from the node [acct] on,
    [name0] being the text accumulated so far. *)
Fixpoint partial_account_name_from (acct : account_t) (name0 : text) : text :=
  match acct with
  | Account None _ _ _ => name0                   (* [acct->parent] is null *)
  | Account (Some up) n _ _ =>
      if account_displayed acct then name0        (* [break] *)
      else partial_account_name_from up
             (match name0 with
              | [] => n
              | _ :: _ => n ++ colon :: name0
              end)
  end.

Definition partial_account_name (account : account_t) : text :=
  partial_account_name_from account [].

(** *** [disp_subaccounts_p] and [display_account]

    An [item_predicate<account_t>] is a boolean function of the account;
    [optional<...>] is [option]. *)

Definition item_predicate : Set := account_t -> bool.

(** The loop over the sub-accounts is compiled out ([#if 0]); what
    remains sets [display = false] and [to_show = NULL] and returns
    [display]. The pair is the returned value and the final [to_show]. *)
Definition disp_subaccounts_p (account : account_t)
    (disp_pred : option item_predicate) : bool * option account_t :=
  let display := false in
  let to_show : option account_t := None in
  (display, to_show).

Definition display_account (account : account_t)
    (disp_pred : option item_predicate) : bool :=
  if account_displayed account then false
  else
    let '(display, account_to_show) := disp_subaccounts_p account disp_pred in
    if display then true
    else
      match account_to_show with
      | Some _ => false
      | None =>
          match disp_pred with
          | None => true
          | Some pred => pred account
          end
      end.

End Accounts.

(** ** Compiled templates: [element_t] and [format_t::parse_elements] *)

Inductive kind_t : Set :=
| STRING | VALUE_EXPR | SOURCE
| ENTRY_BEG_POS | ENTRY_BEG_LINE | ENTRY_END_POS | ENTRY_END_LINE
| XACT_BEG_POS | XACT_BEG_LINE | XACT_END_POS | XACT_END_LINE
| DATE_STRING | COMPLETE_DATE_STRING
| CLEARED | ENTRY_CLEARED | CODE | PAYEE
| OPT_ACCOUNT | ACCOUNT_NAME | ACCOUNT_FULLNAME
| AMOUNT | OPT_AMOUNT | TOTAL | NOTE | OPT_NOTE
| SPACER | DEPTH_SPACER.

Definition INT_MAX : Z := 2 ^ 31 - 1.

Definition missing_paren : text := txt "Missing ')'".
Definition missing_bracket : text := txt "Missing ']'".
Definition parser_not_initialized : text :=
  txt "Value expression parser not initialized".

Definition is_digit (c : ascii) : bool :=
  (48 <=? nat_of_ascii c)%nat && (nat_of_ascii c <=? 57)%nat.

Definition digit_value (c : ascii) : Z := Z.of_nat (nat_of_ascii c) - 48.

(** The loop over the flag characters [-] and [!]: the flags set and the
    input left. *)
Fixpoint parse_flags (align_left highlight : Z) (p : text) (flags0 : Z)
  : Z * text :=
  match p with
  | c :: p' =>
      if Ascii.eqb c "-"%char then
        parse_flags align_left highlight p' (Z.lor flags0 align_left)
      else if Ascii.eqb c "!"%char then
        parse_flags align_left highlight p' (Z.lor flags0 highlight)
      else (flags0, p)
  | [] => (flags0, p)
  end.

(** The loop over decimal digits, [num *= 10; num += digit], on an [int]:
    overflowing it is undefined. *)
Fixpoint parse_number (p : text) (num : Z) : outcome (Z * text) :=
  match p with
  | c :: p' =>
      if is_digit c then
        let num' := num * 10 + digit_value c in
        if INT_MAX <? num' then Undefined else parse_number p' num'
      else Returned (num, p)
  | [] => Returned (num, p)
  end.

(** The scan for the closing delimiter, [while ( *p )], nesting counted in
    [depth]: the text scanned over, and the input from the character the
    scan stopped at on, which is the delimiter that closes, a NUL inside
    the string, or nothing at the terminator. *)
Fixpoint scan_closing (opening closing : ascii) (p : text) (depth : Z)
  : text * text :=
  match p with
  | [] => ([], [])
  | c :: p' =>
      if is_nul c then ([], p)
      else if Ascii.eqb c closing then
        if depth - 1 =? 0 then ([], p)
        else let '(inner, rest) := scan_closing opening closing p' (depth - 1) in
             (c :: inner, rest)
      else if Ascii.eqb c opening then
        let '(inner, rest) := scan_closing opening closing p' (depth + 1) in
        (c :: inner, rest)
      else
        let '(inner, rest) := scan_closing opening closing p' depth in
        (c :: inner, rest)
  end.

(** The field selected by a single character, for the fields that take no
    text of their own. *)
Definition field_kind (c : ascii) : option kind_t :=
  match c with
  | "S" => Some SOURCE
  | "B" => Some ENTRY_BEG_POS
  | "b" => Some ENTRY_BEG_LINE
  | "E" => Some ENTRY_END_POS
  | "e" => Some ENTRY_END_LINE
  | "X" => Some CLEARED
  | "Y" => Some ENTRY_CLEARED
  | "C" => Some CODE
  | "P" => Some PAYEE
  | "W" => Some OPT_ACCOUNT
  | "a" => Some ACCOUNT_NAME
  | "A" => Some ACCOUNT_FULLNAME
  | "t" => Some AMOUNT
  | "o" => Some OPT_AMOUNT
  | "T" => Some TOTAL
  | "N" => Some NOTE
  | "n" => Some OPT_NOTE
  | "|" => Some SPACER
  | "_" => Some DEPTH_SPACER
  | _ => None
  end%char.

(** The field selected by the character after [x]. *)
Definition xact_field_kind (c : ascii) : option kind_t :=
  match c with
  | "B" => Some XACT_BEG_POS
  | "b" => Some XACT_BEG_LINE
  | "E" => Some XACT_END_POS
  | "e" => Some XACT_END_LINE
  | _ => None
  end%char.

(** The text of a backslash escape; any other escaped character leaves the
    element's text empty. *)
Definition escape_chars (c : ascii) : text :=
  match c with
  | "b" => [ascii_of_nat 8]
  | "f" => [ascii_of_nat 12]
  | "n" => [ascii_of_nat 10]
  | "r" => [ascii_of_nat 13]
  | "t" => [ascii_of_nat 9]
  | "v" => [ascii_of_nat 11]
  | _ => []
  end%char.

Section Compiler.

(** The compiled form of a value expression, and [expr_t::parser]: [None]
    until [expr_t::initialize] has run, then the parser, which returns the
    compiled expression or throws. Both live outside this file. *)
Variable ptr_op_t : Type.
Variable parser : option (text -> exception + ptr_op_t).

(** The flag bits of an element and the global [output_time_format], all
    declared outside this file. *)
Variables ELEMENT_ALIGN_LEFT ELEMENT_HIGHLIGHT : Z.
Variable output_time_format : text.

Record expr_t : Type := Expr {
  ptr : option ptr_op_t;
  str : text
}.

(** [expr_t::parse(const string&)] on an expression *)
Definition expr_parse (s : text) : outcome expr_t :=
  match parser with
  | None => Thrown (parse_error parser_not_initialized)
  | Some parse =>
      match parse s with
      | inl e => Thrown e
      | inr op => Returned {| ptr := Some op; str := s |}
      end
  end.

(** Modelled from the spec: the declaration of [element_t] is in a header
    that is missing here. An element has a kind, the alignment and
    highlight flags, a min-width and a max-width (integers, [0] when not
    given), the text of a literal or date format and the sub-expression; a
    new element is an empty literal with no flag and no width. The elements
    of a template form a list (the chain of [next] pointers). *)
Record element_t : Type := Element {
  type : kind_t;
  flags : Z;
  min_width : Z;
  max_width : Z;
  chars : text;
  val_expr : expr_t
}.

Definition new_element : element_t :=
  {| type := STRING; flags := 0; min_width := 0; max_width := 0;
     chars := []; val_expr := {| ptr := None; str := [] |} |}.

Definition with_type (k : kind_t) (c : text) (e : element_t) : element_t :=
  {| type := k; flags := flags e; min_width := min_width e;
     max_width := max_width e; chars := c; val_expr := val_expr e |}.

Definition with_expr (x : expr_t) (e : element_t) : element_t :=
  {| type := VALUE_EXPR; flags := flags e; min_width := min_width e;
     max_width := max_width e; chars := chars e; val_expr := x |}.

(** The literal element for the characters buffered in [buf], if any. *)
Definition flush (lit : text) : list element_t :=
  match lit with
  | [] => []
  | _ :: _ => [with_type STRING lit new_element]
  end.

(** Flags and widths of a directive: the element so far and the input at
    the selector. *)
Definition parse_widths (p : text) : outcome (element_t * text) :=
  let '(fl, p) := parse_flags ELEMENT_ALIGN_LEFT ELEMENT_HIGHLIGHT p 0 in
  r <-- parse_number p 0 ;;
  let '(minw, p) := r in
  match p with
  | c :: p' =>
      if Ascii.eqb c dot then
        r <-- parse_number p' 0 ;;
        let '(maxw, p) := r in
        Returned ({| type := STRING; flags := fl;
                     min_width := if minw =? 0 then maxw else minw;
                     max_width := maxw;
                     chars := []; val_expr := {| ptr := None; str := [] |} |},
                  p)
      else
        Returned ({| type := STRING; flags := fl; min_width := minw;
                     max_width := 0;
                     chars := []; val_expr := {| ptr := None; str := [] |} |},
                  p)
  | [] =>
      Returned ({| type := STRING; flags := fl; min_width := minw;
                   max_width := 0;
                   chars := []; val_expr := {| ptr := None; str := [] |} |},
                p)
  end.

(** What the [switch] on the selector of a directive does with the element
    [e]: the element it leaves and the input the loop goes on with, or
    [None] for [goto END]. The input [p] is what is left of the string, so
    that [[]] is the terminator: reaching the end of the loop body there
    makes the loop's [p++] step past it. A NUL inside the string matches no
    case (but the one after [x]), and the loop goes on after it. *)
Definition parse_selector (e : element_t) (p : text)
  : outcome (element_t * option text) :=
  match p with
  | [] => Undefined
  | c :: p' =>
      if Ascii.eqb c "%"%char then
        Returned (with_type STRING [c] e, Some p')
      else if Ascii.eqb c "("%char then
        match scan_closing "("%char ")"%char p' 1 with
        | (_, []) => Thrown (format_error missing_paren)
        | (inner, k :: rest) =>
            if negb (Ascii.eqb k ")"%char) then
              Thrown (format_error missing_paren)
            else
              x <-- expr_parse inner ;;
              Returned (with_expr x e, Some rest)
        end
      else if Ascii.eqb c "["%char then
        match scan_closing "["%char "]"%char p' 1 with
        | (_, []) => Thrown (format_error missing_bracket)
        | (inner, k :: rest) =>
            if negb (Ascii.eqb k "]"%char) then
              Thrown (format_error missing_bracket)
            else Returned (with_type DATE_STRING inner e, Some rest)
        end
      else if Ascii.eqb c "x"%char then
        match p' with
        | [] => Returned (e, None)
        | k :: rest =>
            if is_nul k then Returned (e, None)      (* [case '\0'] *)
            else
              match xact_field_kind k with
              | Some kind => Returned (with_type kind (chars e) e, Some rest)
              | None => Returned (e, Some rest)
              end
        end
      else if Ascii.eqb c "d"%char then
        Returned (with_type COMPLETE_DATE_STRING output_time_format e, Some p')
      else if Ascii.eqb c "D"%char then
        Returned (with_type DATE_STRING output_time_format e, Some p')
      else
        match field_kind c with
        | Some kind => Returned (with_type kind (chars e) e, Some p')
        | None => Returned (e, Some p')
        end
  end.

(** The [for] loop of [parse_elements]: [p] is what is left of the string
    ([[]] at its terminator), [lit] the characters buffered in
    [char buf[1024]]. The loop ends where its test reads a NUL, the
    terminator or one inside the string. Every turn consumes a character,
    so [fuel] above the length of [p] is enough. *)
Fixpoint parse_loop (fuel : nat) (p : text) (lit : text)
  : outcome (list element_t) :=
  match fuel with
  | O => OutOfFuel
  | S fuel =>
      match p with
      | [] => Returned (flush lit)
      | c :: p' =>
          if is_nul c then Returned (flush lit)
          else if negb (Ascii.eqb c "%"%char || Ascii.eqb c "\"%char) then
            if (1024 <=? length lit)%nat then Undefined    (* [*q++] *)
            else parse_loop fuel p' (lit ++ [c])
          else if Ascii.eqb c "\"%char then
            match p' with
            | [] => Undefined              (* [p++] twice, past the end *)
            | k :: rest =>
                els <-- parse_loop fuel rest [] ;;
                Returned (flush lit
                            ++ with_type STRING (escape_chars k) new_element
                            :: els)
            end
          else
            r <-- parse_widths p' ;;
            let '(e, p) := r in
            r <-- parse_selector e p ;;
            match r with
            | (e, None) => Returned (flush lit ++ [e])
            | (e, Some rest) =>
                els <-- parse_loop fuel rest [] ;;
                Returned (flush lit ++ e :: els)
            end
      end
  end.

(** The loop reads [fmt.c_str()], the characters of the string, those
    after a NUL included, followed by the terminator. *)
Definition parse_elements (fmt : text) : outcome (list element_t) :=
  parse_loop (S (length fmt)) fmt [].

End Compiler.

(** ** [format_t::format] *)

Section Renderer.

Variable ptr_op_t : Type.
Variable ELEMENT_ALIGN_LEFT : Z.

(** The record a template is rendered against: the current entry,
    transaction, account and date, each of which may be absent. The code
    compiled into [format] does not read it. *)
Variable scope_t : Type.

(** [out << s] on a stream whose field width is [w]: [s] is padded with
    spaces to [w] characters, on its right when the stream is set to
    [std::left] and on its left otherwise. *)
Definition put (left : bool) (w : Z) (s : text) : text :=
  let fill := replicate (Z.to_nat (w - Z.of_nat (length s))) " "%char in
  if left then s ++ fill else fill ++ s.

(** One turn of the loop of [format]: the text the element adds to
    [out_str]. Only literals have a case of their own; the others are
    compiled out ([#if 0]) and every other kind takes the [default]
    branch, [assert(false)]. *)
Definition format_element (elem : element_t ptr_op_t) (scope : scope_t)
  : outcome text :=
  let left := negb (Z.land (flags _ elem) ELEMENT_ALIGN_LEFT =? 0) in
  let width := if 0 <? min_width _ elem then min_width _ elem else 0 in
  match type _ elem with
  | STRING =>
      let temp := put left width (chars _ elem) in
      Returned
        (if (0 <? max_width _ elem)
            && (max_width _ elem <? Z.of_nat (length temp))
         then take (Z.to_nat (max_width _ elem)) temp
         else temp)
  | _ => AssertionFailed
  end.

Fixpoint format (out_str : text) (elements : list (element_t ptr_op_t))
    (scope : scope_t) : outcome text :=
  match elements with
  | [] => Returned out_str
  | elem :: next =>
      temp <-- format_element elem scope ;;
      format (out_str ++ temp) next scope
  end.

End Renderer.

(** ** [format_transactions] *)

Section Groupers.

Variable ptr_op_t : Type.
Variable parser : option (text -> exception + ptr_op_t).
Variables ELEMENT_ALIGN_LEFT ELEMENT_HIGHLIGHT : Z.
Variable output_time_format : text.

(** Modelled from the spec: [format_t] and [format_t::reset] are declared
    in a header that is missing here; a template is compiled once from its
    format string into its elements. *)
Record format_t : Type := Format {
  format_string : text;
  elements : list (element_t ptr_op_t)
}.

Definition reset (fmt : text) : outcome format_t :=
  els <-- parse_elements ptr_op_t parser ELEMENT_ALIGN_LEFT
            ELEMENT_HIGHLIGHT output_time_format fmt ;;
  Returned {| format_string := fmt; elements := els |}.

(** [std::strstr(f, "%/")]: the text before the first marker and the text
    after it. *)
Fixpoint strstr_marker (f : text) : option (text * text) :=
  match f with
  | [] => None
  | c :: f' =>
      match f' with
      | d :: rest =>
          if Ascii.eqb c "%"%char && Ascii.eqb d "/"%char
          then Some ([], rest)
          else match strstr_marker f' with
               | Some (before, after) => Some (c :: before, after)
               | None => None
               end
      | [] => None
      end
  end.

(** A transaction as the grouper reads it: the entry it belongs to, its
    date and the flags of its extended data. *)
Record transaction_t : Set := Transaction {
  entry : nat;
  date : Z;
  xact_dflags : Z
}.

Record format_transactions : Type := FormatTransactions {
  output_stream : text;
  last_entry : option nat;
  last_xact : option transaction_t;
  first_line_format : format_t;
  next_lines_format : format_t
}.

(** The constructor *)
Definition format_transactions_new (_output_stream : text) (format0 : text)
  : outcome format_transactions :=
  let f := c_chars format0 in
  r <-- match strstr_marker f with
        | Some (before, after) =>
            first <-- reset before ;;
            next <-- reset after ;;
            Returned (first, next)
        | None =>
            first <-- reset format0 ;;
            next <-- reset format0 ;;
            Returned (first, next)
        end ;;
  Returned {| output_stream := _output_stream;
              last_entry := None; last_xact := None;
              first_line_format := fst r; next_lines_format := snd r |}.

(** [operator()]: its whole body is compiled out ([#if 0]); the grouper
    and the transaction are left as they were. *)
Definition format_transactions_call (self : format_transactions)
    (xact : transaction_t) : format_transactions * transaction_t :=
  (self, xact).

End Groupers.

(** ** Notions used in the statements *)

(** Text as the program handles it: no NUL character inside, and a length
    that fits an [unsigned int]. *)
Definition no_nul (s : text) : bool := forallb (fun c => negb (is_nul c)) s.

Definition c_text (s : text) : Prop :=
  no_nul s = true /\ Z.of_nat (length s) < 2 ^ 32.

(** The array [b] after the cells [cs] were written from index [d] on. *)
Definition blit {A} (d : nat) (cs : list A) (b : list A) : list A :=
  take d b ++ cs ++ drop (d + length cs) b.

(** What [truncate] returns for a text longer than the width, under the
    styles that do not abbreviate. *)
Definition elided (style : elision_style_t) (s : text) (w : nat) : text :=
  match style with
  | TRUNCATE_LEADING => dot :: dot :: drop (length s - w + 2) s
  | TRUNCATE_MIDDLE =>
      take (w / 2 - 1) s ++ dot :: dot :: drop (length s - (w - w / 2) + 1) s
  | _ => take (w - 2) s ++ [dot; dot]
  end.


(** The last [k] characters of [s]. *)
Definition last_chars (k : nat) (s : text) : text := drop (length s - k) s.

(** The abbreviation of an account path as the specification words it:
    walking the segments from the left, a segment other than the last is
    replaced by its first [abbrev] characters while the length accumulated
    so far exceeds [width], and the running length is reduced by the
    characters dropped; a result still longer than [width] is truncated at
    its beginning. *)
Fixpoint spec_abbreviate (abbrev width : nat) (parts : list text)
    (running : nat) : text :=
  match parts with
  | [] => []
  | [p] => p
  | p :: rest =>
      if (width <? running)%nat then
        take abbrev p ++ colon
          :: spec_abbreviate abbrev width rest
               (running - (length p - length (take abbrev p)))
      else p ++ colon :: spec_abbreviate abbrev width rest running
  end.

Definition spec_truncate_abbreviate (abbrev width : nat) (s : text) : text :=
  let r := spec_abbreviate abbrev width (split_parts s) (length s) in
  if (width <? length r)%nat then elided TRUNCATE_LEADING r width else r.

(** An account and its ancestors, from the account up to the root. *)
Fixpoint lineage (a : account_t) : list account_t :=
  match a with
  | Account None _ _ _ => [a]
  | Account (Some up) _ _ _ => a :: lineage up
  end.

(** The longest prefix of [l] whose elements satisfy [f]. *)
Fixpoint take_while {A} (f : A -> bool) (l : list A) : list A :=
  match l with
  | [] => []
  | x :: l' => if f x then x :: take_while f l' else []
  end.

(** The nodes [partial_account_name] walks over: from the account upward,
    up to the first node that is the root or carries the displayed flag,
    that node left out. *)
Definition walked (ACCOUNT_DISPLAYED : Z) (a : account_t) : list account_t :=
  take_while
    (fun n => match parent n with
              | Some _ => negb (account_displayed ACCOUNT_DISPLAYED n)
              | None => false
              end)
    (lineage a).

(** One turn of the loop of [partial_account_name]: the name [n] put before
    the text accumulated so far. *)
Definition name_step (acc n : text) : text :=
  match acc with
  | [] => n
  | _ :: _ => n ++ colon :: acc
  end.

Definition is_empty (s : text) : bool :=
  match s with [] => true | _ :: _ => false end.

(** [l] without the empty names it starts with. *)
Fixpoint drop_empty (l : list text) : list text :=
  match l with
  | [] => []
  | n :: l' => if is_empty n then drop_empty l' else l
  end.

(** The names joined by colons. *)
Fixpoint join_colon (names : list text) : text :=
  match names with
  | [] => []
  | [n] => n
  | n :: rest => n ++ colon :: join_colon rest
  end.

(** ** Sample data *)

Definition no_data : option account_xdata_t := None.

Definition with_total (t : value_t) (fl : Z) : option account_xdata_t :=
  Some {| value := t; total := t; dflags := fl |}.

Definition sample_root : account_t := Account None [] [] no_data.

(** ["A"] below the root, and a sub-account of it with an empty name. *)
Definition sample_A : account_t :=
  Account (Some sample_root) (txt "A") [] no_data.

Definition sample_unnamed : account_t :=
  Account (Some sample_A) [] [] no_data.

(** ["Assets"] with the total 30 and two sub-accounts with the totals 10 and
    20; ["Holding"] with the total 10 and one sub-account with the same
    total. *)
Definition sample_assets_up : account_t :=
  Account (Some sample_root) (txt "Assets") [] (with_total 30 0).

Definition sample_savings : account_t :=
  Account (Some sample_assets_up) (txt "Savings") [] (with_total 10 0).

Definition sample_checking : account_t :=
  Account (Some sample_assets_up) (txt "Checking") [] (with_total 20 0).

Definition sample_assets : account_t :=
  Account (Some sample_root) (txt "Assets")
    [sample_savings; sample_checking] (with_total 30 0).

Definition sample_holding_up : account_t :=
  Account (Some sample_root) (txt "Holding") [] (with_total 10 0).

Definition sample_only : account_t :=
  Account (Some sample_holding_up) (txt "Only") [] (with_total 10 0).

Definition sample_holding : account_t :=
  Account (Some sample_root) (txt "Holding") [sample_only] (with_total 10 0).

(** A predicate that holds of the accounts without sub-accounts. *)
Definition leaves_only : item_predicate :=
  fun a => match accounts a with [] => true | _ :: _ => false end.

(** An account that has been displayed, the flag bit being 2. *)
Definition sample_displayed : account_t :=
  Account (Some sample_root) (txt "Income") [] (with_total 5 2).

(** ** Notions for the renderer and the groupers *)

(** [s] padded with spaces to [w] characters, on its right when [left]. *)
Definition pad (left : bool) (w : Z) (s : text) : text :=
  if Z.of_nat (length s) <? w then
    let fill := replicate (Z.to_nat w - length s) " "%char in
    if left then s ++ fill else fill ++ s
  else s.

(** [s] cut to its first [m] characters when [m] is set and [s] is longer. *)
Definition cut (m : Z) (s : text) : text :=
  if (0 <? m) && (m <? Z.of_nat (length s)) then take (Z.to_nat m) s else s.

Definition is_literal {P : Type} (e : element_t P) : bool :=
  match type P e with STRING => true | _ => false end.

(** The text of a literal element: its characters, padded to the min-width
    and cut to the max-width. *)
Definition literal_text {P : Type} (align_left : Z) (e : element_t P) : text :=
  cut (max_width P e)
    (pad (negb (Z.land (flags P e) align_left =? 0)) (min_width P e)
       (chars P e)).

Definition marker : text := txt "%/".

(** The grouper as its constructor leaves it. *)
Definition new_grouper (P : Type) (out : text) (first next : format_t P)
  : format_transactions P :=
  {| output_stream := out; last_entry := None; last_xact := None;
     first_line_format := first; next_lines_format := next |}.

(** The marker does not occur in [f]. *)
Definition no_marker (f : text) : Prop :=
  forall before after, f <> before ++ marker ++ after.

Definition sample_xact : transaction_t :=
  {| entry := 1; date := 20081231; xact_dflags := 0 |}.

(** ** Notions for the compiler *)

(** The number a run of decimal digits denotes, read after [n]. *)
Definition decimal_from (n : Z) (ds : text) : Z :=
  fold_left (fun n c => n * 10 + digit_value c) ds n.

Definition decimal (ds : text) : Z := decimal_from 0 ds.

Definition is_flag (c : ascii) : bool :=
  Ascii.eqb c "-"%char || Ascii.eqb c "!"%char.

(** The flags a run of flag characters sets. *)
Definition flag_bits (align_left highlight : Z) (fl : text) : Z :=
  fold_left
    (fun f c => if Ascii.eqb c "-"%char then Z.lor f align_left
                else Z.lor f highlight)
    fl 0.

(** A character of literal text: neither [%] nor a backslash nor NUL. *)
Definition is_plain (c : ascii) : bool :=
  negb (Ascii.eqb c "%"%char || Ascii.eqb c "\"%char) && negb (is_nul c).

(** The delimiters of [s] are paired, [depth] openings being open where
    [s] starts: each closing delimiter closes an opening one, and none is
    left open where [s] ends. *)
Fixpoint balanced (opening closing : ascii) (s : text) (depth : nat) : bool :=
  match s with
  | [] => Nat.eqb depth 0
  | x :: s' =>
      if Ascii.eqb x closing then
        match depth with
        | O => false
        | S d => balanced opening closing s' d
        end
      else if Ascii.eqb x opening then balanced opening closing s' (S depth)
      else balanced opening closing s' depth
  end.

(** Nothing in [body], the text after an opening delimiter, closes that
    delimiter: no closing delimiter of [body] comes after a text without
    NUL whose own delimiters are paired. *)
Definition unmatched (opening closing : ascii) (body : text) : Prop :=
  forall inner rest,
    body = inner ++ closing :: rest -> no_nul inner = true ->
    balanced opening closing inner 0 = false.

(** The template [f] has an opening delimiter that nothing closes. *)
Definition unclosed (opening closing : ascii) (f : text) : Prop :=
  exists before body,
    f = before ++ opening :: body /\ unmatched opening closing body.

(** The head of [p], if any, does not satisfy [f]. *)
Definition stops (f : ascii -> bool) (p : text) : Prop :=
  match p with
  | [] => True
  | c :: _ => f c = false
  end.

(** The element of a field directive with the given flags and widths. *)
Definition field_element (P : Type) (k : kind_t) (fl minw maxw : Z)
  : element_t P :=
  {| type := k; flags := fl; min_width := minw; max_width := maxw;
     chars := []; val_expr := {| ptr := None; str := [] |} |}.

(** [q] is what is left of [p] after some of it was read. *)
Definition rest_of (q p : text) : Prop := exists read, p = read ++ q.

(** What [parse_elements] may throw on the input [p]: the error of a
    delimiter that nothing closes, or what the expression parser throws. *)
Definition thrown_on (P : Type) (parser : option (text -> exception + P))
    (p : text) (e : exception) : Prop :=
  (e = format_error missing_paren /\ unclosed "(" ")" p)
  \/ (e = format_error missing_bracket /\ unclosed "[" "]" p)
  \/ (exists s, expr_parse P parser s = Thrown e).

Definition regular_on (P : Type) (parser : option (text -> exception + P))
    {A} (p : text) (o : outcome A) : Prop :=
  match o with
  | Returned _ | Undefined => True
  | Thrown e => thrown_on P parser p e
  | AssertionFailed | OutOfFuel => False
  end.

(** Every segment but the last has at least [a] characters. *)
Fixpoint init_long (a : nat) (parts : list text) : bool :=
  match parts with
  | [] => true
  | [_] => true
  | p :: rest => (a <=? length p)%nat && init_long a rest
  end.

(** ** Notions for the further properties *)

(** An outcome of the buffer functions: a return or undefined behaviour. *)
Definition quiet {A} (o : outcome A) : Prop :=
  match o with
  | Returned _ | Undefined => True
  | AssertionFailed | Thrown _ | OutOfFuel => False
  end.

(** A segment of an account path: it holds no colon. *)
Definition colon_free (p : text) : bool :=
  forallb (fun c => negb (Ascii.eqb c colon)) p.

(** [r] is [s] with some of its segments cut short: as many segments, each
    of them a beginning of the segment of [s] it stands for, and the last
    one whole. *)
Definition abbreviation_of (r s : text) : Prop :=
  Forall2 (fun p' p => p' `prefix_of` p) (split_parts r) (split_parts s)
  /\ last (split_parts r) = last (split_parts s).

(** [t] written as a template: every percent sign doubled. *)
Fixpoint escape_percent (t : text) : text :=
  match t with
  | [] => []
  | c :: t' =>
      if Ascii.eqb c "%"%char then c :: c :: escape_percent t'
      else c :: escape_percent t'
  end.

Definition no_backslash (t : text) : bool :=
  forallb (fun c => negb (Ascii.eqb c "\"%char)) t.

(** The widths of a directive as they are written: the digits of the
    min-width, then, when there is one, a dot and the digits of the
    max-width. *)
Definition widths_text (ms : text) (ods : option text) : text :=
  ms ++ match ods with
        | Some ds => dot :: ds
        | None => []
        end.

(** The widths the element gets from them. *)
Definition max_width_of (ods : option text) : Z :=
  match ods with
  | Some ds => decimal ds
  | None => 0
  end.

Definition min_width_of (ms : text) (ods : option text) : Z :=
  match ods with
  | Some ds => if decimal ms =? 0 then decimal ds else decimal ms
  | None => decimal ms
  end.

(** The flags of a directive end where its widths [ms], [ods] start, and
    the widths end where the input [p] starts. *)
Definition ends_widths (ms : text) (ods : option text) (p : text) : Prop :=
  stops is_flag (widths_text ms ods ++ p)
  /\ stops is_digit p
  /\ match ods with
     | Some _ => True
     | None => stops (fun c => Ascii.eqb c dot) p
     end.

Definition digits (ods : option text) : bool :=
  match ods with
  | Some ds => forallb is_digit ds
  | None => true
  end.

(** The character [c] occurs in [s]. *)
Definition occurs (c : ascii) (s : text) : bool := existsb (Ascii.eqb c) s.

(** The characters the [switch] of [parse_elements] has a case for. *)
Definition is_selector (c : ascii) : bool :=
  Ascii.eqb c "%"%char || Ascii.eqb c "("%char || Ascii.eqb c "["%char
  || Ascii.eqb c "x"%char || Ascii.eqb c "d"%char || Ascii.eqb c "D"%char
  || match field_kind c with Some _ => true | None => false end.

(** The text a backslash escape stands for in C: for [\b], [\t], [\n],
    [\v], [\f] and [\r] the control character with that code, backspace,
    tab, line feed, vertical tab, form feed and carriage return; nothing
    for the other characters. *)
Definition control_codes : list (ascii * nat) :=
  [("b"%char, 8%nat); ("t"%char, 9%nat); ("n"%char, 10%nat);
   ("v"%char, 11%nat); ("f"%char, 12%nat); ("r"%char, 13%nat)].

Definition escape_text (k : ascii) : text :=
  match find (fun p => Ascii.eqb k (fst p)) control_codes with
  | Some (_, code) => [ascii_of_nat code]
  | None => []
  end.

(** ** [format_entries] *)

Section Entries.

Variable ptr_op_t : Type.

(** The flag bit, declared with the extended data and not in this file. *)
Variable TRANSACTION_TO_DISPLAY : Z.

(** Modelled from the spec: [format_entries] is declared in a header that is
    missing here; the entry grouper is a transaction grouper (it has the
    same output, sub-templates and last-seen entry) with its own
    [operator()] and [format_last_entry]. [transaction_xdata] gives the
    extended data of a transaction, made with no flag set when the
    transaction had none; its flags are [xact_dflags]. *)
Abbreviation format_entries := (format_transactions ptr_op_t).

(** [format_last_entry]: its whole body is compiled out ([#if 0]). *)
Definition format_last_entry (self : format_entries) : format_entries := self.

(** [format_entries::operator()] *)
Definition format_entries_call (self : format_entries) (xact : transaction_t)
  : format_entries * transaction_t :=
  let xact := {| entry := entry xact; date := date xact;
                 xact_dflags := Z.lor (xact_dflags xact)
                                  TRANSACTION_TO_DISPLAY |} in
  let self := match last_entry _ self with
              | Some e =>
                  if negb (Nat.eqb (entry xact) e) then format_last_entry self
                  else self
              | None => self
              end in
  ({| output_stream := output_stream _ self;
      last_entry := Some (entry xact);
      last_xact := last_xact _ self;
      first_line_format := first_line_format _ self;
      next_lines_format := next_lines_format _ self |}, xact).

(** The grouper called on each transaction of a list in turn: the grouper
    and the transactions as the calls leave them. *)
Fixpoint format_entries_walk (self : format_entries)
    (xacts : list transaction_t) : format_entries * list transaction_t :=
  match xacts with
  | [] => (self, [])
  | xact :: rest =>
      let '(self, xact) := format_entries_call self xact in
      let '(self, rest) := format_entries_walk self rest in
      (self, xact :: rest)
  end.

End Entries.

(** The transaction [x] with the flag bits [bits] set. *)
Definition marked (bits : Z) (x : transaction_t) : transaction_t :=
  {| entry := entry x; date := date x;
     xact_dflags := Z.lor (xact_dflags x) bits |}.

(** ** [expr_t] *)

Section Expressions.

(** A compiled expression, the records it is evaluated against, and what
    lives outside this file: the value of no expression and the evaluation
    of a compiled expression. *)
Variable ptr_op_t : Type.
Variable scope_t : Type.
Variable NULL_VALUE : value_t.
Variable op_calc : ptr_op_t -> scope_t -> outcome value_t.

(** [expr_t::parser], a pointer that is null until [initialize] has run;
    the parser is given the text and the flags. *)
Definition parser_ptr : Type := option (text -> Z -> exception + ptr_op_t).

(** [expr_t::parse(const string&, flags)]: the expression as the call
    leaves it, and how the call ends. *)
Definition expr_t_parse (parser : parser_ptr) (this : expr_t ptr_op_t)
    (_str : text) (flags : Z) : expr_t ptr_op_t * outcome unit :=
  match parser with
  | None => (this, Thrown (parse_error parser_not_initialized))
  | Some parse =>
      let this := {| ptr := ptr _ this; str := _str |} in
      match parse _str flags with
      | inl e => (this, Thrown e)
      | inr op => ({| ptr := Some op; str := str _ this |}, Returned tt)
      end
  end.

(** [expr_t::calc] *)
Definition expr_t_calc (this : expr_t ptr_op_t) (scope : scope_t)
  : outcome value_t :=
  match ptr _ this with
  | Some op => op_calc op scope
  | None => Returned NULL_VALUE
  end.

(** [parse] called on the same expression with each text of a list in
    turn, what a call throws being caught: the expression as the calls
    leave it. *)
Definition expr_t_parse_all (parser : parser_ptr) (this : expr_t ptr_op_t)
    (texts : list text) (flags : Z) : expr_t ptr_op_t :=
  fold_left (fun this s => fst (expr_t_parse parser this s flags)) texts this.

(** The compiled form of the last of the texts that the parser accepts. *)
Definition last_accepted (parse : text -> Z -> exception + ptr_op_t)
    (flags : Z) (texts : list text) : option ptr_op_t :=
  last (omap (fun s => match parse s flags with
                       | inr op => Some op
                       | inl _ => None
                       end) texts).

End Expressions.
(** * Properties *)

(** ** Machine integers and C strings *)

Lemma u32_small z : 0 <= z < 2 ^ 32 -> u32 z = z.
Proof. intros H. unfold u32. now apply Z.mod_small. Qed.

Lemma usize_small z : 0 <= z < 2 ^ 64 -> usize z = z.
Proof. intros H. unfold usize. now apply Z.mod_small. Qed.

Lemma length32_c_text s : c_text s -> length32 s = Z.of_nat (length s).
Proof. intros [_ H]. unfold length32. apply u32_small. lia. Qed.

Lemma no_nul_cons c s :
  no_nul (c :: s) = true <-> is_nul c = false /\ no_nul s = true.
Proof.
  unfold no_nul. simpl. rewrite andb_true_iff, negb_true_iff. tauto.
Qed.

Lemma no_nul_app s1 s2 :
  no_nul (s1 ++ s2) = true <-> no_nul s1 = true /\ no_nul s2 = true.
Proof. unfold no_nul. rewrite forallb_app, andb_true_iff. tauto. Qed.

Lemma no_nul_take n s : no_nul s = true -> no_nul (take n s) = true.
Proof.
  intros H. rewrite <- (take_drop n s) in H. now apply no_nul_app in H.
Qed.

Lemma no_nul_drop n s : no_nul s = true -> no_nul (drop n s) = true.
Proof.
  intros H. rewrite <- (take_drop n s) in H. now apply no_nul_app in H.
Qed.

Lemma c_chars_no_nul s : no_nul s = true -> c_chars s = s.
Proof.
  induction s as [|c s IH]; [reflexivity|].
  rewrite no_nul_cons. intros [Hc Hs]. simpl. rewrite Hc. f_equal. auto.
Qed.

Lemma strncpy_image_take p n :
  no_nul p = true -> (n <= length p)%nat -> strncpy_image p n = take n p.
Proof.
  intros Hp Hn. unfold strncpy_image. rewrite (c_chars_no_nul p Hp).
  rewrite length_take_le by lia. rewrite Nat.sub_diag. simpl.
  apply app_nil_r.
Qed.

(** ** Writes to a buffer *)

Lemma length_blit {A} d (cs b : list A) :
  (d + length cs <= length b)%nat -> length (blit d cs b) = length b.
Proof.
  intros H. unfold blit.
  rewrite !length_app, length_take, length_drop. lia.
Qed.

Lemma lookup_app_decide {A} (l1 l2 : list A) i :
  (l1 ++ l2) !! i
  = if decide (i < length l1)%nat then l1 !! i else l2 !! (i - length l1)%nat.
Proof.
  case_decide.
  - now apply lookup_app_l.
  - apply lookup_app_r. lia.
Qed.

Lemma lookup_blit {A} d (cs b : list A) i :
  (d + length cs <= length b)%nat ->
  blit d cs b !! i
  = if decide (d <= i < d + length cs)%nat then cs !! (i - d)%nat else b !! i.
Proof.
  intros H. unfold blit.
  rewrite !lookup_app_decide, length_take, lookup_take, lookup_drop.
  repeat case_decide; try lia; try reflexivity.
  - f_equal. lia.
  - f_equal. lia.
Qed.

Lemma ptr_add_Returned p k :
  0 <= k <= Z.of_nat (length p) ->
  ptr_add p k = Returned (drop (Z.to_nat k) p).
Proof.
  intros H. unfold ptr_add.
  destruct (0 <=? k) eqn:E1; [|lia].
  destruct (k <=? Z.of_nat (length p)) eqn:E2; [reflexivity|lia].
Qed.

Lemma store_Returned dst cs b :
  0 <= dst -> dst + Z.of_nat (length cs) <= Z.of_nat (length b) ->
  store dst cs b = Returned (blit (Z.to_nat dst) (Some <$> cs) b).
Proof.
  intros H1 H2. unfold store, blit.
  destruct (0 <=? dst) eqn:E1; [|lia].
  destruct (dst + Z.of_nat (length cs) <=? Z.of_nat (length b)) eqn:E2; [|lia].
  cbn [andb]. now rewrite length_fmap.
Qed.

Lemma poke_Returned i c b :
  0 <= i < Z.of_nat (length b) ->
  poke i c b = Returned (blit (Z.to_nat i) [Some c] b).
Proof.
  intros H. unfold poke, blit.
  destruct (0 <=? i) eqn:E1; [|lia].
  destruct (i <? Z.of_nat (length b)) eqn:E2; [|lia].
  cbn [andb]. f_equal. rewrite insert_take_drop by lia.
  simpl. do 3 f_equal. lia.
Qed.

Lemma strncpy_Returned dst p n b :
  0 <= dst -> 0 <= n -> dst + n <= Z.of_nat (length b) ->
  no_nul p = true -> n <= Z.of_nat (length p) ->
  strncpy dst p n b
  = Returned (blit (Z.to_nat dst) (Some <$> take (Z.to_nat n) p) b).
Proof.
  intros H1 H2 H3 Hp H4. unfold strncpy.
  destruct (0 <=? dst) eqn:E1; [|lia].
  destruct (dst + n <=? Z.of_nat (length b)) eqn:E2; [|lia].
  cbn [andb]. rewrite strncpy_image_take by (auto; lia).
  apply store_Returned; [lia|]. rewrite length_take_le by lia. lia.
Qed.

Lemma string_of_buffer_lookup (X : text) : forall b : buffer,
  no_nul X = true ->
  (forall i, (i < length X)%nat -> b !! i = Some <$> X !! i) ->
  b !! length X = Some (Some NUL) ->
  string_of_buffer b = Returned X.
Proof.
  induction X as [|c X IH]; intros b HX Hpre Hend.
  - destruct b as [|[c|] b]; simpl in *; try discriminate.
    injection Hend as ->. reflexivity.
  - apply no_nul_cons in HX as [Hc HX].
    pose proof (Hpre 0%nat ltac:(simpl; lia)) as H0.
    destruct b as [|[c'|] b]; simpl in H0; try discriminate.
    injection H0 as ->. simpl. rewrite Hc.
    rewrite (IH b); [reflexivity|assumption| |exact Hend].
    intros i Hi. apply (Hpre (S i)). simpl. lia.
Qed.

Lemma new_buffer_length n : length (new_buffer n) = n.
Proof. apply length_replicate. Qed.

Lemma obind_Returned {A B} (a : A) (k : A -> outcome B) :
  obind (Returned a) k = k a.
Proof. reflexivity. Qed.

Lemma length_blit1 {A} d (c : A) (b : list A) n :
  length b = n -> (d < n)%nat -> length (blit d [c] b) = n.
Proof. intros <- H. apply length_blit. simpl. lia. Qed.

Lemma lookup_blit1 {A} d (c : A) (b : list A) n i :
  length b = n -> (d < n)%nat ->
  blit d [c] b !! i = if decide (i = d) then Some c else b !! i.
Proof.
  intros <- H. rewrite lookup_blit by (simpl; lia). simpl.
  repeat case_decide; try lia; try reflexivity.
  subst. now rewrite Nat.sub_diag.
Qed.

Lemma length_blit_text d (cs : text) (b : buffer) n :
  length b = n -> (d + length cs <= n)%nat ->
  length (blit d (Some <$> cs) b) = n.
Proof. intros <- H. apply length_blit. now rewrite length_fmap. Qed.

Lemma lookup_blit_text d (cs : text) (b : buffer) n i :
  length b = n -> (d + length cs <= n)%nat ->
  blit d (Some <$> cs) b !! i
  = if decide (d <= i < d + length cs)%nat then Some <$> cs !! (i - d)%nat
    else b !! i.
Proof.
  intros <- H. rewrite lookup_blit by now rewrite length_fmap.
  rewrite length_fmap, list_lookup_fmap. reflexivity.
Qed.

Ltac case_idx :=
  repeat case_decide; try lia; try reflexivity;
  try (do 2 f_equal; lia).

(** Steps through a successful write. *)
Ltac step_poke b L :=
  rewrite poke_Returned by lia; rewrite obind_Returned;
  match goal with
  | |- context [blit ?d [?c] ?b0] =>
      set (b := blit d [c] b0);
      assert (L : length b = 4096%nat) by (apply length_blit1; [assumption|lia])
  end.


(** ** The three plain elision styles *)

Lemma leading_run p w :
  no_nul p = true -> 2 <= w < 4095 -> w <= Z.of_nat (length p) ->
  finish (truncate_leading p (Z.of_nat (length p) - w) w) w
  = Returned (dot :: dot :: drop (length p - Z.to_nat w + 2) p).
Proof.
  intros Hnul Hw Hlen. unfold finish, truncate_leading.
  rewrite ptr_add_Returned by lia. rewrite obind_Returned.
  pose proof (new_buffer_length 4096) as L0.
  rewrite strncpy_Returned; rewrite ?length_drop; try lia;
    [|now apply no_nul_drop].
  rewrite obind_Returned.
  set (cs := take _ (drop _ p)).
  assert (Lcs : length cs = Z.to_nat w).
  { unfold cs. rewrite length_take, length_drop. lia. }
  set (b1 := blit _ _ (new_buffer 4096)).
  assert (L1 : length b1 = 4096%nat)
    by (apply length_blit_text; [assumption|lia]).
  step_poke b2 L2. step_poke b3 L3. step_poke b4 L4.
  apply string_of_buffer_lookup.
  - apply no_nul_cons; split; [reflexivity|].
    apply no_nul_cons; split; [reflexivity|]. now apply no_nul_drop.
  - intros i Hi. cbn [length] in Hi. rewrite length_drop in Hi.
    unfold b4. rewrite (lookup_blit1 _ _ _ _ _ L3) by lia.
    unfold b3. rewrite (lookup_blit1 _ _ _ _ _ L2) by lia.
    unfold b2. rewrite (lookup_blit1 _ _ _ _ _ L1) by lia.
    unfold b1. rewrite (lookup_blit_text _ _ _ _ _ L0) by lia.
    rewrite Lcs. unfold cs. rewrite lookup_take, lookup_drop.
    destruct i as [|[|i]]; rewrite ?lookup_cons; cbv iota;
      rewrite ?lookup_drop; case_idx.
  - cbn [length]. rewrite length_drop.
    unfold b4. rewrite (lookup_blit1 _ _ _ _ _ L3) by lia.
    case_idx.
Qed.

Lemma trailing_run s w :
  no_nul s = true -> 2 <= w < 4095 -> w <= Z.of_nat (length s) ->
  finish (truncate_trailing s w) w
  = Returned (take (Z.to_nat w - 2) s ++ [dot; dot]).
Proof.
  intros Hnul Hw Hlen. unfold finish, truncate_trailing.
  rewrite !u32_small by lia.
  pose proof (new_buffer_length 4096) as L0.
  rewrite strncpy_Returned by (assumption || lia).
  rewrite obind_Returned.
  set (cs := take _ s).
  assert (Lcs : length cs = (Z.to_nat w - 2)%nat).
  { unfold cs. rewrite length_take. lia. }
  set (b1 := blit _ _ (new_buffer 4096)).
  assert (L1 : length b1 = 4096%nat)
    by (apply length_blit_text; [assumption|lia]).
  step_poke b2 L2. step_poke b3 L3. step_poke b4 L4.
  assert (LX : length (take (Z.to_nat w - 2) s ++ [dot; dot]) = Z.to_nat w).
  { rewrite length_app, length_take. cbn [length]. lia. }
  apply string_of_buffer_lookup.
  - apply no_nul_app; split; [now apply no_nul_take|reflexivity].
  - intros i Hi. rewrite LX in Hi.
    unfold b4. rewrite (lookup_blit1 _ _ _ _ _ L3) by lia.
    unfold b3. rewrite (lookup_blit1 _ _ _ _ _ L2) by lia.
    unfold b2. rewrite (lookup_blit1 _ _ _ _ _ L1) by lia.
    unfold b1. rewrite (lookup_blit_text _ _ _ _ _ L0) by lia.
    rewrite Lcs. unfold cs.
    rewrite lookup_app_decide, length_take, !lookup_take.
    case_idx.
    + replace (i - _)%nat with 1%nat by lia. reflexivity.
    + replace (i - _)%nat with 0%nat by lia. reflexivity.
  - rewrite LX.
    unfold b4. rewrite (lookup_blit1 _ _ _ _ _ L3) by lia.
    case_idx.
Qed.

Lemma middle_run s w :
  c_text s -> 2 <= w < 4095 -> w < Z.of_nat (length s) ->
  finish (truncate_middle s (Z.of_nat (length s)) w) w
  = Returned (take (Z.to_nat (w / 2) - 1) s
              ++ dot :: dot
              :: drop (length s - Z.to_nat (w - w / 2) + 1) s).
Proof.
  intros [Hnul H32] Hw Hlen. unfold finish, truncate_middle.
  assert (Hh : 2 * (w / 2) <= w <= 2 * (w / 2) + 1 /\ w mod 2 = w - 2 * (w / 2))
    by (Z.div_mod_to_equations; lia).
  set (h := w / 2) in *. destruct Hh as [Hh Hm]. rewrite Hm.
  rewrite !u32_small by lia.
  pose proof (new_buffer_length 4096) as L0.
  rewrite strncpy_Returned by (assumption || lia).
  rewrite obind_Returned.
  rewrite ptr_add_Returned by lia. rewrite obind_Returned.
  set (cs1 := take _ s).
  assert (Lcs1 : length cs1 = Z.to_nat h).
  { unfold cs1. rewrite length_take. lia. }
  set (b1 := blit _ _ (new_buffer 4096)).
  assert (L1 : length b1 = 4096%nat)
    by (apply length_blit_text; [assumption|lia]).
  rewrite strncpy_Returned; rewrite ?length_drop; try lia;
    [|now apply no_nul_drop].
  rewrite obind_Returned.
  set (cs2 := take _ (drop _ s)).
  assert (Lcs2 : length cs2 = Z.to_nat (w - h)).
  { unfold cs2. rewrite length_take, length_drop. lia. }
  set (b2 := blit _ _ b1).
  assert (L2 : length b2 = 4096%nat)
    by (apply length_blit_text; [assumption|lia]).
  step_poke b3 L3. step_poke b4 L4. step_poke b5 L5.
  set (X := take _ s ++ _).
  assert (LX : length X = Z.to_nat w).
  { unfold X. rewrite length_app, length_take. cbn [length].
    rewrite length_drop. lia. }
  apply string_of_buffer_lookup.
  - apply no_nul_app; split; [now apply no_nul_take|].
    apply no_nul_cons; split; [reflexivity|].
    apply no_nul_cons; split; [reflexivity|]. now apply no_nul_drop.
  - intros i Hi. rewrite LX in Hi.
    unfold b5. rewrite (lookup_blit1 _ _ _ _ _ L4) by lia.
    unfold b4. rewrite (lookup_blit1 _ _ _ _ _ L3) by lia.
    unfold b3. rewrite (lookup_blit1 _ _ _ _ _ L2) by lia.
    unfold b2. rewrite (lookup_blit_text _ _ _ _ _ L1) by lia.
    unfold b1. rewrite (lookup_blit_text _ _ _ _ _ L0) by lia.
    rewrite Lcs1, Lcs2. unfold cs1, cs2, X.
    rewrite lookup_app_decide, length_take, !lookup_take, lookup_drop.
    case_idx.
    + replace (i - _)%nat with 1%nat by lia. reflexivity.
    + replace (i - _)%nat with 0%nat by lia. reflexivity.
    + replace (i - _ `min` _)%nat with (S (S (i - Z.to_nat h - 1))) by lia.
      rewrite !lookup_cons. cbv iota. rewrite lookup_drop. case_idx.
  - rewrite LX.
    unfold b5. rewrite (lookup_blit1 _ _ _ _ _ L4) by lia.
    case_idx.
Qed.
(** ** [truncate] *)

Lemma truncate_short cfg s w acc :
  c_text s -> Z.of_nat (length s) <= w -> truncate cfg s w acc = Returned s.
Proof.
  intros Hs Hle. unfold truncate. rewrite length32_c_text by assumption.
  destruct (Z.of_nat (length s) <=? w) eqn:E; [reflexivity|lia].
Qed.

Lemma truncate_long cfg s w acc :
  c_text s -> 0 <= w < 4095 -> w < Z.of_nat (length s) ->
  truncate cfg s w acc
  = finish
      match elision_style cfg with
      | TRUNCATE_LEADING =>
          truncate_leading s (Z.of_nat (length s) - w) w
      | TRUNCATE_MIDDLE => truncate_middle s (Z.of_nat (length s)) w
      | ABBREVIATE =>
          if acc then truncate_abbreviate cfg s (Z.of_nat (length s)) w
          else truncate_trailing s w
      | TRUNCATE_TRAILING => truncate_trailing s w
      end w.
Proof.
  intros Hs Hw Hlen. unfold truncate. rewrite length32_c_text by assumption.
  destruct (Z.of_nat (length s) <=? w) eqn:E1; [lia|].
  destruct (w <? 4095) eqn:E2; [|lia]. cbn [negb].
  destruct Hs as [_ H32].
  destruct (elision_style cfg); try reflexivity.
  rewrite u32_small; [reflexivity|lia].
Qed.

Lemma length_elided style s w :
  (2 <= w < length s)%nat -> length (elided style s w) = w.
Proof.
  intros H. pose proof (Nat.div_mod_eq w 2) as Hd.
  pose proof (Nat.mod_upper_bound w 2 ltac:(lia)) as Hm.
  destruct style; unfold elided;
    rewrite ?length_app; cbn [length];
    rewrite ?length_take, ?length_drop; lia.
Qed.

Lemma truncate_elided cfg s w acc :
  c_text s -> 2 <= w < 4095 -> w < Z.of_nat (length s) ->
  elision_style cfg <> ABBREVIATE \/ acc = false ->
  truncate cfg s w acc = Returned (elided (elision_style cfg) s (Z.to_nat w)).
Proof.
  intros Hs Hw Hlen Hst. rewrite truncate_long by (assumption || lia).
  pose proof Hs as [Hnul H32].
  destruct (elision_style cfg) eqn:E; unfold elided.
  - apply trailing_run; (assumption || lia).
  - rewrite middle_run by (assumption || lia).
    do 3 f_equal.
    + rewrite Z2Nat.inj_div by lia. reflexivity.
    + do 2 f_equal. rewrite Z2Nat.inj_sub, Z2Nat.inj_div by
        (try apply Z.div_pos; lia). reflexivity.
  - apply leading_run; (assumption || lia).
  - destruct Hst as [Hst| ->]; [congruence|].
    apply trailing_run; (assumption || lia).
Qed.

(** C8 (as amended): under [TRUNCATE_MIDDLE], for a text [s] longer than the
    width [w], [2 <= w < 4095], [truncate] copies the first [w/2] and the
    last [w - w/2] characters of [s] and then overwrites the two characters
    around the midpoint: the result is the first [w/2 - 1] characters of
    [s], two dots, and the last [w - w/2 - 1] characters of [s]. *)
Theorem truncate_middle_result cfg s w acc :
  elision_style cfg = TRUNCATE_MIDDLE ->
  c_text s -> 2 <= w < 4095 -> w < Z.of_nat (length s) ->
  truncate cfg s w acc
  = Returned (take (Z.to_nat (w / 2) - 1) s
              ++ [dot; dot]
              ++ last_chars (Z.to_nat (w - w / 2) - 1) s).
Proof.
  intros Hst Hs Hw Hlen.
  rewrite truncate_elided by (assumption || lia || (left; congruence)).
  rewrite Hst. unfold elided, last_chars.
  assert (Hh : 2 * (w / 2) <= w <= 2 * (w / 2) + 1)
    by (Z.div_mod_to_equations; lia).
  assert (Hd : (Z.to_nat w / 2)%nat = Z.to_nat (w / 2))
    by (rewrite Z2Nat.inj_div by lia; reflexivity).
  rewrite Hd. do 2 f_equal. cbn [app]. do 3 f_equal. lia.
Qed.

Lemma truncate_middle_result_witness :
  truncate {| elision_style := TRUNCATE_MIDDLE; abbrev_length := 2 |}
    (txt "abcdefghij") 5 false
  = Returned (take (Z.to_nat (5 / 2) - 1) (txt "abcdefghij")
              ++ [dot; dot]
              ++ last_chars (Z.to_nat (5 - 5 / 2) - 1) (txt "abcdefghij")).
Proof.
  apply (truncate_middle_result
           {| elision_style := TRUNCATE_MIDDLE; abbrev_length := 2 |}
           (txt "abcdefghij") 5 false).
  - reflexivity.
  - split; [reflexivity|]. simpl. lia.
  - lia.
  - simpl. lia.
Defined.

(** C8 (counterexample): ["abcdefghij"] at width 4 comes back as ["a..j"]:
    of the first [4/2 = 2] characters ["ab"] only ["a"] is kept, of the
    last two only ["j"], and the dots are not inserted between ["ab"] and
    ["ij"]. *)
Lemma truncate_middle_counterexample :
  truncate {| elision_style := TRUNCATE_MIDDLE; abbrev_length := 2 |}
    (txt "abcdefghij") 4 false
  = Returned (txt "a..j")
  /\ take 2 (txt "a..j") <> take 2 (txt "abcdefghij")
  /\ last_chars 2 (txt "a..j") <> last_chars 2 (txt "abcdefghij")
  /\ txt "a..j" <> txt "ab" ++ txt ".." ++ txt "ij".
Proof. vm_compute. repeat split; discriminate. Qed.

(** C3 (the code at the failing inputs): with segments shorter than
    [abbrev_length] the running length [newlen] grows instead of staying put
    (the subtraction [length - abbrev_length] wraps around), so that it no
    longer is the length accumulated so far. At width 13 the segment
    ["Cash"] of ["A:B:Longname:Cash:X"] is abbreviated although
    ["A:B:Lo:Cash:X"] has 13 characters; at width 6, ["A:Bank:X"] is
    truncated at its beginning although ["A:Ba:X"] has 6 characters; and at
    width 16, ["A:B:C:D:E:Groceries:X"] makes [truncate] read before the
    beginning of the abbreviated text. The example of the specification
    holds: at width 10 the last segment of ["Assets:Current:Checking"]
    survives. *)
Theorem truncate_abbreviate_short_segments :
  truncate initial_settings (txt "A:B:Longname:Cash:X") 13 true
  = Returned (txt "A:B:Lo:Ca:X")
  /\ spec_truncate_abbreviate 2 13 (txt "A:B:Longname:Cash:X")
     = txt "A:B:Lo:Cash:X"
  /\ truncate initial_settings (txt "A:Bank:X") 6 true
     = Returned (txt "..Ba:X")
  /\ spec_truncate_abbreviate 2 6 (txt "A:Bank:X") = txt "A:Ba:X"
  /\ truncate initial_settings (txt "A:B:C:D:E:Groceries:X") 16 true
     = Undefined
  /\ truncate initial_settings (txt "Assets:Current:Checking") 10 true
     = Returned (txt "..Checking")
  /\ spec_truncate_abbreviate 2 10 (txt "Assets:Current:Checking")
     = txt "..Checking".
Proof. vm_compute. repeat split. Qed.

(** ** Abbreviation of account paths *)

Lemma split_parts_cons s : exists p ps, split_parts s = p :: ps.
Proof.
  destruct s as [|c s]; [now exists [], []|].
  cbn [split_parts]. destruct (Ascii.eqb c colon); [now eexists _, _|].
  destruct (split_parts s); now eexists _, _.
Qed.

Lemma join_colon_cons2 p q rest :
  join_colon (p :: q :: rest) = p ++ colon :: join_colon (q :: rest).
Proof. reflexivity. Qed.

Lemma join_colon_split s : join_colon (split_parts s) = s.
Proof.
  induction s as [|c s IH]; [reflexivity|].
  cbn [split_parts]. destruct (split_parts_cons s) as (p & ps & E).
  rewrite E in *. destruct (Ascii.eqb_spec c colon) as [->|_].
  - rewrite join_colon_cons2, IH. reflexivity.
  - destruct ps as [|q ps].
    + cbn [join_colon] in *. now rewrite IH.
    + rewrite join_colon_cons2 in *. cbn [app]. now rewrite IH.
Qed.

Lemma spec_abbreviate_cons2 a w p q rest r :
  spec_abbreviate a w (p :: q :: rest) r
  = if (w <? r)%nat
    then take a p ++ colon
           :: spec_abbreviate a w (q :: rest)
                (r - (length p - length (take a p)))
    else p ++ colon :: spec_abbreviate a w (q :: rest) r.
Proof. reflexivity. Qed.

Lemma abbreviate_parts_cons2 al w p q rest n :
  abbreviate_parts al w (p :: q :: rest) n
  = if w <? n then
      let '(r, m) :=
        abbreviate_parts al w (q :: rest)
          (u32 (usize (n - usize (Z.of_nat (length p) - al)))) in
      (take (Z.to_nat (usize al)) p ++ colon :: r, m)
    else
      let '(r, m) := abbreviate_parts al w (q :: rest) n in
      (p ++ colon :: r, m).
Proof. reflexivity. Qed.

Lemma abbreviate_parts_spec (a w : nat) parts : forall r : nat,
  init_long a parts = true ->
  (length (join_colon parts) <= r)%nat -> Z.of_nat r < 2 ^ 32 ->
  abbreviate_parts (Z.of_nat a) (Z.of_nat w) parts (Z.of_nat r)
  = (spec_abbreviate a w parts r,
     Z.of_nat (r - length (join_colon parts)
               + length (spec_abbreviate a w parts r))).
Proof.
  induction parts as [|p [|q rest] IH]; intros r Hlong Hr H32.
  - cbn. do 2 f_equal. lia.
  - cbn. cbn in Hr. do 2 f_equal. lia.
  - rewrite abbreviate_parts_cons2, spec_abbreviate_cons2.
    rewrite join_colon_cons2 in *. rewrite length_app in *.
    cbn [length] in Hr |- *.
    cbn [init_long] in Hlong. apply andb_true_iff in Hlong as [Hp Hlong].
    apply Nat.leb_le in Hp.
    assert (Ew : (Z.of_nat w <? Z.of_nat r) = (w <? r)%nat).
    { destruct (Z.ltb_spec (Z.of_nat w) (Z.of_nat r)),
        (Nat.ltb_spec w r); (reflexivity || lia). }
    rewrite Ew. destruct (w <? r)%nat.
    + rewrite length_take_le by lia.
      rewrite (usize_small (Z.of_nat a)) by lia.
      rewrite (usize_small (Z.of_nat (length p) - Z.of_nat a)) by lia.
      rewrite usize_small by lia. rewrite u32_small by lia.
      rewrite Nat2Z.id.
      replace (Z.of_nat r - (Z.of_nat (length p) - Z.of_nat a))
        with (Z.of_nat (r - (length p - a))) by lia.
      rewrite (IH _ Hlong) by lia.
      f_equal. rewrite length_app, length_take_le by lia.
      cbn [length]. lia.
    + rewrite (IH _ Hlong) by lia.
      f_equal. rewrite length_app. cbn [length]. lia.
Qed.

Lemma no_nul_spec_abbreviate a w parts : forall r,
  no_nul (join_colon parts) = true ->
  no_nul (spec_abbreviate a w parts r) = true.
Proof.
  induction parts as [|p [|q rest] IH]; intros r H; try exact H.
  rewrite spec_abbreviate_cons2. rewrite join_colon_cons2 in H.
  apply no_nul_app in H as [Hp H]. apply no_nul_cons in H as [Hc H].
  destruct (w <? r)%nat; apply no_nul_app; split;
    try apply no_nul_cons; try split;
    auto using no_nul_take.
Qed.

Lemma length_spec_abbreviate a w parts : forall r,
  (length (spec_abbreviate a w parts r) <= length (join_colon parts))%nat.
Proof.
  induction parts as [|p [|q rest] IH]; intros r; try reflexivity.
  rewrite spec_abbreviate_cons2, join_colon_cons2.
  destruct (w <? r)%nat; rewrite !length_app; cbn [length];
    rewrite ?length_take.
  - specialize (IH (r - (length p - a `min` length p))%nat). lia.
  - specialize (IH r). lia.
Qed.

Lemma strcpy_run r w :
  no_nul r = true -> 0 <= w < 4095 -> Z.of_nat (length r) <= w ->
  finish (strcpy r (new_buffer 4096)) w = Returned r.
Proof.
  intros Hnul Hw Hlen. unfold finish, strcpy.
  pose proof (new_buffer_length 4096) as L0.
  rewrite (c_chars_no_nul r Hnul).
  rewrite store_Returned by (rewrite ?length_app; cbn [length]; lia).
  rewrite obind_Returned.
  set (b1 := blit _ _ (new_buffer 4096)).
  assert (L1 : length b1 = 4096%nat).
  { apply length_blit_text; [assumption|].
    rewrite length_app. cbn [length]. lia. }
  step_poke b2 L2.
  assert (K1 : forall i, (i <= length r)%nat ->
            b1 !! i = Some <$> (r ++ [NUL]) !! i).
  { intros i Hi. unfold b1.
    rewrite (lookup_blit_text _ _ _ _ _ L0)
      by (rewrite length_app; cbn [length]; lia).
    rewrite length_app. cbn [length]. change (Z.to_nat 0) with 0%nat.
    case_decide; [|lia]. do 2 f_equal. lia. }
  apply string_of_buffer_lookup; [assumption| |].
  - intros i Hi. unfold b2. rewrite (lookup_blit1 _ _ _ _ _ L1) by lia.
    case_decide; [lia|]. rewrite K1 by lia.
    now rewrite lookup_app_l by lia.
  - unfold b2. rewrite (lookup_blit1 _ _ _ _ _ L1) by lia.
    case_decide; [reflexivity|]. rewrite K1 by lia.
    rewrite lookup_app_r by lia. now rewrite Nat.sub_diag.
Qed.

Lemma truncate_abbreviate_run cfg s w (a : nat) :
  elision_style cfg = ABBREVIATE -> abbrev_length cfg = Z.of_nat a ->
  c_text s -> 2 <= w < 4095 -> w < Z.of_nat (length s) ->
  init_long a (split_parts s) = true ->
  truncate cfg s w true
  = Returned (spec_truncate_abbreviate a (Z.to_nat w) s)
  /\ Z.of_nat (length (spec_truncate_abbreviate a (Z.to_nat w) s)) <= w.
Proof.
  intros Hst Ha Hs Hw Hlen Hlong. pose proof Hs as [Hnul H32].
  rewrite truncate_long by (assumption || lia). rewrite Hst.
  unfold truncate_abbreviate, spec_truncate_abbreviate. rewrite Ha.
  rewrite <- (Z2Nat.id w) at 1 2 by lia.
  rewrite abbreviate_parts_spec;
    [|assumption|now rewrite join_colon_split|assumption].
  rewrite join_colon_split, Nat.sub_diag. cbn [Nat.add].
  set (res := spec_abbreviate a (Z.to_nat w) (split_parts s) (length s)).
  assert (Hres : no_nul res = true).
  { apply no_nul_spec_abbreviate. now rewrite join_colon_split. }
  rewrite Z2Nat.id by lia.
  destruct (Z.ltb_spec w (Z.of_nat (length res))) as [Hgt|Hle].
  - destruct (Nat.ltb_spec (Z.to_nat w) (length res)); [|lia].
    assert (Hres64 : Z.of_nat (length res) < 2 ^ 64).
    { pose proof (length_spec_abbreviate a (Z.to_nat w) (split_parts s)
                    (length s)) as Hl.
      rewrite join_colon_split in Hl. fold res in Hl. lia. }
    rewrite usize_small by lia.
    rewrite leading_run by (assumption || lia).
    split; [reflexivity|].
    rewrite (length_elided TRUNCATE_LEADING) by lia. lia.
  - destruct (Nat.ltb_spec (Z.to_nat w) (length res)); [lia|].
    rewrite strcpy_run by (assumption || lia). split; [reflexivity|lia].
Qed.

(** On the account paths whose segments, the last apart, have at least
    [abbrev_length] characters, [truncate] abbreviates as the specification
    says, and its result has at most [w] characters. *)
Theorem truncate_abbreviate_agrees cfg s w (a : nat) :
  elision_style cfg = ABBREVIATE -> abbrev_length cfg = Z.of_nat a ->
  c_text s -> 2 <= w < 4095 -> w < Z.of_nat (length s) ->
  init_long a (split_parts s) = true ->
  truncate cfg s w true
  = Returned (spec_truncate_abbreviate a (Z.to_nat w) s)
  /\ Z.of_nat (length (spec_truncate_abbreviate a (Z.to_nat w) s)) <= w.
Proof. exact (truncate_abbreviate_run cfg s w a). Qed.

Lemma truncate_abbreviate_agrees_witness :
  truncate initial_settings (txt "Assets:Current:Checking") 10 true
  = Returned
      (spec_truncate_abbreviate 2 (Z.to_nat 10) (txt "Assets:Current:Checking"))
  /\ Z.of_nat
       (length (spec_truncate_abbreviate 2 (Z.to_nat 10)
                  (txt "Assets:Current:Checking"))) <= 10.
Proof.
  apply (truncate_abbreviate_agrees initial_settings
           (txt "Assets:Current:Checking") 10 2).
  - reflexivity.
  - reflexivity.
  - split; [reflexivity|]. simpl. lia.
  - lia.
  - simpl. lia.
  - reflexivity.
Defined.

(** ** The length of the result *)

(** C1 (as amended): for a text [s] and a width [w] with [2 <= w < 4095],
    [truncate] returns [s] itself when [len(s) <= w], under every elision
    style; it returns a text of length exactly [min(len(s), w)] under the
    leading, middle and trailing styles, and under [ABBREVIATE] when the
    text is not an account path; and under [ABBREVIATE] it returns, for an
    account path whose segments, the last apart, have at least
    [abbrev_length] characters, a text of length at most [min(len(s), w)]. *)
Theorem truncate_length cfg s w acc :
  c_text s -> 2 <= w < 4095 ->
  (Z.of_nat (length s) <= w -> truncate cfg s w acc = Returned s)
  /\ (elision_style cfg <> ABBREVIATE \/ acc = false ->
      exists r, truncate cfg s w acc = Returned r
                /\ Z.of_nat (length r) = Z.min (Z.of_nat (length s)) w)
  /\ (forall a : nat,
        elision_style cfg = ABBREVIATE -> abbrev_length cfg = Z.of_nat a ->
        init_long a (split_parts s) = true ->
        exists r, truncate cfg s w true = Returned r
                  /\ Z.of_nat (length r) <= Z.min (Z.of_nat (length s)) w).
Proof.
  intros Hs Hw. split; [|split].
  - now apply truncate_short.
  - intros Hst. destruct (Z.le_gt_cases (Z.of_nat (length s)) w) as [Hle|Hgt].
    + exists s. split; [now apply truncate_short|lia].
    + eexists. split; [apply truncate_elided; (assumption || lia)|].
      rewrite length_elided by lia. lia.
  - intros a Hst Ha Hlong.
    destruct (Z.le_gt_cases (Z.of_nat (length s)) w) as [Hle|Hgt].
    + exists s. split; [now apply truncate_short|lia].
    + destruct (truncate_abbreviate_run cfg s w a) as [E Hl];
        try (assumption || lia).
      eexists. split; [exact E|lia].
Qed.

Lemma truncate_length_witness :
  (Z.of_nat (length (txt "Supermarket")) <= 8 ->
   truncate {| elision_style := TRUNCATE_TRAILING; abbrev_length := 2 |}
     (txt "Supermarket") 8 false = Returned (txt "Supermarket"))
  /\ (elision_style {| elision_style := TRUNCATE_TRAILING; abbrev_length := 2 |}
        <> ABBREVIATE \/ false = false ->
      exists r,
        truncate {| elision_style := TRUNCATE_TRAILING; abbrev_length := 2 |}
          (txt "Supermarket") 8 false = Returned r
        /\ Z.of_nat (length r) = Z.min (Z.of_nat (length (txt "Supermarket"))) 8)
  /\ (forall a : nat,
        elision_style {| elision_style := TRUNCATE_TRAILING; abbrev_length := 2 |}
        = ABBREVIATE ->
        abbrev_length {| elision_style := TRUNCATE_TRAILING; abbrev_length := 2 |}
        = Z.of_nat a ->
        init_long a (split_parts (txt "Supermarket")) = true ->
        exists r,
          truncate {| elision_style := TRUNCATE_TRAILING; abbrev_length := 2 |}
            (txt "Supermarket") 8 true = Returned r
          /\ Z.of_nat (length r)
             <= Z.min (Z.of_nat (length (txt "Supermarket"))) 8).
Proof.
  apply (truncate_length
           {| elision_style := TRUNCATE_TRAILING; abbrev_length := 2 |}
           (txt "Supermarket") 8 false).
  - split; [reflexivity|]. simpl. lia.
  - lia.
Defined.

(** C1 (counterexample): under [ABBREVIATE], the account path
    ["Assets:Current:Checking"] (23 characters) at width 22 comes back as
    ["As:Current:Checking"], 19 characters and not [min(23, 22) = 22]. *)
Lemma truncate_length_counterexample :
  truncate initial_settings (txt "Assets:Current:Checking") 22 true
  = Returned (txt "As:Current:Checking")
  /\ length (txt "As:Current:Checking") = 19%nat
  /\ Z.min (Z.of_nat (length (txt "Assets:Current:Checking"))) 22 = 22.
Proof. vm_compute. repeat split. Qed.


(** ** Examples of the specification *)

(** ["Supermarket"] at width 8, truncated at its end. *)
Example truncate_trailing_example :
  truncate {| elision_style := TRUNCATE_TRAILING; abbrev_length := 2 |}
    (txt "Supermarket") 8 false
  = Returned (txt "Superm..").
Proof. vm_compute. reflexivity. Qed.

(** ** Accounts *)

Lemma account_parent_ind (P : account_t -> Prop) :
  (forall n subs d, P (Account None n subs d)) ->
  (forall up n subs d, P up -> P (Account (Some up) n subs d)) ->
  forall a, P a.
Proof.
  intros Hroot Hstep. fix IH 1. intros [[up|] n subs d].
  - apply Hstep, IH.
  - apply Hroot.
Qed.

Section AccountProperties.

Variable ACCOUNT_DISPLAYED : Z.

Lemma partial_account_name_from_fold a acc :
  partial_account_name_from ACCOUNT_DISPLAYED a acc
  = fold_left name_step (map name (walked ACCOUNT_DISPLAYED a)) acc.
Proof.
  revert acc. induction a as [n subs d|up n subs d IH] using account_parent_ind;
    intros acc.
  - reflexivity.
  - unfold walked. cbn [partial_account_name_from lineage take_while parent].
    destruct (account_displayed _ _); [reflexivity|].
    cbn [negb map fold_left name]. rewrite IH. reflexivity.
Qed.

Lemma join_colon_snoc_nonempty l x :
  is_empty x = false -> is_empty (join_colon (l ++ [x])) = false.
Proof.
  intros Hx. induction l as [|n l IH]; [exact Hx|].
  cbn [app join_colon]. destruct (l ++ [x]) eqn:E.
  - destruct l; discriminate.
  - rewrite <- E. destruct n; reflexivity.
Qed.

Lemma join_colon_cons n l :
  is_empty (join_colon l) = false ->
  join_colon (n :: l) = n ++ colon :: join_colon l.
Proof. destruct l; [discriminate|reflexivity]. Qed.

Lemma drop_empty_app_all_empty k l :
  drop_empty k = [] -> drop_empty (k ++ l) = drop_empty l.
Proof.
  induction k as [|n k IH]; [reflexivity|].
  cbn [drop_empty app]. destruct (is_empty n); [exact IH|discriminate].
Qed.

Lemma drop_empty_app_some k l x k' :
  drop_empty k = x :: k' ->
  drop_empty (k ++ l) = x :: k' ++ l /\ is_empty x = false.
Proof.
  induction k as [|n k IH]; [discriminate|].
  cbn [drop_empty app]. destruct (is_empty n) eqn:E; [exact IH|].
  intros [= <- <-]. split; [reflexivity|exact E].
Qed.

Lemma step_join k n :
  name_step (join_colon (rev (drop_empty k))) n
  = join_colon (rev (drop_empty (k ++ [n]))).
Proof.
  destruct (drop_empty k) as [|x k'] eqn:E.
  - rewrite (drop_empty_app_all_empty _ _ E). cbn [rev join_colon name_step].
    cbn [drop_empty]. destruct n; reflexivity.
  - destruct (drop_empty_app_some _ [n] _ _ E) as [-> Hx].
    change (x :: k' ++ [n]) with ((x :: k') ++ [n]).
    rewrite rev_app_distr. cbn [rev app].
    assert (Hne : is_empty (join_colon (rev k' ++ [x])) = false)
      by now apply join_colon_snoc_nonempty.
    rewrite (join_colon_cons _ _ Hne).
    unfold name_step. destruct (join_colon (rev k' ++ [x])); [discriminate|].
    reflexivity.
Qed.

Lemma fold_step_join l : forall k,
  fold_left name_step l (join_colon (rev (drop_empty k)))
  = join_colon (rev (drop_empty (k ++ l))).
Proof.
  induction l as [|n l IH]; intros k.
  - now rewrite app_nil_r.
  - cbn [fold_left]. rewrite step_join, IH, <- app_assoc. reflexivity.
Qed.

Lemma drop_empty_nonempty n l :
  is_empty n = false -> drop_empty (n :: l) = n :: l.
Proof. intros H. cbn [drop_empty]. now rewrite H. Qed.

Lemma walked_has_parent a n :
  In n (walked ACCOUNT_DISPLAYED a) ->
  parent n <> None /\ account_displayed ACCOUNT_DISPLAYED n = false.
Proof.
  unfold walked. induction (lineage a) as [|x l IH]; [intros []|].
  cbn [take_while]. destruct (parent x) eqn:E; [|intros []].
  destruct (account_displayed _ x) eqn:D; [intros []|].
  cbn [negb]. intros [<-|H]; [|now apply IH].
  split; [congruence|assumption].
Qed.

(** C10 (as amended): [partial_account_name] walks from the account
    upward and stops before the first node that is the root or carries the
    displayed flag; it returns the names of the nodes walked over, the
    ancestors first, joined by colons, after leaving out the empty names
    at the account's end of the walk. So it is the colon-joined names of
    all the nodes walked over when the account's own name is not empty;
    the root is never among them, and the result is empty when the
    account is the root or carries the displayed flag. *)
Theorem partial_account_name_joined (a : account_t) :
  partial_account_name ACCOUNT_DISPLAYED a
  = join_colon
      (rev (drop_empty (map name (walked ACCOUNT_DISPLAYED a))))
  /\ (is_empty (name a) = false ->
      partial_account_name ACCOUNT_DISPLAYED a
      = join_colon (rev (map name (walked ACCOUNT_DISPLAYED a))))
  /\ (forall n, In n (walked ACCOUNT_DISPLAYED a) ->
      parent n <> None /\ account_displayed ACCOUNT_DISPLAYED n = false)
  /\ (parent a = None \/ account_displayed ACCOUNT_DISPLAYED a = true ->
      partial_account_name ACCOUNT_DISPLAYED a = []).
Proof.
  assert (Hexact : partial_account_name ACCOUNT_DISPLAYED a
                   = join_colon
                       (rev (drop_empty
                               (map name (walked ACCOUNT_DISPLAYED a))))).
  { unfold partial_account_name. rewrite partial_account_name_from_fold.
    apply (fold_step_join _ []). }
  split; [exact Hexact|]. split; [|split].
  - intros Hname. rewrite Hexact. do 2 f_equal.
    unfold walked. destruct a as [[up|] n subs d]; cbn [lineage take_while parent].
    + destruct (account_displayed _ _); [reflexivity|].
      cbn [negb map]. now apply drop_empty_nonempty.
    + reflexivity.
  - apply walked_has_parent.
  - intros H. rewrite Hexact. unfold walked.
    destruct a as [[up|] n subs d]; cbn [lineage take_while parent].
    + destruct H as [H|H]; [discriminate|]. cbn [parent] in H.
      rewrite H. reflexivity.
    + reflexivity.
Qed.

(** C9: [display_account] returns false for an account whose displayed
    flag is set, whatever its sub-accounts and whatever the predicate. *)
Theorem display_account_displayed (account : account_t)
    (disp_pred : option item_predicate) :
  account_displayed ACCOUNT_DISPLAYED account = true ->
  display_account ACCOUNT_DISPLAYED account disp_pred = false.
Proof. intros H. unfold display_account. now rewrite H. Qed.

(** C4 (as amended): the comparison of the totals of the sub-accounts is
    compiled out: [disp_subaccounts_p] returns false and nominates no
    sub-account, whatever the totals; and [display_account] returns true
    exactly when the account does not carry the displayed flag and the
    predicate is absent or holds of the account itself. So, without a
    predicate, an account that has not been displayed and each of its
    sub-accounts that has not been displayed evaluate to true. *)
Theorem display_account_decides (account : account_t)
    (disp_pred : option item_predicate) :
  disp_subaccounts_p account disp_pred = (false, None)
  /\ display_account ACCOUNT_DISPLAYED account disp_pred
     = negb (account_displayed ACCOUNT_DISPLAYED account)
       && match disp_pred with
          | None => true
          | Some pred => pred account
          end
  /\ (account_displayed ACCOUNT_DISPLAYED account = false ->
      display_account ACCOUNT_DISPLAYED account None = true
      /\ forall sub,
           In sub (accounts account) ->
           account_displayed ACCOUNT_DISPLAYED sub = false ->
           display_account ACCOUNT_DISPLAYED sub None = true).
Proof.
  assert (H : forall a p,
            display_account ACCOUNT_DISPLAYED a p
            = negb (account_displayed ACCOUNT_DISPLAYED a)
              && match p with None => true | Some pred => pred a end).
  { intros a p. unfold display_account.
    destruct (account_displayed _ _); reflexivity. }
  split; [reflexivity|]. split; [apply H|].
  intros Hd. split.
  - rewrite H, Hd. reflexivity.
  - intros sub _ Hs. rewrite H, Hs. reflexivity.
Qed.

End AccountProperties.

(** C10 (counterexample): for a sub-account with an empty name below ["A"],
    the names walked over are the empty name and ["A"], whose colon-joined
    text is ["A:"]; [partial_account_name] returns ["A"]. *)
Lemma partial_account_name_counterexample :
  map name (walked 2 sample_unnamed) = [[]; txt "A"]
  /\ join_colon (rev (map name (walked 2 sample_unnamed))) = txt "A:"
  /\ partial_account_name 2 sample_unnamed = txt "A".
Proof. repeat split. Qed.

Lemma display_account_displayed_witness :
  display_account 2 sample_displayed None = false.
Proof.
  apply (display_account_displayed 2 sample_displayed None). reflexivity.
Defined.

(** C4 (counterexample): ["Assets"] has two sub-accounts that pass the
    predicate and whose totals, 10 and 20, differ from each other and from
    its own, 30; the predicate does not hold of ["Assets"], and
    [display_account] returns false. ["Holding"] has one sub-account, whose
    total equals its own; no sub-account is nominated and
    [display_account] returns true. *)
Lemma display_account_counterexample :
  map (fun c => total <$> data c) (accounts sample_assets) = [Some 10; Some 20]
  /\ total <$> data sample_assets = Some 30
  /\ map leaves_only (accounts sample_assets) = [true; true]
  /\ display_account 2 sample_assets (Some leaves_only) = false
  /\ map (fun c => total <$> data c) (accounts sample_holding) = [Some 10]
  /\ total <$> data sample_holding = Some 10
  /\ disp_subaccounts_p sample_holding None = (false, None)
  /\ display_account 2 sample_holding None = true.
Proof. repeat split. Qed.

(** ** The renderer *)

Section RendererProperties.

Variable ptr_op_t : Type.
Variable ELEMENT_ALIGN_LEFT : Z.
Variable scope_t : Type.

Lemma put_pad left w s :
  put left (if 0 <? w then w else 0) s = pad left w s.
Proof.
  unfold put, pad.
  destruct (Z.ltb_spec 0 w), (Z.ltb_spec (Z.of_nat (length s)) w); try lia.
  - replace (Z.to_nat (w - Z.of_nat (length s)))
      with (Z.to_nat w - length s)%nat by lia. reflexivity.
  - replace (Z.to_nat (w - Z.of_nat (length s))) with 0%nat by lia.
    cbn [replicate]. destruct left; [apply app_nil_r|reflexivity].
  - replace (Z.to_nat (0 - Z.of_nat (length s))) with 0%nat by lia.
    cbn [replicate]. destruct left; [apply app_nil_r|reflexivity].
Qed.

Lemma format_element_literal (e : element_t ptr_op_t) (scope : scope_t) :
  format_element ptr_op_t ELEMENT_ALIGN_LEFT scope_t e scope
  = if is_literal e then Returned (literal_text ELEMENT_ALIGN_LEFT e)
    else AssertionFailed.
Proof.
  unfold format_element, is_literal, literal_text, cut.
  destruct (type ptr_op_t e); try reflexivity.
  now rewrite put_pad.
Qed.

(** C2 (as amended): [format] is total on the templates made of literals
    only, whatever the context: it appends to the output, in order, the text
    of each literal padded to its min-width and cut to its max-width, and a
    literal with no width adds its characters as they are. Every other kind
    of directive reaches [assert(false)]: the cases that evaluate fields
    are compiled out. *)
Theorem format_literals_only (elements : list (element_t ptr_op_t))
    (out_str : text) (scope : scope_t) :
  format ptr_op_t ELEMENT_ALIGN_LEFT scope_t out_str elements scope
  = (if forallb is_literal elements
     then Returned
            (out_str ++ concat (map (literal_text ELEMENT_ALIGN_LEFT) elements))
     else AssertionFailed)
  /\ (forall e : element_t ptr_op_t,
        min_width _ e = 0 -> max_width _ e = 0 ->
        literal_text ELEMENT_ALIGN_LEFT e = chars _ e).
Proof.
  split.
  - revert out_str. induction elements as [|e els IH]; intros out_str.
    + cbn. now rewrite app_nil_r.
    + cbn [format forallb map concat]. rewrite format_element_literal.
      destruct (is_literal e); [|reflexivity].
      cbn [obind andb]. rewrite IH.
      destruct (forallb is_literal els); [|reflexivity].
      now rewrite app_assoc.
  - intros e Hmin Hmax. unfold literal_text, cut, pad.
    rewrite Hmin, Hmax. cbn [Z.ltb Z.compare andb].
    destruct (Z.ltb_spec (Z.of_nat (length (chars _ e))) 0); [lia|reflexivity].
Qed.

End RendererProperties.

(** C2 (counterexample): the template ["%P"] compiles to the payee
    directive, and rendering it fails the assertion of the [default]
    branch, whatever the context. *)
Lemma format_counterexample :
  parse_elements unit None 1 2 (txt "%Y/%m/%d") (txt "%P")
  = Returned [with_type unit PAYEE [] (new_element unit)]
  /\ format unit 1 unit []
       [with_type unit PAYEE [] (new_element unit)] tt
     = AssertionFailed.
Proof. split; reflexivity. Qed.

(** ** The transaction grouper *)

Lemma strstr_marker_None f : strstr_marker f = None -> no_marker f.
Proof.
  induction f as [|c f IH]; intros H before after E.
  - destruct before; discriminate.
  - cbn [strstr_marker] in H. destruct f as [|d rest].
    + destruct before as [|? [|? ?]]; discriminate.
    + destruct (Ascii.eqb c "%" && Ascii.eqb d "/") eqn:Ecd; [discriminate|].
      destruct (strstr_marker (d :: rest)) as [[? ?]|] eqn:Er; [discriminate|].
      destruct before as [|x before].
      * cbn in E. injection E as -> -> _. discriminate.
      * cbn in E. injection E as _ E. exact (IH eq_refl _ _ E).
Qed.

Lemma strstr_marker_Some f before after :
  strstr_marker f = Some (before, after) ->
  f = before ++ marker ++ after /\ no_marker (before ++ ["%"%char]).
Proof.
  revert before. induction f as [|c f IH]; intros before H; [discriminate|].
  cbn [strstr_marker] in H. destruct f as [|d rest]; [discriminate|].
  destruct (Ascii.eqb c "%" && Ascii.eqb d "/") eqn:Ecd.
  - injection H as <- <-. apply andb_true_iff in Ecd as [Ec Ed].
    apply Ascii.eqb_eq in Ec, Ed. subst. split; [reflexivity|].
    intros b a E. destruct b as [|? [|? ?]]; discriminate.
  - destruct (strstr_marker (d :: rest)) as [[b' a']|] eqn:Er; [|discriminate].
    injection H as <- <-. destruct (IH _ eq_refl) as [E Hno].
    split; [cbn [app]; now rewrite E|].
    intros b a E'. destruct b as [|x b].
    + cbn in E'. injection E' as -> E'.
      destruct b' as [|y b']; [discriminate|].
      cbn in E'. injection E' as -> _. cbn in E. injection E as -> _.
      discriminate.
    + cbn in E'. injection E' as _ E'. exact (Hno _ _ E').
Qed.

Lemma no_marker_tail c f : no_marker (c :: f) -> no_marker f.
Proof.
  intros H before after E. apply (H (c :: before) after). cbn. now rewrite E.
Qed.

Lemma strstr_marker_first before after :
  no_marker (before ++ ["%"%char]) ->
  strstr_marker (before ++ marker ++ after) = Some (before, after).
Proof.
  induction before as [|c b IH]; intros Hno; [reflexivity|].
  assert (IH' := IH (no_marker_tail _ _ Hno)).
  cbn [app strstr_marker].
  destruct (b ++ marker ++ after) as [|d rest] eqn:E.
  - destruct b; discriminate.
  - destruct (Ascii.eqb c "%" && Ascii.eqb d "/") eqn:Ecd.
    + exfalso. apply andb_true_iff in Ecd as [Ec Ed].
      apply Ascii.eqb_eq in Ec, Ed. subst c d.
      destruct b as [|d b]; [discriminate|].
      injection E as -> _. now apply (Hno [] (b ++ ["%"%char])).
    + now rewrite IH'.
Qed.

Section GrouperProperties.

Variable ptr_op_t : Type.
Variable parser : option (text -> exception + ptr_op_t).
Variables ELEMENT_ALIGN_LEFT ELEMENT_HIGHLIGHT : Z.
Variable output_time_format : text.

#[local] Abbreviation reset' :=
  (reset ptr_op_t parser ELEMENT_ALIGN_LEFT ELEMENT_HIGHLIGHT
     output_time_format).

#[local] Abbreviation grouper := (new_grouper ptr_op_t).

(** C7 (as amended): the constructor of the transaction grouper splits its
    template at the first occurrence of the marker ["%/"] into the
    first-line sub-template, the text before the marker, and the
    continuation sub-template, the text after it; without a marker both are
    the full template. The function called for each transaction is compiled
    out: it renders nothing, does not mark the transaction displayed and
    leaves the last-seen entry and transaction as they were. *)
Theorem format_transactions_split (out fmt : text) :
  (no_marker (c_chars fmt) ->
   format_transactions_new ptr_op_t parser ELEMENT_ALIGN_LEFT
     ELEMENT_HIGHLIGHT output_time_format out fmt
   = (first <-- reset' fmt ;; next <-- reset' fmt ;;
      Returned (grouper out first next)))
  /\ (forall before after,
        c_chars fmt = before ++ marker ++ after ->
        no_marker (before ++ ["%"%char]) ->
        format_transactions_new ptr_op_t parser ELEMENT_ALIGN_LEFT
          ELEMENT_HIGHLIGHT output_time_format out fmt
        = (first <-- reset' before ;; next <-- reset' after ;;
           Returned (grouper out first next)))
  /\ (forall (self : format_transactions ptr_op_t) (xact : transaction_t),
        format_transactions_call ptr_op_t self xact = (self, xact)).
Proof.
  split; [|split].
  - intros Hno. unfold format_transactions_new.
    destruct (strstr_marker (c_chars fmt)) as [[b a]|] eqn:E.
    + apply strstr_marker_Some in E as [E _]. now destruct (Hno b a).
    + destruct (reset' fmt); reflexivity.
  - intros before after E Hno. unfold format_transactions_new.
    rewrite E, (strstr_marker_first _ _ Hno).
    destruct (reset' before) as [first| | | |]; try reflexivity.
    cbn [obind]. destruct (reset' after); reflexivity.
  - reflexivity.
Qed.

End GrouperProperties.

(** C7 (counterexample): the grouper built from ["first%/next"] has the
    literal ["first"] as its first-line sub-template, which renders as
    ["first"]; called with a transaction that is not marked displayed, it
    writes nothing, leaves the transaction unmarked and remembers neither
    the entry nor the transaction. *)
Lemma format_transactions_counterexample :
  exists g,
    format_transactions_new unit None 1 2 (txt "%Y/%m/%d") [] (txt "first%/next")
    = Returned g
    /\ format unit 1 unit [] (elements unit (first_line_format unit g)) tt
       = Returned (txt "first")
    /\ format_transactions_call unit g sample_xact = (g, sample_xact)
    /\ output_stream unit g = []
    /\ last_entry unit g = None
    /\ last_xact unit g = None
    /\ xact_dflags sample_xact = 0.
Proof. eexists. repeat split. Qed.

(** ** The compiler *)

Lemma digit_value_range c : is_digit c = true -> 0 <= digit_value c <= 9.
Proof.
  unfold is_digit, digit_value. rewrite andb_true_iff.
  intros [H1 H2]. apply Nat.leb_le in H1, H2. lia.
Qed.

Lemma is_digit_not_nul c : is_digit c = true -> is_nul c = false.
Proof.
  intros H. destruct (is_nul c) eqn:E; [|reflexivity].
  apply Ascii.eqb_eq in E. subst. discriminate.
Qed.

Lemma is_digit_not_flag c : is_digit c = true -> is_flag c = false.
Proof.
  intros H. unfold is_flag. destruct (Ascii.eqb_spec c "-") as [->|];
    [discriminate|]. destruct (Ascii.eqb_spec c "!") as [->|];
    [discriminate|reflexivity].
Qed.

Lemma is_flag_not_nul c : is_flag c = true -> is_nul c = false.
Proof.
  intros H. destruct (is_nul c) eqn:E; [|reflexivity].
  apply Ascii.eqb_eq in E. subst. discriminate.
Qed.

Lemma decimal_from_ge ds : forall n,
  forallb is_digit ds = true -> 0 <= n -> n <= decimal_from n ds.
Proof.
  induction ds as [|c ds IH]; intros n Hds Hn; [cbn; lia|].
  cbn in Hds. apply andb_true_iff in Hds as [Hc Hds].
  pose proof (digit_value_range c Hc).
  change (decimal_from n (c :: ds))
    with (decimal_from (n * 10 + digit_value c) ds).
  specialize (IH (n * 10 + digit_value c) Hds). lia.
Qed.

Lemma parse_number_run ds : forall n rest,
  forallb is_digit ds = true -> stops is_digit rest ->
  0 <= n -> decimal_from n ds <= INT_MAX ->
  parse_number (ds ++ rest) n = Returned (decimal_from n ds, rest).
Proof.
  induction ds as [|c ds IH]; intros n rest Hds Hrest Hn Hmax.
  - cbn [app decimal_from fold_left]. destruct rest as [|c rest]; [reflexivity|].
    cbn in Hrest. cbn [parse_number]. now rewrite Hrest.
  - cbn in Hds. apply andb_true_iff in Hds as [Hc Hds].
    pose proof (digit_value_range c Hc).
    change (decimal_from n (c :: ds))
      with (decimal_from (n * 10 + digit_value c) ds) in *.
    cbn [app parse_number]. rewrite Hc.
    pose proof (decimal_from_ge ds (n * 10 + digit_value c) Hds ltac:(lia)).
    destruct (Z.ltb_spec INT_MAX (n * 10 + digit_value c)); [lia|].
    apply IH; (assumption || lia).
Qed.

Lemma parse_flags_run al hl fl : forall f0 rest,
  forallb is_flag fl = true -> stops is_flag rest ->
  parse_flags al hl (fl ++ rest) f0
  = (fold_left (fun f c => if Ascii.eqb c "-"%char then Z.lor f al
                           else Z.lor f hl) fl f0, rest).
Proof.
  induction fl as [|c fl IH]; intros f0 rest Hfl Hrest.
  - cbn [app fold_left]. destruct rest as [|c rest]; [reflexivity|].
    cbn in Hrest. unfold is_flag in Hrest. apply orb_false_iff in Hrest as [H1 H2].
    cbn [parse_flags]. now rewrite H1, H2.
  - cbn in Hfl. apply andb_true_iff in Hfl as [Hc Hfl].
    cbn [app parse_flags fold_left].
    destruct (Ascii.eqb c "-") eqn:E1; [now apply IH|].
    unfold is_flag in Hc. rewrite E1 in Hc. cbn in Hc. rewrite Hc.
    now apply IH.
Qed.

Lemma field_kind_selector c k :
  field_kind c = Some k ->
  Ascii.eqb c "%" = false /\ Ascii.eqb c "(" = false /\ Ascii.eqb c "[" = false
  /\ Ascii.eqb c "x" = false /\ Ascii.eqb c "d" = false
  /\ Ascii.eqb c "D" = false /\ is_nul c = false /\ is_digit c = false
  /\ is_flag c = false /\ Ascii.eqb c dot = false.
Proof.
  destruct c as [[] [] [] [] [] [] [] []]; cbn; intros H;
    try discriminate H; repeat split.
Qed.

Lemma no_nul_forallb (f : ascii -> bool) s :
  (forall c, f c = true -> is_nul c = false) ->
  forallb f s = true -> no_nul s = true.
Proof.
  intros Hf. induction s as [|c s IH]; [reflexivity|].
  cbn. rewrite !andb_true_iff. intros [Hc Hs]. split; [|now apply IH].
  now rewrite (Hf c Hc).
Qed.


Lemma rest_of_refl p : rest_of p p.
Proof. now exists []. Qed.

Lemma rest_of_cons c q p : rest_of q p -> rest_of q (c :: p).
Proof. intros [r ->]. now exists (c :: r). Qed.

Lemma rest_of_trans q p r : rest_of q p -> rest_of p r -> rest_of q r.
Proof. intros [a ->] [b ->]. exists (b ++ a). now rewrite app_assoc. Qed.

Lemma rest_of_length q p : rest_of q p -> (length q <= length p)%nat.
Proof. intros [r ->]. rewrite length_app. lia. Qed.

Lemma unclosed_rest_of o c q p : rest_of q p -> unclosed o c q -> unclosed o c p.
Proof.
  intros [r ->] (before & body & -> & H).
  exists (r ++ before), body. split; [now rewrite app_assoc|assumption].
Qed.

Lemma parse_flags_rest al hl p : forall f0,
  rest_of (snd (parse_flags al hl p f0)) p.
Proof.
  induction p as [|c p IH]; intros f0; [apply rest_of_refl|].
  cbn [parse_flags].
  destruct (Ascii.eqb c "-"); [apply rest_of_cons, IH|].
  destruct (Ascii.eqb c "!"); [apply rest_of_cons, IH|apply rest_of_refl].
Qed.

Lemma parse_number_rest p : forall n,
  match parse_number p n with
  | Returned (_, q) => rest_of q p
  | Undefined => True
  | _ => False
  end.
Proof.
  induction p as [|c p IH]; intros n; [apply rest_of_refl|].
  cbn [parse_number]. destruct (is_digit c); [|apply rest_of_refl].
  destruct (INT_MAX <? n * 10 + digit_value c); [exact I|].
  specialize (IH (n * 10 + digit_value c)).
  destruct (parse_number p _) as [[m q]| | | |]; try assumption.
  now apply rest_of_cons.
Qed.

Lemma parse_number_value ds : forall n rest m q,
  forallb is_digit ds = true -> stops is_digit rest ->
  parse_number (ds ++ rest) n = Returned (m, q) ->
  m = decimal_from n ds /\ q = rest.
Proof.
  induction ds as [|c ds IH]; intros n rest m q Hds Hrest H.
  - cbn [app] in H. destruct rest as [|c rest].
    + now injection H as <- <-.
    + cbn in Hrest. cbn [parse_number] in H. rewrite Hrest in H.
      now injection H as <- <-.
  - cbn in Hds. apply andb_true_iff in Hds as [Hc Hds].
    cbn [app parse_number] in H. rewrite Hc in H.
    destruct (INT_MAX <? n * 10 + digit_value c); [discriminate|].
    exact (IH _ _ _ _ Hds Hrest H).
Qed.

Lemma scan_closing_split o c p : forall d,
  p = fst (scan_closing o c p d) ++ snd (scan_closing o c p d).
Proof.
  induction p as [|x p IH]; intros d; [reflexivity|].
  cbn [scan_closing]. destruct (is_nul x); [reflexivity|].
  destruct (Ascii.eqb x c).
  - destruct (d - 1 =? 0); [reflexivity|].
    specialize (IH (d - 1)). destruct (scan_closing o c p (d - 1)).
    cbn in *. now rewrite <- IH.
  - destruct (Ascii.eqb x o).
    + specialize (IH (d + 1)). destruct (scan_closing o c p (d + 1)).
      cbn in *. now rewrite <- IH.
    + specialize (IH d). destruct (scan_closing o c p d).
      cbn in *. now rewrite <- IH.
Qed.

Lemma scan_closing_rest o c p d inner q :
  scan_closing o c p d = (inner, q) -> rest_of q p.
Proof.
  intros H. exists inner. pose proof (scan_closing_split o c p d) as E.
  now rewrite H in E.
Qed.

(** Where the scan stops at the closing delimiter, the text scanned over
    has no NUL and its delimiters are paired. *)
Lemma scan_closing_closed o c body : forall d inner k rest,
  is_nul c = false ->
  scan_closing o c body (1 + Z.of_nat d) = (inner, k :: rest) ->
  Ascii.eqb k c = true ->
  body = inner ++ c :: rest
  /\ no_nul inner = true /\ balanced o c inner d = true.
Proof.
  induction body as [|x body IH]; intros d inner k rest Hc H Hk;
    [discriminate|].
  cbn [scan_closing] in H. destruct (is_nul x) eqn:Ex.
  { injection H as <- <- <-. apply Ascii.eqb_eq in Hk. congruence. }
  destruct (Ascii.eqb x c) eqn:Exc.
  - destruct (Z.eqb_spec (1 + Z.of_nat d - 1) 0) as [Ed|Ed].
    + injection H as <- <- <-. apply Ascii.eqb_eq in Exc. subst x.
      repeat split. destruct d; [reflexivity|lia].
    + destruct d as [|d]; [lia|].
      replace (1 + Z.of_nat (S d) - 1) with (1 + Z.of_nat d) in H by lia.
      destruct (scan_closing o c body (1 + Z.of_nat d)) as [i r] eqn:E.
      injection H as <- ->.
      destruct (IH d i k rest Hc E Hk) as (-> & Hi & Hb).
      repeat split.
      * rewrite no_nul_cons. now rewrite Ex.
      * cbn [balanced]. now rewrite Exc.
  - destruct (Ascii.eqb x o) eqn:Exo.
    + replace (1 + Z.of_nat d + 1) with (1 + Z.of_nat (S d)) in H by lia.
      destruct (scan_closing o c body (1 + Z.of_nat (S d))) as [i r] eqn:E.
      injection H as <- ->.
      destruct (IH (S d) i k rest Hc E Hk) as (-> & Hi & Hb).
      repeat split.
      * rewrite no_nul_cons. now rewrite Ex.
      * cbn [balanced]. now rewrite Exc, Exo.
    + destruct (scan_closing o c body (1 + Z.of_nat d)) as [i r] eqn:E.
      injection H as <- ->.
      destruct (IH d i k rest Hc E Hk) as (-> & Hi & Hb).
      repeat split.
      * rewrite no_nul_cons. now rewrite Ex.
      * cbn [balanced]. now rewrite Exc, Exo.
Qed.

(** Where the scan stops anywhere else, no closing delimiter of the text
    comes after a text without NUL whose delimiters are paired. *)
Lemma scan_closing_open o c body : forall d inner q,
  is_nul c = false ->
  scan_closing o c body (1 + Z.of_nat d) = (inner, q) ->
  stops (fun k => Ascii.eqb k c) q ->
  forall inner' rest',
    body = inner' ++ c :: rest' -> no_nul inner' = true ->
    balanced o c inner' d = false.
Proof.
  induction body as [|x body IH]; intros d inner q Hc H Hq inner' rest' E Hn.
  { destruct inner'; discriminate. }
  cbn [scan_closing] in H. destruct (is_nul x) eqn:Ex.
  { destruct inner' as [|y inner'].
    - cbn in E. injection E as -> _. congruence.
    - cbn in E. injection E as <- _. rewrite no_nul_cons in Hn.
      destruct Hn as [Hn _]. congruence. }
  destruct (Ascii.eqb x c) eqn:Exc.
  - destruct (Z.eqb_spec (1 + Z.of_nat d - 1) 0) as [Ed|Ed].
    + injection H as <- <-. cbn in Hq. congruence.
    + destruct d as [|d]; [lia|].
      replace (1 + Z.of_nat (S d) - 1) with (1 + Z.of_nat d) in H by lia.
      destruct (scan_closing o c body (1 + Z.of_nat d)) as [i r] eqn:Es.
      injection H as <- <-.
      destruct inner' as [|y inner']; [reflexivity|].
      cbn in E. injection E as <- E. rewrite no_nul_cons in Hn.
      cbn [balanced]. rewrite Exc.
      exact (IH d i r Hc Es Hq inner' rest' E (proj2 Hn)).
  - destruct inner' as [|y inner'].
    { cbn in E. injection E as -> _. now rewrite Ascii.eqb_refl in Exc. }
    cbn in E. injection E as <- E. rewrite no_nul_cons in Hn.
    cbn [balanced]. rewrite Exc.
    destruct (Ascii.eqb x o) eqn:Exo.
    + replace (1 + Z.of_nat d + 1) with (1 + Z.of_nat (S d)) in H by lia.
      destruct (scan_closing o c body (1 + Z.of_nat (S d))) as [i r] eqn:Es.
      injection H as <- <-.
      exact (IH (S d) i r Hc Es Hq inner' rest' E (proj2 Hn)).
    + destruct (scan_closing o c body (1 + Z.of_nat d)) as [i r] eqn:Es.
      injection H as <- <-.
      exact (IH d i r Hc Es Hq inner' rest' E (proj2 Hn)).
Qed.

(** The scan entered after an opening delimiter stops at the closing one
    exactly when something closes the delimiter. *)
Lemma unmatched_scan o c body inner q :
  is_nul c = false -> scan_closing o c body 1 = (inner, q) ->
  unmatched o c body <-> stops (fun k => Ascii.eqb k c) q.
Proof.
  intros Hc H. change 1 with (1 + Z.of_nat 0) in H. split.
  - intros Hu. destruct q as [|k rest]; [exact I|]. cbn.
    destruct (Ascii.eqb k c) eqn:Ek; [|reflexivity].
    destruct (scan_closing_closed o c body 0 inner k rest Hc H Ek)
      as (E & Hn & Hb).
    now rewrite (Hu inner rest E Hn) in Hb.
  - intros Hq inner' rest'. now apply (scan_closing_open o c body 0 inner q).
Qed.

Lemma unmatched_no_closing o c body :
  forallb (fun x => negb (Ascii.eqb x c)) body = true -> unmatched o c body.
Proof.
  intros H inner rest -> _. rewrite forallb_app in H.
  apply andb_true_iff in H as [_ H]. cbn in H.
  now rewrite Ascii.eqb_refl in H.
Qed.

Section CompilerProperties.

Variable ptr_op_t : Type.
Variable parser : option (text -> exception + ptr_op_t).
Variables ELEMENT_ALIGN_LEFT ELEMENT_HIGHLIGHT : Z.
Variable output_time_format : text.

#[local] Abbreviation parse_loop' :=
  (parse_loop ptr_op_t parser ELEMENT_ALIGN_LEFT ELEMENT_HIGHLIGHT
     output_time_format).

#[local] Abbreviation parse_elements' :=
  (parse_elements ptr_op_t parser ELEMENT_ALIGN_LEFT ELEMENT_HIGHLIGHT
     output_time_format).

#[local] Abbreviation parse_widths' :=
  (parse_widths ptr_op_t ELEMENT_ALIGN_LEFT ELEMENT_HIGHLIGHT).

#[local] Abbreviation parse_selector' :=
  (parse_selector ptr_op_t parser output_time_format).

#[local] Abbreviation flag_bits' :=
  (flag_bits ELEMENT_ALIGN_LEFT ELEMENT_HIGHLIGHT).

(** One turn of the loop. *)
Lemma parse_loop_unfold fuel p lit :
  parse_loop' (S fuel) p lit
  = match p with
    | [] => Returned (flush ptr_op_t lit)
    | c :: p' =>
        if is_nul c then Returned (flush ptr_op_t lit)
        else if negb (Ascii.eqb c "%"%char || Ascii.eqb c "\"%char) then
          if (1024 <=? length lit)%nat then Undefined
          else parse_loop' fuel p' (lit ++ [c])
        else if Ascii.eqb c "\"%char then
          match p' with
          | [] => Undefined
          | k :: rest =>
              els <-- parse_loop' fuel rest [] ;;
              Returned (flush ptr_op_t lit
                          ++ with_type ptr_op_t STRING (escape_chars k)
                               (new_element ptr_op_t)
                          :: els)
          end
        else
          r <-- parse_widths' p' ;;
          let '(e, p) := r in
          r <-- parse_selector' e p ;;
          match r with
          | (e, None) => Returned (flush ptr_op_t lit ++ [e])
          | (e, Some rest) =>
              els <-- parse_loop' fuel rest [] ;;
              Returned (flush ptr_op_t lit ++ e :: els)
          end
    end.
Proof. reflexivity. Qed.

(** The turn that starts a directive. *)
Lemma percent_step fuel p lit :
  parse_loop' (S fuel) ("%"%char :: p) lit
  = (r <-- parse_widths' p ;;
     let '(e, p) := r in
     r <-- parse_selector' e p ;;
     match r with
     | (e, None) => Returned (flush ptr_op_t lit ++ [e])
     | (e, Some rest) =>
         els <-- parse_loop' fuel rest [] ;;
         Returned (flush ptr_op_t lit ++ e :: els)
     end).
Proof. reflexivity. Qed.

Lemma parse_widths_run fl ms ds rest :
  forallb is_flag fl = true -> forallb is_digit ms = true ->
  forallb is_digit ds = true -> stops is_digit rest ->
  decimal ms <= INT_MAX -> decimal ds <= INT_MAX ->
  parse_widths' (fl ++ ms ++ dot :: ds ++ rest)
  = Returned
      (field_element ptr_op_t STRING (flag_bits' fl)
         (if decimal ms =? 0 then decimal ds else decimal ms) (decimal ds),
       rest).
Proof.
  intros Hfl Hms Hds Hrest Hm Hd. unfold parse_widths.
  rewrite parse_flags_run; [|assumption|].
  2:{ destruct ms as [|m ms]; [reflexivity|].
      cbn in Hms. apply andb_true_iff in Hms as [Hm0 _].
      now apply is_digit_not_flag. }
  rewrite parse_number_run; [|assumption|reflexivity|lia|assumption].
  cbn [obind]. replace (Ascii.eqb dot dot) with true by reflexivity.
  rewrite parse_number_run; [|assumption|assumption|lia|assumption].
  reflexivity.
Qed.

(** The flags and widths of a directive, whenever they are read without
    overflow. *)
Lemma parse_widths_value fl ms ds rest e q :
  forallb is_flag fl = true -> forallb is_digit ms = true ->
  forallb is_digit ds = true -> stops is_digit rest ->
  parse_widths' (fl ++ ms ++ dot :: ds ++ rest) = Returned (e, q) ->
  e = field_element ptr_op_t STRING (flag_bits' fl)
        (if decimal ms =? 0 then decimal ds else decimal ms) (decimal ds)
  /\ q = rest.
Proof.
  intros Hfl Hms Hds Hrest. unfold parse_widths.
  rewrite parse_flags_run; [|assumption|].
  2:{ destruct ms as [|m ms]; [reflexivity|].
      cbn in Hms. apply andb_true_iff in Hms as [Hm0 _].
      now apply is_digit_not_flag. }
  destruct (parse_number (ms ++ dot :: ds ++ rest) 0) as [[m p]| | | |] eqn:E1;
    try discriminate.
  destruct (parse_number_value ms 0 (dot :: ds ++ rest) m p Hms eq_refl E1)
    as [-> ->].
  cbn [obind]. replace (Ascii.eqb dot dot) with true by reflexivity.
  destruct (parse_number (ds ++ rest) 0) as [[x p]| | | |] eqn:E2;
    try discriminate.
  destruct (parse_number_value ds 0 rest x p Hds Hrest E2) as [-> ->].
  cbn [obind]. intros [= <- <-]. now split.
Qed.

(** The [switch] on the selector leaves the flags and the widths of the
    element as they are. *)
Lemma parse_selector_widths (e e' : element_t ptr_op_t) p o :
  parse_selector' e p = Returned (e', o) ->
  flags _ e' = flags _ e /\ min_width _ e' = min_width _ e
  /\ max_width _ e' = max_width _ e.
Proof.
  unfold parse_selector. destruct p as [|c p']; [discriminate|].
  destruct (Ascii.eqb c "%"); [now intros [= <- <-]|].
  destruct (Ascii.eqb c "(").
  { destruct (scan_closing "(" ")" p' 1) as [inner [|k rest]];
      [discriminate|].
    destruct (negb (Ascii.eqb k ")")); [discriminate|].
    destruct (expr_parse ptr_op_t parser inner); try discriminate.
    now intros [= <- <-]. }
  destruct (Ascii.eqb c "[").
  { destruct (scan_closing "[" "]" p' 1) as [inner [|k rest]];
      [discriminate|].
    destruct (negb (Ascii.eqb k "]")); [discriminate|].
    now intros [= <- <-]. }
  destruct (Ascii.eqb c "x").
  { destruct p' as [|k rest]; [now intros [= <- <-]|].
    destruct (is_nul k); [now intros [= <- <-]|].
    destruct (xact_field_kind k); now intros [= <- <-]. }
  destruct (Ascii.eqb c "d"); [now intros [= <- <-]|].
  destruct (Ascii.eqb c "D"); [now intros [= <- <-]|].
  destruct (field_kind c); now intros [= <- <-].
Qed.

Lemma parse_selector_field (e : element_t ptr_op_t) c k rest :
  field_kind c = Some k ->
  parse_selector' e (c :: rest)
  = Returned (with_type ptr_op_t k (chars _ e) e, Some rest).
Proof.
  intros Hk. destruct (field_kind_selector c k Hk)
    as (H1 & H2 & H3 & H4 & H5 & H6 & _).
  unfold parse_selector. now rewrite H1, H2, H3, H4, H5, H6, Hk.
Qed.

Lemma parse_loop_field fuel fl ms ds c k rest lit :
  forallb is_flag fl = true -> forallb is_digit ms = true ->
  forallb is_digit ds = true ->
  decimal ms <= INT_MAX -> decimal ds <= INT_MAX ->
  field_kind c = Some k ->
  parse_loop' (S fuel) ("%"%char :: fl ++ ms ++ dot :: ds ++ c :: rest) lit
  = (els <-- parse_loop' fuel rest [] ;;
     Returned
       (flush ptr_op_t lit
          ++ field_element ptr_op_t k (flag_bits' fl)
               (if decimal ms =? 0 then decimal ds else decimal ms)
               (decimal ds)
          :: els)).
Proof.
  intros Hfl Hms Hds Hm Hd Hk.
  destruct (field_kind_selector c k Hk) as (_ & _ & _ & _ & _ & _ & _ & Hc & _).
  rewrite percent_step.
  rewrite parse_widths_run by assumption. cbn [obind].
  rewrite (parse_selector_field _ _ _ _ Hk). reflexivity.
Qed.

Lemma parse_loop_literal l : forall fuel rest lit,
  forallb is_plain l = true -> (length lit + length l <= 1024)%nat ->
  parse_loop' (length l + fuel) (l ++ rest) lit
  = parse_loop' fuel rest (lit ++ l).
Proof.
  induction l as [|c l IH]; intros fuel rest lit Hl Hlen.
  - now rewrite app_nil_r.
  - cbn in Hl. apply andb_true_iff in Hl as [Hc Hl].
    unfold is_plain in Hc. apply andb_true_iff in Hc as [Hc Hn].
    apply negb_true_iff in Hn.
    cbn [length app Nat.add]. rewrite parse_loop_unfold, Hn, Hc.
    cbn [length] in Hlen.
    destruct (Nat.leb_spec 1024 (length lit)); [lia|].
    rewrite IH; [|assumption|rewrite length_app; cbn [length]; lia].
    now rewrite <- app_assoc.
Qed.

(** [parse_elements] on a literal followed by something else. *)
Lemma parse_elements_after_literal lit p :
  forallb is_plain lit = true -> (length lit <= 1024)%nat ->
  parse_elements' (lit ++ p) = parse_loop' (S (length p)) p lit.
Proof.
  intros Hlit Hlen. unfold parse_elements. rewrite length_app.
  replace (S (length lit + length p)) with (length lit + S (length p))%nat
    by lia.
  now rewrite parse_loop_literal by (assumption || (cbn; lia)).
Qed.

(** C6 (as amended): whatever its selector, a directive that gives a
    max-width after a dot compiles, when it compiles, to an element with
    that max-width, and with a min-width that is the max-width when no
    min-width is written, the min-width as written when it is written and
    is not zero, and the max-width again when it is written as zero, which
    is taken as not given. This holds wherever the directive stands in the
    template; for the directive of a report field, and widths that fit an
    [int], the compilation returns. *)
Theorem parse_elements_min_width fl ms ds rest :
  forallb is_flag fl = true -> forallb is_digit ms = true ->
  forallb is_digit ds = true -> stops is_digit rest ->
  (forall fuel lit els,
     parse_loop' (S fuel) ("%"%char :: fl ++ ms ++ dot :: ds ++ rest) lit
     = Returned els ->
     exists e tail,
       els = flush ptr_op_t lit ++ e :: tail
       /\ flags _ e = flag_bits' fl
       /\ max_width _ e = decimal ds
       /\ (ms = [] -> min_width _ e = decimal ds)
       /\ (decimal ms <> 0 -> min_width _ e = decimal ms)
       /\ (decimal ms = 0 -> min_width _ e = decimal ds))
  /\ (forall lit els,
        forallb is_plain lit = true -> (length lit <= 1024)%nat ->
        parse_elements' (lit ++ "%"%char :: fl ++ ms ++ dot :: ds ++ rest)
        = Returned els ->
        exists e tail,
          els = flush ptr_op_t lit ++ e :: tail
          /\ flags _ e = flag_bits' fl
          /\ max_width _ e = decimal ds
          /\ (ms = [] -> min_width _ e = decimal ds)
          /\ (decimal ms <> 0 -> min_width _ e = decimal ms)
          /\ (decimal ms = 0 -> min_width _ e = decimal ds))
  /\ (forall c k,
        field_kind c = Some k ->
        decimal ms <= INT_MAX -> decimal ds <= INT_MAX ->
        parse_elements' ("%"%char :: fl ++ ms ++ dot :: ds ++ [c])
        = Returned
            [field_element ptr_op_t k (flag_bits' fl)
               (if decimal ms =? 0 then decimal ds else decimal ms)
               (decimal ds)]).
Proof.
  intros Hfl Hms Hds Hrest.
  assert (Hloop : forall fuel lit els,
     parse_loop' (S fuel) ("%"%char :: fl ++ ms ++ dot :: ds ++ rest) lit
     = Returned els ->
     exists e tail,
       els = flush ptr_op_t lit ++ e :: tail
       /\ flags _ e = flag_bits' fl
       /\ max_width _ e = decimal ds
       /\ (ms = [] -> min_width _ e = decimal ds)
       /\ (decimal ms <> 0 -> min_width _ e = decimal ms)
       /\ (decimal ms = 0 -> min_width _ e = decimal ds)).
  { intros fuel lit els. rewrite percent_step.
    destruct (parse_widths' (fl ++ ms ++ dot :: ds ++ rest))
      as [[e q]| | | |] eqn:Ew; try discriminate.
    destruct (parse_widths_value _ _ _ _ _ _ Hfl Hms Hds Hrest Ew) as [He ->].
    cbn [obind].
    destruct (parse_selector' e rest) as [[e' o]| | | |] eqn:Es;
      try discriminate.
    destruct (parse_selector_widths _ _ _ _ Es) as (Hf & Hmin & Hmax).
    cbn [obind]. intros Hels.
    assert (Hwidths : flags _ e' = flag_bits' fl
              /\ max_width _ e' = decimal ds
              /\ (ms = [] -> min_width _ e' = decimal ds)
              /\ (decimal ms <> 0 -> min_width _ e' = decimal ms)
              /\ (decimal ms = 0 -> min_width _ e' = decimal ds)).
    { rewrite Hf, Hmin, Hmax, He. cbn [flags min_width max_width field_element].
      repeat split.
      - now intros ->.
      - intros Hne. now destruct (Z.eqb_spec (decimal ms) 0).
      - now intros ->. }
    destruct o as [next|].
    - destruct (parse_loop' fuel next []) as [tail| | | |];
        try discriminate Hels.
      cbn [obind] in Hels. injection Hels as <-. now exists e', tail.
    - injection Hels as <-. now exists e', []. }
  split; [exact Hloop|split].
  - intros lit els Hlit Hlen.
    rewrite parse_elements_after_literal by assumption. apply Hloop.
  - intros c k Hk Hm Hd.
    destruct (field_kind_selector c k Hk)
      as (_ & _ & _ & _ & _ & _ & _ & Hc & _).
    unfold parse_elements.
    now rewrite (parse_loop_field _ fl ms ds c k [] []).
Qed.

(** *** The exceptions of [parse_elements] *)

#[local] Abbreviation thrown := (thrown_on ptr_op_t parser).
#[local] Abbreviation regular := (regular_on ptr_op_t parser).

Lemma thrown_rest_of q p e : rest_of q p -> thrown q e -> thrown p e.
Proof.
  intros Hq [[-> H]|[[-> H]|H]].
  - left. split; [reflexivity|]. exact (unclosed_rest_of _ _ _ _ Hq H).
  - right; left. split; [reflexivity|]. exact (unclosed_rest_of _ _ _ _ Hq H).
  - right; right. exact H.
Qed.

Lemma parse_widths_rest p :
  match parse_widths' p with
  | Returned (_, q) => rest_of q p
  | Undefined => True
  | _ => False
  end.
Proof.
  unfold parse_widths.
  pose proof (parse_flags_rest ELEMENT_ALIGN_LEFT ELEMENT_HIGHLIGHT p 0) as Hf.
  destruct (parse_flags _ _ p 0) as [fl p1]. cbn [snd] in Hf.
  pose proof (parse_number_rest p1 0) as Hn.
  destruct (parse_number p1 0) as [[minw p2]| | | |]; try exact Hn.
  cbn [obind]. assert (H2 : rest_of p2 p) by exact (rest_of_trans _ _ _ Hn Hf).
  destruct p2 as [|c p3]; [exact H2|].
  destruct (Ascii.eqb c dot); [|exact H2].
  pose proof (parse_number_rest p3 0) as Hm.
  destruct (parse_number p3 0) as [[maxw p4]| | | |]; try exact Hm.
  cbn [obind]. apply (rest_of_trans _ p3); [exact Hm|].
  apply (rest_of_trans _ (c :: p3)); [|exact H2].
  apply rest_of_cons, rest_of_refl.
Qed.

Lemma parse_selector_regular (e : element_t ptr_op_t) p :
  match parse_selector' e p with
  | Returned (_, Some rest) =>
      rest_of rest p /\ (length rest < length p)%nat
  | Returned (_, None) | Undefined => True
  | Thrown ex => thrown p ex
  | AssertionFailed | OutOfFuel => False
  end.
Proof.
  assert (Htail : forall c p', rest_of p' (c :: p')
                               /\ (length p' < length (c :: p'))%nat).
  { intros c p'. split; [apply rest_of_cons, rest_of_refl|cbn; lia]. }
  assert (Hopen : forall o c p' inner q,
            is_nul c = false -> scan_closing o c p' 1 = (inner, q) ->
            stops (fun k => Ascii.eqb k c) q -> unclosed o c (o :: p')).
  { intros o c p' inner q Hc E Hq. exists [], p'. split; [reflexivity|].
    now apply (unmatched_scan o c p' inner q). }
  assert (Hafter : forall o c p' inner k rest,
            scan_closing o c p' 1 = (inner, k :: rest) ->
            rest_of rest (o :: p') /\ (length rest < length (o :: p'))%nat).
  { intros o c p' inner k rest E.
    pose proof (scan_closing_rest _ _ _ _ _ _ E) as Hq. split.
    - apply rest_of_cons. apply (rest_of_trans _ (k :: rest));
        [apply rest_of_cons, rest_of_refl|exact Hq].
    - apply rest_of_length in Hq. cbn in *. lia. }
  unfold parse_selector. destruct p as [|c p']; [exact I|].
  destruct (Ascii.eqb_spec c "%"); [apply Htail|].
  destruct (Ascii.eqb_spec c "(") as [->|_].
  { destruct (scan_closing "(" ")" p' 1) as [inner q] eqn:E.
    destruct q as [|k rest].
    - left. split; [reflexivity|]. now apply (Hopen "("%char ")"%char _ _ _ eq_refl E).
    - destruct (Ascii.eqb k ")") eqn:Ek; cbn [negb].
      + unfold expr_parse. destruct parser as [parse|].
        * destruct (parse inner) as [ex|op] eqn:Ep.
          -- right; right. exists inner. unfold expr_parse. now rewrite Ep.
          -- exact (Hafter _ _ _ _ _ _ E).
        * right; right. exists inner. reflexivity.
      + left. split; [reflexivity|]. now apply (Hopen "("%char ")"%char _ _ _ eq_refl E). }
  destruct (Ascii.eqb_spec c "[") as [->|_].
  { destruct (scan_closing "[" "]" p' 1) as [inner q] eqn:E.
    destruct q as [|k rest].
    - right; left. split; [reflexivity|].
      now apply (Hopen "["%char "]"%char _ _ _ eq_refl E).
    - destruct (Ascii.eqb k "]") eqn:Ek; cbn [negb].
      + exact (Hafter _ _ _ _ _ _ E).
      + right; left. split; [reflexivity|].
        now apply (Hopen "["%char "]"%char _ _ _ eq_refl E). }
  destruct (Ascii.eqb_spec c "x") as [->|_].
  { destruct p' as [|k rest]; [exact I|].
    destruct (is_nul k); [exact I|].
    assert (Hr : rest_of rest ("x"%char :: k :: rest)
                 /\ (length rest < length ("x"%char :: k :: rest))%nat).
    { split; [do 2 apply rest_of_cons; apply rest_of_refl|cbn; lia]. }
    destruct (xact_field_kind k); exact Hr. }
  destruct (Ascii.eqb c "d"); [apply Htail|].
  destruct (Ascii.eqb c "D"); [apply Htail|].
  destruct (field_kind c); apply Htail.
Qed.

Lemma regular_map {A B} p (m : outcome A) (f : A -> B) :
  regular p m -> regular p (a <-- m ;; Returned (f a)).
Proof. destruct m; exact (fun H => H). Qed.

Lemma regular_rest_of {A} q p (o : outcome A) :
  rest_of q p -> regular q o -> regular p o.
Proof.
  intros Hq. destruct o; try exact (fun H => H).
  apply thrown_rest_of, Hq.
Qed.

Lemma parse_loop_regular fuel : forall p lit,
  (length p < fuel)%nat -> regular p (parse_loop' fuel p lit).
Proof.
  induction fuel as [|fuel IH]; intros p lit Hlen; [lia|].
  rewrite parse_loop_unfold.
  destruct p as [|c p']; [exact I|]. cbn [length] in Hlen.
  destruct (is_nul c); [exact I|].
  destruct (negb (Ascii.eqb c "%" || Ascii.eqb c "\")).
  { destruct (1024 <=? length lit)%nat; [exact I|].
    apply (regular_rest_of p'); [apply rest_of_cons, rest_of_refl|].
    apply IH. lia. }
  destruct (Ascii.eqb c "\").
  { destruct p' as [|k rest]; [exact I|]. cbn [length] in Hlen.
    apply regular_map.
    apply (regular_rest_of rest);
      [do 2 apply rest_of_cons; apply rest_of_refl|].
    apply IH. lia. }
  pose proof (parse_widths_rest p') as Hw.
  destruct (parse_widths' p') as [[e q]| | | |];
    try (now destruct Hw).
  cbn [obind].
  pose proof (parse_selector_regular e q) as Hs.
  assert (Hq : rest_of q (c :: p')) by now apply rest_of_cons.
  destruct (parse_selector' e q) as [[e' [rest|]]| |ex| |];
    try (now destruct Hs); cbn [obind]; try exact I.
  - destruct Hs as [Hr Hl]. apply regular_map.
    apply (regular_rest_of rest); [exact (rest_of_trans _ _ _ Hr Hq)|].
    apply IH. apply rest_of_length in Hw. lia.
  - exact (thrown_rest_of _ _ _ Hq Hs).
Qed.

Lemma parse_widths_none c rest :
  is_flag c = false -> is_digit c = false -> Ascii.eqb c dot = false ->
  parse_widths' (c :: rest)
  = Returned (field_element ptr_op_t STRING 0 0 0, c :: rest).
Proof.
  intros Hf Hd Hdot. unfold is_flag in Hf.
  apply orb_false_iff in Hf as [H1 H2].
  unfold parse_widths. cbn [parse_flags]. rewrite H1, H2.
  cbn [parse_number]. rewrite Hd. cbn [obind]. now rewrite Hdot.
Qed.

Lemma parse_loop_unmatched fuel o c msg body lit :
  (o = "("%char /\ c = ")"%char /\ msg = missing_paren)
  \/ (o = "["%char /\ c = "]"%char /\ msg = missing_bracket) ->
  unmatched o c body ->
  parse_loop' (S fuel) ("%"%char :: o :: body) lit
  = Thrown (format_error msg).
Proof.
  intros Ho Hu. rewrite percent_step.
  destruct Ho as [(-> & -> & ->)|(-> & -> & ->)].
  - rewrite parse_widths_none by reflexivity. cbn [obind].
    unfold parse_selector.
    replace (Ascii.eqb "(" "%") with false by reflexivity.
    replace (Ascii.eqb "(" "(") with true by reflexivity.
    destruct (scan_closing "(" ")" body 1) as [inner q] eqn:E.
    apply (unmatched_scan "(" ")" _ _ _ eq_refl E) in Hu.
    destruct q as [|k rest]; [reflexivity|]. cbn in Hu. now rewrite Hu.
  - rewrite parse_widths_none by reflexivity. cbn [obind].
    unfold parse_selector.
    replace (Ascii.eqb "[" "%") with false by reflexivity.
    replace (Ascii.eqb "[" "(") with false by reflexivity.
    replace (Ascii.eqb "[" "[") with true by reflexivity.
    destruct (scan_closing "[" "]" body 1) as [inner q] eqn:E.
    apply (unmatched_scan "[" "]" _ _ _ eq_refl E) in Hu.
    destruct q as [|k rest]; [reflexivity|]. cbn in Hu. now rewrite Hu.
Qed.

Lemma parse_loop_subexpr fuel body inner rest lit :
  scan_closing "(" ")" body 1 = (inner, ")"%char :: rest) ->
  parse_loop' (S fuel) (txt "%(" ++ body) lit
  = (v <-- expr_parse ptr_op_t parser inner ;;
     els <-- parse_loop' fuel rest [] ;;
     Returned
       (flush ptr_op_t lit
          ++ with_expr ptr_op_t v (field_element ptr_op_t STRING 0 0 0)
          :: els)).
Proof.
  intros E. change (txt "%(" ++ body) with ("%"%char :: "("%char :: body).
  rewrite percent_step.
  rewrite parse_widths_none by reflexivity. cbn [obind].
  unfold parse_selector.
  replace (Ascii.eqb "(" "%") with false by reflexivity.
  replace (Ascii.eqb "(" "(") with true by reflexivity.
  rewrite E. replace (Ascii.eqb ")" ")") with true by reflexivity.
  cbn [negb]. now destruct (expr_parse ptr_op_t parser inner).
Qed.

Lemma parse_elements_unmatched o c msg lit body :
  (o = "("%char /\ c = ")"%char /\ msg = missing_paren)
  \/ (o = "["%char /\ c = "]"%char /\ msg = missing_bracket) ->
  forallb is_plain lit = true -> (length lit <= 1024)%nat ->
  unmatched o c body ->
  parse_elements' (lit ++ "%"%char :: o :: body)
  = Thrown (format_error msg).
Proof.
  intros Ho Hlit Hlen Hu.
  rewrite parse_elements_after_literal by assumption.
  now apply (parse_loop_unmatched _ o c).
Qed.


End CompilerProperties.

Lemma parse_elements_min_width_witness :
  (exists e tail,
     parse_elements unit None 1 2 (txt "%Y/%m/%d") (txt "%-.10D")
     = Returned (e :: tail)
     /\ type _ e = DATE_STRING
     /\ min_width _ e = 10 /\ max_width _ e = 10)
  /\ parse_elements unit None 1 2 (txt "%Y/%m/%d") (txt "%-.10A")
     = Returned [field_element unit ACCOUNT_FULLNAME 1 10 10].
Proof.
  destruct (parse_elements_min_width unit None 1 2 (txt "%Y/%m/%d")
              (txt "-") [] (txt "10") (txt "D"))
    as (_ & H2 & H3); [reflexivity|reflexivity|reflexivity|reflexivity|].
  split.
  - destruct (H2 [] [with_type unit DATE_STRING (txt "%Y/%m/%d")
                       (field_element unit STRING 1 10 10)])
      as (e & tail & Hels & _ & Hmax & Hmin & _);
      [reflexivity|cbn; lia|reflexivity|].
    exists e, tail. cbn [flush app] in Hels. injection Hels as <- <-.
    repeat split.
  - apply (H3 "A"%char ACCOUNT_FULLNAME); [reflexivity| |];
      vm_compute; discriminate.
Defined.

(** C6 (counterexample): in ["%0.10A"] the min-width is written, as 0, and
    is not kept: the directive compiles with the min-width 10. *)
Lemma parse_elements_min_width_counterexample :
  parse_elements unit None 1 2 (txt "%Y/%m/%d") (txt "%0.10A")
  = Returned [field_element unit ACCOUNT_FULLNAME 0 10 10]
  /\ decimal (txt "0") = 0.
Proof. split; reflexivity. Qed.


(** A template that ends inside a directive or after a backslash makes the
    loop step past the terminator of the string. *)
Example parse_elements_past_the_end :
  parse_elements unit None 1 2 (txt "%Y/%m/%d") (txt "100%") = Undefined
  /\ parse_elements unit None 1 2 (txt "%Y/%m/%d") (txt "%-10") = Undefined
  /\ parse_elements unit None 1 2 (txt "%Y/%m/%d") (txt "a\") = Undefined.
Proof. repeat split. Qed.

(** ["%-10.8A"] compiles, each time, to the full account name aligned to the
    left, with the min-width 10 and the max-width 8. *)
Example parse_elements_example :
  parse_elements unit None 1 2 (txt "%Y/%m/%d") (txt "%-10.8A")
  = Returned [field_element unit ACCOUNT_FULLNAME 1 10 8].
Proof. reflexivity. Qed.


(** * Further properties *)

(** ** [truncate]: every outcome *)


Lemma quiet_bind {A B} (m : outcome A) (k : A -> outcome B) :
  quiet m -> (forall a, quiet (k a)) -> quiet (obind m k).
Proof. destruct m; cbn; auto. Qed.

Lemma quiet_ptr_add p k : quiet (ptr_add p k).
Proof. unfold ptr_add. now destruct (_ && _). Qed.

Lemma quiet_poke i c b : quiet (poke i c b).
Proof. unfold poke. now destruct (_ && _). Qed.

Lemma quiet_store d cs b : quiet (store d cs b).
Proof. unfold store. now destruct (_ && _). Qed.

Lemma quiet_strncpy d p n b : quiet (strncpy d p n b).
Proof. unfold strncpy. destruct (_ && _); [apply quiet_store|exact I]. Qed.

Lemma quiet_string_of_buffer b : quiet (string_of_buffer b).
Proof.
  induction b as [|[c|] b IH]; cbn; try exact I.
  destruct (is_nul c); [exact I|]. now destruct (string_of_buffer b).
Qed.

Lemma quiet_truncate_leading p off w : quiet (truncate_leading p off w).
Proof.
  unfold truncate_leading.
  repeat (apply quiet_bind; [|intros ?]);
    auto using quiet_ptr_add, quiet_strncpy, quiet_poke.
Qed.

Lemma quiet_truncate_middle s len w : quiet (truncate_middle s len w).
Proof.
  unfold truncate_middle. cbv zeta.
  repeat (apply quiet_bind; [|intros ?]);
    auto using quiet_ptr_add, quiet_strncpy, quiet_poke.
Qed.

Lemma quiet_truncate_trailing s w : quiet (truncate_trailing s w).
Proof.
  unfold truncate_trailing.
  repeat (apply quiet_bind; [|intros ?]);
    auto using quiet_ptr_add, quiet_strncpy, quiet_poke.
Qed.

Lemma quiet_truncate_abbreviate cfg s len w :
  quiet (truncate_abbreviate cfg s len w).
Proof.
  unfold truncate_abbreviate. destruct (abbreviate_parts _ _ _ _) as [r n].
  destruct (w <? n); [apply quiet_truncate_leading|apply quiet_store].
Qed.

Lemma string_of_buffer_bound (b : buffer) : forall (k : nat) r,
  b !! k = Some (Some NUL) -> string_of_buffer b = Returned r ->
  (length r <= k)%nat.
Proof.
  induction b as [|[c|] b IH]; intros k r Hk Hr; cbn in Hr; try discriminate.
  destruct (is_nul c) eqn:Ec.
  - injection Hr as <-. cbn. lia.
  - destruct (string_of_buffer b) as [r'| | | |] eqn:Er; try discriminate.
    cbn in Hr. injection Hr as <-. destruct k as [|k].
    + cbn in Hk. injection Hk as ->. discriminate.
    + cbn in Hk. specialize (IH k r' Hk eq_refl). cbn. lia.
Qed.

Lemma finish_Returned m w r :
  finish m w = Returned r -> 0 <= w /\ Z.of_nat (length r) <= w.
Proof.
  unfold finish. destruct m as [b| | | |]; try discriminate. cbn [obind].
  unfold poke. destruct (0 <=? w) eqn:E1; [|discriminate].
  destruct (w <? Z.of_nat (length b)) eqn:E2; [|discriminate].
  cbn [andb obind]. intros H. split; [lia|].
  apply (string_of_buffer_bound _ (Z.to_nat w)) in H; [lia|].
  apply list_lookup_insert_eq. lia.
Qed.

Lemma quiet_finish m w : quiet m -> quiet (finish m w).
Proof.
  intros H. unfold finish.
  repeat (apply quiet_bind; [|intros ?]);
    auto using quiet_poke, quiet_string_of_buffer.
Qed.

(** Whatever the elision style, the abbreviation length and the text:
    [truncate] returns the text itself when it fits the width; it fails its
    assertion exactly for a longer text and a width of 4095 or more; and
    for a longer text and a smaller width it returns a text of at most
    [width] characters, or its behaviour is undefined. It throws nothing. *)
Theorem truncate_outcomes cfg s w acc :
  match truncate cfg s w acc with
  | Returned r =>
      (length32 s <= w /\ r = s)
      \/ (w < length32 s /\ 0 <= w < 4095 /\ Z.of_nat (length r) <= w)
  | AssertionFailed => w < length32 s /\ 4095 <= w
  | Undefined => w < length32 s /\ w < 4095
  | Thrown _ | OutOfFuel => False
  end.
Proof.
  unfold truncate. destruct (Z.leb_spec (length32 s) w) as [Hle|Hgt].
  - left. now split.
  - destruct (Z.ltb_spec w 4095) as [Hw|Hw]; cbn [negb]; [|now split].
    set (m := match elision_style cfg with
              | TRUNCATE_TRAILING => _ | TRUNCATE_MIDDLE => _
              | TRUNCATE_LEADING => _ | ABBREVIATE => _ end).
    assert (Hm : quiet m).
    { unfold m. destruct (elision_style cfg);
        [apply quiet_truncate_trailing|apply quiet_truncate_middle
        |apply quiet_truncate_leading|].
      destruct acc;
        [apply quiet_truncate_abbreviate|apply quiet_truncate_trailing]. }
    pose proof (quiet_finish m w Hm) as Hq.
    destruct (finish m w) as [r| | | |] eqn:E; try (now destruct Hq).
    right. apply finish_Returned in E. lia.
Qed.

Lemma length32_le s : 0 <= length32 s <= Z.of_nat (length s).
Proof.
  unfold length32, u32. split.
  - apply Z.mod_pos_bound. lia.
  - apply Z.mod_le; lia.
Qed.

(** Truncating twice is truncating once: a text [truncate] has returned
    comes back unchanged from a second call with the same width. *)
Theorem truncate_idempotent cfg s w acc r :
  truncate cfg s w acc = Returned r -> truncate cfg r w acc = Returned r.
Proof.
  intros H. pose proof (truncate_outcomes cfg s w acc) as Ho.
  rewrite H in Ho. destruct Ho as [[_ ->]|(_ & _ & Hr)]; [exact H|].
  unfold truncate. pose proof (length32_le r).
  destruct (Z.leb_spec (length32 r) w); [reflexivity|lia].
Qed.

Lemma truncate_idempotent_witness :
  truncate initial_settings (txt "..Checking") 10 true
  = Returned (txt "..Checking").
Proof.
  apply (truncate_idempotent initial_settings
           (txt "Assets:Current:Checking") 10 true).
  vm_compute. reflexivity.
Defined.


(** ** [truncate]: what is kept, and the widths below 2 *)

(** For a text longer than the width [w], [2 <= w < 4095]: truncation at
    the beginning returns two dots and the last [w - 2] characters of the
    text; truncation at the end, which is also what [ABBREVIATE] does to a
    text that is not an account path, returns the first [w - 2] characters
    and two dots. *)
Theorem truncate_leading_trailing cfg s w acc :
  c_text s -> 2 <= w < 4095 -> w < Z.of_nat (length s) ->
  (elision_style cfg = TRUNCATE_LEADING ->
   truncate cfg s w acc
   = Returned ([dot; dot] ++ last_chars (Z.to_nat w - 2) s))
  /\ (elision_style cfg = TRUNCATE_TRAILING
      \/ (elision_style cfg = ABBREVIATE /\ acc = false) ->
      truncate cfg s w acc = Returned (take (Z.to_nat w - 2) s ++ [dot; dot])).
Proof.
  intros Hs Hw Hlen. split.
  - intros Hst.
    rewrite truncate_elided by (assumption || lia || (left; congruence)).
    rewrite Hst. unfold elided, last_chars. cbn [app]. repeat f_equal. lia.
  - intros Hst.
    rewrite truncate_elided; try (assumption || lia).
    + destruct Hst as [->|[-> _]]; reflexivity.
    + destruct Hst as [Hst|[_ ->]]; [left; congruence|now right].
Qed.

Lemma truncate_leading_trailing_witness :
  (elision_style {| elision_style := TRUNCATE_LEADING; abbrev_length := 2 |}
   = TRUNCATE_LEADING ->
   truncate {| elision_style := TRUNCATE_LEADING; abbrev_length := 2 |}
     (txt "Supermarket") 8 false
   = Returned ([dot; dot] ++ last_chars (Z.to_nat 8 - 2) (txt "Supermarket")))
  /\ (elision_style {| elision_style := TRUNCATE_LEADING; abbrev_length := 2 |}
      = TRUNCATE_TRAILING
      \/ (elision_style
            {| elision_style := TRUNCATE_LEADING; abbrev_length := 2 |}
          = ABBREVIATE /\ false = false) ->
      truncate {| elision_style := TRUNCATE_LEADING; abbrev_length := 2 |}
        (txt "Supermarket") 8 false
      = Returned (take (Z.to_nat 8 - 2) (txt "Supermarket") ++ [dot; dot])).
Proof.
  apply (truncate_leading_trailing
           {| elision_style := TRUNCATE_LEADING; abbrev_length := 2 |}
           (txt "Supermarket") 8 false).
  - split; [reflexivity|]. simpl. lia.
  - lia.
  - simpl. lia.
Defined.

Lemma leading_run_narrow p w :
  no_nul p = true -> 0 <= w < 2 -> w <= Z.of_nat (length p) ->
  finish (truncate_leading p (Z.of_nat (length p) - w) w) w
  = Returned (take (Z.to_nat w) [dot; dot]).
Proof.
  intros Hnul Hw Hlen. unfold finish, truncate_leading.
  rewrite ptr_add_Returned by lia. rewrite obind_Returned.
  pose proof (new_buffer_length 4096) as L0.
  rewrite strncpy_Returned; rewrite ?length_drop; try lia;
    [|now apply no_nul_drop].
  rewrite obind_Returned.
  set (cs := take _ (drop _ p)).
  assert (Lcs : length cs = Z.to_nat w).
  { unfold cs. rewrite length_take, length_drop. lia. }
  set (b1 := blit _ _ (new_buffer 4096)).
  assert (L1 : length b1 = 4096%nat)
    by (apply length_blit_text; [assumption|lia]).
  step_poke b2 L2. step_poke b3 L3. step_poke b4 L4.
  assert (Hcase : w = 0 \/ w = 1) by lia.
  apply string_of_buffer_lookup.
  - destruct Hcase as [->| ->]; reflexivity.
  - intros i Hi. rewrite length_take in Hi. cbn [length] in Hi.
    unfold b4. rewrite (lookup_blit1 _ _ _ _ _ L3) by lia.
    unfold b3. rewrite (lookup_blit1 _ _ _ _ _ L2) by lia.
    unfold b2. rewrite (lookup_blit1 _ _ _ _ _ L1) by lia.
    destruct Hcase as [->| ->]; [lia|].
    assert (i = 0%nat) as -> by lia. reflexivity.
  - rewrite length_take. cbn [length].
    unfold b4. rewrite (lookup_blit1 _ _ _ _ _ L3) by lia.
    destruct Hcase as [->| ->]; reflexivity.
Qed.

Lemma trailing_run_narrow s w :
  0 <= w < 2 -> finish (truncate_trailing s w) w = Undefined.
Proof.
  intros Hw. unfold finish, truncate_trailing, strncpy.
  rewrite new_buffer_length.
  assert (Hn : 2 ^ 32 - 2 <= u32 (w - 2)).
  { unfold u32. assert (w = 0 \/ w = 1) as [->| ->] by lia; now vm_compute. }
  destruct (Z.leb_spec (0 + u32 (w - 2)) (Z.of_nat 4096)); [lia|reflexivity].
Qed.

Lemma middle_run_narrow s w :
  c_text s -> 0 <= w < 2 -> w < Z.of_nat (length s) ->
  finish (truncate_middle s (Z.of_nat (length s)) w) w = Undefined.
Proof.
  intros [Hnul H32] Hw Hlen. unfold finish, truncate_middle.
  assert (Hh : w / 2 = 0 /\ w mod 2 = w)
    by (assert (w = 0 \/ w = 1) as [->| ->] by lia; now vm_compute).
  destruct Hh as [-> ->]. cbn [Z.add].
  pose proof (new_buffer_length 4096) as L0.
  rewrite !u32_small by lia.
  rewrite strncpy_Returned by (assumption || lia). rewrite obind_Returned.
  rewrite ptr_add_Returned by lia. rewrite obind_Returned.
  set (b1 := blit _ _ (new_buffer 4096)).
  assert (L1 : length b1 = 4096%nat).
  { apply length_blit_text; [assumption|]. rewrite length_take. lia. }
  rewrite strncpy_Returned; rewrite ?length_drop; try lia;
    [|now apply no_nul_drop].
  rewrite obind_Returned.
  set (b2 := blit _ _ b1).
  assert (L2 : length b2 = 4096%nat).
  { apply length_blit_text; [assumption|].
    rewrite length_take, length_drop. lia. }
  unfold poke at 1. rewrite L2. reflexivity.
Qed.

(** With a width of 0 or 1 and a longer text, truncation at the beginning
    returns that many dots, while truncation at the end (also for
    [ABBREVIATE] on a text that is not an account path) and truncation in
    the middle write outside the buffer: the subtraction [width - 2] wraps
    around, and [width / 2 - 1] is no index. *)
Theorem truncate_narrow cfg s w acc :
  c_text s -> 0 <= w < 2 -> w < Z.of_nat (length s) ->
  (elision_style cfg = TRUNCATE_LEADING ->
   truncate cfg s w acc = Returned (take (Z.to_nat w) [dot; dot]))
  /\ (elision_style cfg = TRUNCATE_MIDDLE ->
      truncate cfg s w acc = Undefined)
  /\ (elision_style cfg = TRUNCATE_TRAILING
      \/ (elision_style cfg = ABBREVIATE /\ acc = false) ->
      truncate cfg s w acc = Undefined).
Proof.
  intros Hs Hw Hlen. pose proof Hs as [Hnul H32].
  rewrite truncate_long by (assumption || lia).
  split; [|split].
  - intros ->. apply leading_run_narrow; (assumption || lia).
  - intros ->. now apply middle_run_narrow.
  - intros [->|[-> ->]]; now apply trailing_run_narrow.
Qed.

Lemma truncate_narrow_witness :
  (elision_style {| elision_style := TRUNCATE_MIDDLE; abbrev_length := 2 |}
   = TRUNCATE_LEADING ->
   truncate {| elision_style := TRUNCATE_MIDDLE; abbrev_length := 2 |}
     (txt "Cash") 1 false = Returned (take (Z.to_nat 1) [dot; dot]))
  /\ (elision_style {| elision_style := TRUNCATE_MIDDLE; abbrev_length := 2 |}
      = TRUNCATE_MIDDLE ->
      truncate {| elision_style := TRUNCATE_MIDDLE; abbrev_length := 2 |}
        (txt "Cash") 1 false = Undefined)
  /\ (elision_style {| elision_style := TRUNCATE_MIDDLE; abbrev_length := 2 |}
      = TRUNCATE_TRAILING
      \/ (elision_style
            {| elision_style := TRUNCATE_MIDDLE; abbrev_length := 2 |}
          = ABBREVIATE /\ false = false) ->
      truncate {| elision_style := TRUNCATE_MIDDLE; abbrev_length := 2 |}
        (txt "Cash") 1 false = Undefined).
Proof.
  apply (truncate_narrow
           {| elision_style := TRUNCATE_MIDDLE; abbrev_length := 2 |}
           (txt "Cash") 1 false).
  - split; [reflexivity|]. simpl. lia.
  - lia.
  - simpl. lia.
Defined.




(** ** The segments of an abbreviated path *)

Lemma colon_free_split s : Forall (fun p => colon_free p = true) (split_parts s).
Proof.
  induction s as [|c s IH]; [repeat constructor|].
  cbn [split_parts]. destruct (Ascii.eqb c colon) eqn:E.
  - constructor; [reflexivity|exact IH].
  - destruct (split_parts s) as [|p ps];
      [repeat constructor; cbn; now rewrite E|].
    inversion IH as [|? ? Hp Hps]; subst. constructor; [|exact Hps].
    unfold colon_free in *. cbn [forallb]. now rewrite E, Hp.
Qed.

Lemma split_parts_app_colon p s :
  colon_free p = true -> split_parts (p ++ colon :: s) = p :: split_parts s.
Proof.
  induction p as [|c p IH]; intros H.
  - reflexivity.
  - cbn in H. apply andb_true_iff in H as [Hc Hp].
    apply negb_true_iff in Hc. cbn [app split_parts]. rewrite Hc.
    now rewrite (IH Hp).
Qed.

Lemma split_parts_colon_free p : colon_free p = true -> split_parts p = [p].
Proof.
  induction p as [|c p IH]; intros H; [reflexivity|].
  cbn in H. apply andb_true_iff in H as [Hc Hp].
  apply negb_true_iff in Hc. cbn [split_parts]. rewrite Hc.
  now rewrite (IH Hp).
Qed.

Lemma split_join_colon ps :
  ps <> [] -> Forall (fun p => colon_free p = true) ps ->
  split_parts (join_colon ps) = ps.
Proof.
  induction ps as [|p [|q rest] IH]; intros Hne Hall; [congruence| |].
  - inversion Hall; subst. now apply split_parts_colon_free.
  - inversion Hall as [|? ? Hp Hrest]; subst.
    rewrite join_colon_cons2, split_parts_app_colon by assumption.
    now rewrite IH.
Qed.

Lemma colon_free_prefix p' p :
  p' `prefix_of` p -> colon_free p = true -> colon_free p' = true.
Proof.
  intros [k ->] H. unfold colon_free in *. rewrite forallb_app in H.
  now apply andb_true_iff in H.
Qed.

(** The text the loop over the segments returns, as a list of segments. *)
Lemma abbreviate_parts_segments al w parts : forall n,
  parts <> [] ->
  exists parts',
    fst (abbreviate_parts al w parts n) = join_colon parts'
    /\ Forall2 (fun p' p => p' `prefix_of` p) parts' parts
    /\ last parts' = last parts.
Proof.
  induction parts as [|p [|q rest] IH]; intros n Hne; [congruence| |].
  - exists [p]. repeat split. now repeat constructor.
  - rewrite abbreviate_parts_cons2.
    destruct (w <? n).
    + destruct (IH (u32 (usize (n - usize (Z.of_nat (length p) - al))))
                  ltac:(discriminate)) as (ps' & E & H2 & Hl).
      destruct (abbreviate_parts al w (q :: rest) _) as [r m]. cbn [fst] in *.
      exists (take (Z.to_nat (usize al)) p :: ps'). subst r.
      inversion H2 as [|x ? ? ? ? Hrest]; subst.
      split; [reflexivity|]. split.
      * constructor; [apply prefix_take|exact H2].
      * exact Hl.
    + destruct (IH n ltac:(discriminate)) as (ps' & E & H2 & Hl).
      destruct (abbreviate_parts al w (q :: rest) n) as [r m]. cbn [fst] in *.
      exists (p :: ps'). subst r.
      inversion H2 as [|x ? ? ? ? Hrest]; subst.
      split; [reflexivity|]. split.
      * constructor; [reflexivity|exact H2].
      * exact Hl.
Qed.

Lemma abbreviate_parts_abbreviation al w s n :
  abbreviation_of (fst (abbreviate_parts al w (split_parts s) n)) s.
Proof.
  destruct (split_parts_cons s) as (p & ps & E).
  destruct (abbreviate_parts_segments al w (split_parts s) n) as (ps' & -> & H2 & Hl).
  { rewrite E. discriminate. }
  assert (Hfree : Forall (fun p => colon_free p = true) ps').
  { pose proof (colon_free_split s) as Hs.
    clear -H2 Hs. induction H2 as [|x y l l' Hxy H2 IH]; [constructor|].
    inversion Hs; subst. constructor; [|now apply IH].
    now apply (colon_free_prefix x y). }
  assert (Hne : ps' <> []).
  { rewrite E in H2. inversion H2; discriminate. }
  unfold abbreviation_of. rewrite split_join_colon by assumption.
  now split.
Qed.

Lemma no_nul_abbreviate_parts al w parts : forall n,
  no_nul (join_colon parts) = true ->
  no_nul (fst (abbreviate_parts al w parts n)) = true.
Proof.
  induction parts as [|p [|q rest] IH]; intros n H; try exact H.
  rewrite abbreviate_parts_cons2. rewrite join_colon_cons2 in H.
  apply no_nul_app in H as [Hp H]. apply no_nul_cons in H as [Hc H].
  destruct (w <? n).
  - specialize (IH (u32 (usize (n - usize (Z.of_nat (length p) - al)))) H).
    destruct (abbreviate_parts al w (q :: rest) _) as [r m]. cbn [fst] in *.
    apply no_nul_app; split; [now apply no_nul_take|].
    now apply no_nul_cons.
  - specialize (IH n H).
    destruct (abbreviate_parts al w (q :: rest) n) as [r m]. cbn [fst] in *.
    apply no_nul_app; split; [assumption|]. now apply no_nul_cons.
Qed.

Lemma length_abbreviate_parts al w parts : forall n,
  (length (fst (abbreviate_parts al w parts n))
   <= length (join_colon parts))%nat.
Proof.
  induction parts as [|p [|q rest] IH]; intros n; try reflexivity.
  rewrite abbreviate_parts_cons2, join_colon_cons2.
  destruct (w <? n).
  - specialize (IH (u32 (usize (n - usize (Z.of_nat (length p) - al))))).
    destruct (abbreviate_parts al w (q :: rest) _) as [r m]. cbn [fst] in *.
    rewrite !length_app, length_take. cbn [length]. lia.
  - specialize (IH n).
    destruct (abbreviate_parts al w (q :: rest) n) as [r m]. cbn [fst] in *.
    rewrite !length_app. cbn [length]. lia.
Qed.

Lemma usize_negative z : - 2 ^ 64 <= z < 0 -> usize z = z + 2 ^ 64.
Proof.
  intros H. unfold usize.
  rewrite <- (Z.mod_add z 1 (2 ^ 64)) by lia.
  apply Z.mod_small. lia.
Qed.

Lemma strcpy_run_cut r w :
  no_nul r = true -> 0 <= w < 4095 ->
  finish (strcpy r (new_buffer 4096)) w
  = if Z.of_nat (length r) <? 4096 then Returned (take (Z.to_nat w) r)
    else Undefined.
Proof.
  intros Hnul Hw. unfold finish, strcpy.
  pose proof (new_buffer_length 4096) as L0.
  rewrite (c_chars_no_nul r Hnul).
  destruct (Z.ltb_spec (Z.of_nat (length r)) 4096) as [Hlen|Hlen].
  2:{ unfold store. rewrite L0, length_app. cbn [length].
      destruct (Z.leb_spec (0 + Z.of_nat (length r + 1)) (Z.of_nat 4096));
        [lia|reflexivity]. }
  rewrite store_Returned by (rewrite ?length_app; cbn [length]; lia).
  rewrite obind_Returned.
  set (b1 := blit _ _ (new_buffer 4096)).
  assert (L1 : length b1 = 4096%nat).
  { apply length_blit_text; [assumption|].
    rewrite length_app. cbn [length]. lia. }
  step_poke b2 L2.
  assert (K1 : forall i, (i <= length r)%nat ->
            b1 !! i = Some <$> (r ++ [NUL]) !! i).
  { intros i Hi. unfold b1.
    rewrite (lookup_blit_text _ _ _ _ _ L0)
      by (rewrite length_app; cbn [length]; lia).
    rewrite length_app. cbn [length]. change (Z.to_nat 0) with 0%nat.
    case_decide; [|lia]. do 2 f_equal. lia. }
  apply string_of_buffer_lookup; [now apply no_nul_take| |].
  - intros i Hi. rewrite length_take in Hi.
    unfold b2. rewrite (lookup_blit1 _ _ _ _ _ L1) by lia.
    case_decide; [lia|]. rewrite K1 by lia.
    rewrite lookup_app_l by lia. now rewrite lookup_take_lt by lia.
  - rewrite length_take.
    unfold b2. rewrite (lookup_blit1 _ _ _ _ _ L1) by lia.
    case_decide; [reflexivity|]. rewrite K1 by lia.
    rewrite lookup_app_r by lia.
    replace (_ - _)%nat with 0%nat by lia. reflexivity.
Qed.

(** Under [ABBREVIATE], whatever the abbreviation length: when [truncate]
    returns for an account path [s] longer than the width [w], what it
    returns is an abbreviation [a] of [s] cut to the width: [a] has as many
    segments as [s], each of them a beginning of the segment of [s] it
    stands for and the last one whole, and the result is the first [w]
    characters of [a] ([a] itself when it fits), or two dots and the last
    [w - 2] characters of [a]. *)
Theorem truncate_abbreviation cfg s w r :
  elision_style cfg = ABBREVIATE ->
  c_text s -> 2 <= w < 4095 -> w < Z.of_nat (length s) ->
  truncate cfg s w true = Returned r ->
  exists a,
    abbreviation_of a s
    /\ (r = take (Z.to_nat w) a
        \/ (w <= Z.of_nat (length a)
            /\ r = [dot; dot] ++ last_chars (Z.to_nat w - 2) a)).
Proof.
  intros Hst Hs Hw Hlen. pose proof Hs as [Hnul H32].
  rewrite truncate_long by (assumption || lia). rewrite Hst.
  unfold truncate_abbreviate.
  pose proof (abbreviate_parts_abbreviation (abbrev_length cfg) w s
                (Z.of_nat (length s))) as Habb.
  pose proof (no_nul_abbreviate_parts (abbrev_length cfg) w (split_parts s)
                (Z.of_nat (length s))) as Hna.
  pose proof (length_abbreviate_parts (abbrev_length cfg) w (split_parts s)
                (Z.of_nat (length s))) as Hla.
  rewrite join_colon_split in Hla.
  rewrite join_colon_split in Hna. specialize (Hna Hnul).
  destruct (abbreviate_parts _ _ _ _) as [a n]. cbn [fst] in *.
  intros H. exists a. split; [exact Habb|].
  destruct (w <? n).
  - right.
    destruct (Z.le_gt_cases w (Z.of_nat (length a))) as [Hge|Hlt].
    + rewrite usize_small in H.
      * rewrite leading_run in H by (assumption || lia).
        injection H as <-. split; [assumption|].
        unfold last_chars. cbn [app]. repeat f_equal. lia.
      * lia.
    + exfalso. unfold finish, truncate_leading, ptr_add in H.
      rewrite usize_negative in H by lia.
      destruct (Z.leb_spec (Z.of_nat (length a) - w + 2 ^ 64)
                  (Z.of_nat (length a))); [lia|].
      rewrite andb_false_r in H. discriminate.
  - left. rewrite strcpy_run_cut in H by (assumption || lia).
    destruct (_ <? 4096); [now injection H|discriminate].
Qed.

Lemma truncate_abbreviation_witness :
  exists a,
    abbreviation_of a (txt "Assets:Current:Checking")
    /\ (txt "As:Current:Checking" = take (Z.to_nat 22) a
        \/ (22 <= Z.of_nat (length a)
            /\ txt "As:Current:Checking"
               = [dot; dot] ++ last_chars (Z.to_nat 22 - 2) a)).
Proof.
  apply (truncate_abbreviation initial_settings
           (txt "Assets:Current:Checking") 22 (txt "As:Current:Checking")).
  - reflexivity.
  - split; [reflexivity|]. simpl. lia.
  - lia.
  - simpl. lia.
  - vm_compute. reflexivity.
Defined.

(** * Further properties of the compiler *)

Section CompilerFuel.

Variable ptr_op_t : Type.
Variable parser : option (text -> exception + ptr_op_t).
Variables ELEMENT_ALIGN_LEFT ELEMENT_HIGHLIGHT : Z.
Variable output_time_format : text.

#[local] Abbreviation parse_loop' :=
  (parse_loop ptr_op_t parser ELEMENT_ALIGN_LEFT ELEMENT_HIGHLIGHT
     output_time_format).

#[local] Abbreviation parse_elements' :=
  (parse_elements ptr_op_t parser ELEMENT_ALIGN_LEFT ELEMENT_HIGHLIGHT
     output_time_format).

(** ** The fuel of the loop *)

(** Every turn of the loop consumes input, so fuel above the length of the
    input is never used up: one more unit changes nothing. *)
Lemma parse_loop_fuel_S fuel : forall p lit,
  (length p < fuel)%nat ->
  parse_loop' (S fuel) p lit = parse_loop' fuel p lit.
Proof.
  induction fuel as [|fuel IH]; intros p lit Hlen; [lia|].
  destruct p as [|c p']; [reflexivity|].
  cbn [length] in Hlen.
  rewrite (parse_loop_unfold _ _ _ _ _ (S fuel) (c :: p') lit),
    (parse_loop_unfold _ _ _ _ _ fuel (c :: p') lit).
  destruct (is_nul c); [reflexivity|].
  destruct (negb (Ascii.eqb c "%" || Ascii.eqb c "\")).
  - destruct (1024 <=? length lit)%nat; [reflexivity|]. apply IH. lia.
  - destruct (Ascii.eqb c "\").
    + destruct p' as [|k rest]; [reflexivity|]. cbn [length] in Hlen.
      rewrite IH by lia. reflexivity.
    + pose proof (parse_widths_rest ptr_op_t ELEMENT_ALIGN_LEFT
                    ELEMENT_HIGHLIGHT p') as Hw.
      destruct (parse_widths _ _ _ p') as [[e q]| | | |]; try reflexivity.
      cbn [obind].
      pose proof (parse_selector_regular ptr_op_t parser output_time_format
                    e q) as Hs.
      destruct (parse_selector _ _ _ e q) as [[e' [rest|]]| | | |];
        try reflexivity.
      cbn [obind]. destruct Hs as [_ Hs].
      apply rest_of_length in Hw.
      rewrite IH by lia. reflexivity.
Qed.

Lemma parse_loop_enough fuel p lit :
  (length p < fuel)%nat ->
  parse_loop' fuel p lit = parse_loop' (S (length p)) p lit.
Proof.
  intros H. induction fuel as [|fuel IH]; [lia|].
  destruct (Nat.eq_dec fuel (length p)) as [->|Hne]; [reflexivity|].
  rewrite parse_loop_fuel_S by lia. apply IH. lia.
Qed.

(** The loop run on a text with fuel enough is [parse_elements] of that
    text. *)
Lemma parse_loop_elements fuel p :
  (length p < fuel)%nat -> parse_loop' fuel p [] = parse_elements' p.
Proof. intros H. unfold parse_elements. now apply parse_loop_enough. Qed.

End CompilerFuel.

Section CompilerLiterals.

Variable ptr_op_t : Type.
Variable parser : option (text -> exception + ptr_op_t).
Variables ELEMENT_ALIGN_LEFT ELEMENT_HIGHLIGHT : Z.
Variable output_time_format : text.
Variable scope_t : Type.

#[local] Abbreviation parse_loop' :=
  (parse_loop ptr_op_t parser ELEMENT_ALIGN_LEFT ELEMENT_HIGHLIGHT
     output_time_format).

#[local] Abbreviation parse_elements' :=
  (parse_elements ptr_op_t parser ELEMENT_ALIGN_LEFT ELEMENT_HIGHLIGHT
     output_time_format).

#[local] Abbreviation format' :=
  (format ptr_op_t ELEMENT_ALIGN_LEFT scope_t).

(** ** Literal text *)

Lemma format_element_chars fl (s : text) x (scope : scope_t) :
  format_element ptr_op_t ELEMENT_ALIGN_LEFT scope_t
    {| type := STRING; flags := fl; min_width := 0; max_width := 0;
       chars := s; val_expr := x |} scope
  = Returned s.
Proof.
  unfold format_element, put. cbn.
  replace (Z.to_nat (0 - Z.of_nat (length s))) with 0%nat by lia.
  cbn [replicate]. destruct (negb _); [now rewrite app_nil_r|reflexivity].
Qed.

Lemma format_flush lit els out (scope : scope_t) :
  format' out (flush ptr_op_t lit ++ els) scope
  = format' (out ++ lit) els scope.
Proof.
  destruct lit as [|c lit]; [now rewrite app_nil_r|].
  cbn [flush app format]. unfold with_type, new_element. cbn [flags min_width max_width val_expr].
  now rewrite format_element_chars.
Qed.

Lemma escaped_loop t : forall fuel lit,
  no_nul t = true -> no_backslash t = true ->
  (length lit + length t <= 1024)%nat ->
  (length (escape_percent t) < fuel)%nat ->
  exists els,
    parse_loop' fuel (escape_percent t) lit = Returned els
    /\ forall out scope, format' out els scope = Returned (out ++ lit ++ t).
Proof.
  induction t as [|c t IH]; intros fuel lit Hnul Hbs Hlen Hfuel.
  - destruct fuel as [|fuel]; [cbn in Hfuel; lia|].
    exists (flush ptr_op_t lit). split; [reflexivity|].
    intros out scope. rewrite <- (app_nil_r (flush _ lit)), format_flush.
    now rewrite app_nil_r.
  - rewrite no_nul_cons in Hnul. destruct Hnul as [Hc Hnul].
    unfold no_backslash in Hbs. cbn [forallb] in Hbs.
    apply andb_true_iff in Hbs as [Hb Hbs]. apply negb_true_iff in Hb.
    cbn [length] in Hlen. cbn [escape_percent] in *.
    destruct (Ascii.eqb c "%") eqn:Ec.
    + apply Ascii.eqb_eq in Ec. subst c. cbn [length] in Hfuel.
      destruct fuel as [|fuel]; [lia|].
      destruct (IH fuel [] Hnul Hbs ltac:(cbn; lia) ltac:(lia))
        as (els & Hels & Hfmt).
      rewrite percent_step.
      rewrite parse_widths_none by reflexivity. cbn [obind].
      unfold parse_selector.
      replace (Ascii.eqb "%" "%") with true by reflexivity.
      cbn [obind]. rewrite Hels. cbn [obind].
      eexists. split; [reflexivity|]. intros out scope.
      rewrite format_flush. cbn [format]. unfold with_type, field_element.
      cbn [flags min_width max_width val_expr].
      rewrite format_element_chars. cbn [obind].
      rewrite Hfmt. cbn [app]. now rewrite <- !app_assoc.
    + cbn [length] in Hfuel. destruct fuel as [|fuel]; [lia|].
      rewrite parse_loop_unfold, Hc, Ec, Hb. cbn [orb negb].
      destruct (Nat.leb_spec 1024 (length lit)); [lia|].
      destruct (IH fuel (lit ++ [c]) Hnul Hbs
                  ltac:(rewrite length_app; cbn; lia) ltac:(lia))
        as (els & Hels & Hfmt).
      exists els. split; [exact Hels|]. intros out scope.
      rewrite Hfmt. now rewrite <- !app_assoc.
Qed.

(** A text of at most 1024 characters without backslash, written as a
    template by doubling its percent signs, compiles, and the compiled
    template renders the text itself after what the output holds, whatever
    the context. *)
Theorem parse_format_escaped (t : text) :
  no_nul t = true -> no_backslash t = true -> (length t <= 1024)%nat ->
  exists els,
    parse_elements' (escape_percent t) = Returned els
    /\ forall out scope, format' out els scope = Returned (out ++ t).
Proof.
  intros Hnul Hbs Hlen. unfold parse_elements.
  destruct (escaped_loop t (S (length (escape_percent t))) []
              Hnul Hbs ltac:(cbn; lia) ltac:(lia)) as (els & Hels & Hfmt).
  exists els. split; [exact Hels|exact Hfmt].
Qed.

(** ** The literal buffer *)

Lemma c_chars_app_no_nul l rest :
  no_nul l = true -> c_chars (l ++ rest) = l ++ c_chars rest.
Proof.
  induction l as [|c l IH]; [reflexivity|].
  rewrite no_nul_cons. intros [Hc Hl]. cbn [app c_chars]. rewrite Hc.
  now rewrite IH.
Qed.

Lemma long_literal_loop l : forall fuel rest lit,
  forallb is_plain l = true -> (length lit <= 1024)%nat ->
  (1024 < length lit + length l)%nat -> (length l <= fuel)%nat ->
  parse_loop' fuel (l ++ rest) lit = Undefined.
Proof.
  induction l as [|c l IH]; intros fuel rest lit Hl Hlit Hlen Hfuel.
  - cbn [length] in Hlen. lia.
  - cbn in Hl. apply andb_true_iff in Hl as [Hc Hl].
    unfold is_plain in Hc. apply andb_true_iff in Hc as [Hc Hn].
    apply negb_true_iff in Hn.
    cbn [length] in *. destruct fuel as [|fuel]; [lia|].
    cbn [app]. rewrite parse_loop_unfold, Hn, Hc.
    destruct (Nat.leb_spec 1024 (length lit)); [reflexivity|].
    apply IH; [assumption|rewrite length_app; cbn; lia
              |rewrite length_app; cbn; lia|lia].
Qed.

Lemma is_plain_no_nul l : forallb is_plain l = true -> no_nul l = true.
Proof.
  apply no_nul_forallb. intros c H. unfold is_plain in H.
  apply andb_true_iff in H as [_ H]. now apply negb_true_iff in H.
Qed.

(** A template that starts with more than 1024 characters of literal
    text overruns the buffer the literal is collected in: its compilation
    is undefined, whatever follows. *)
Theorem parse_elements_long_literal (l rest : text) :
  forallb is_plain l = true -> (1024 < length l)%nat ->
  parse_elements' (l ++ rest) = Undefined.
Proof.
  intros Hl Hlen. unfold parse_elements.
  apply long_literal_loop; [assumption|cbn; lia|cbn; lia|].
  rewrite length_app. lia.
Qed.

End CompilerLiterals.

Section CompilerDirectives.

Variable ptr_op_t : Type.
Variable parser : option (text -> exception + ptr_op_t).
Variables ELEMENT_ALIGN_LEFT ELEMENT_HIGHLIGHT : Z.
Variable output_time_format : text.

#[local] Abbreviation parse_loop' :=
  (parse_loop ptr_op_t parser ELEMENT_ALIGN_LEFT ELEMENT_HIGHLIGHT
     output_time_format).

#[local] Abbreviation parse_elements' :=
  (parse_elements ptr_op_t parser ELEMENT_ALIGN_LEFT ELEMENT_HIGHLIGHT
     output_time_format).

#[local] Abbreviation parse_widths' :=
  (parse_widths ptr_op_t ELEMENT_ALIGN_LEFT ELEMENT_HIGHLIGHT).

#[local] Abbreviation flag_bits' :=
  (flag_bits ELEMENT_ALIGN_LEFT ELEMENT_HIGHLIGHT).

(** ** Flags and widths *)

Lemma parse_number_split ds : forall n rest,
  forallb is_digit ds = true -> stops is_digit rest ->
  parse_number (ds ++ rest) n = Undefined
  \/ exists m, parse_number (ds ++ rest) n = Returned (m, rest).
Proof.
  induction ds as [|c ds IH]; intros n rest Hds Hrest.
  - right. exists n. destruct rest as [|c rest]; [reflexivity|].
    cbn in Hrest. cbn [app parse_number]. now rewrite Hrest.
  - cbn in Hds. apply andb_true_iff in Hds as [Hc Hds].
    cbn [app parse_number]. rewrite Hc.
    destruct (INT_MAX <? n * 10 + digit_value c); [now left|].
    now apply IH.
Qed.

Lemma stops_flag_widths ms ods :
  forallb is_digit ms = true -> stops is_flag (widths_text ms ods).
Proof.
  intros Hms. unfold widths_text. destruct ms as [|c ms].
  - destruct ods as [ds|]; reflexivity.
  - cbn in Hms. apply andb_true_iff in Hms as [Hc _]. cbn.
    now apply is_digit_not_flag.
Qed.

(** The flags and widths of a directive that is written out up to its
    selector. *)
Lemma parse_widths_spec fl ms ods rest :
  forallb is_flag fl = true -> forallb is_digit ms = true ->
  digits ods = true -> ends_widths ms ods rest ->
  decimal ms <= INT_MAX -> max_width_of ods <= INT_MAX ->
  parse_widths' (fl ++ widths_text ms ods ++ rest)
  = Returned
      (field_element ptr_op_t STRING (flag_bits' fl)
         (min_width_of ms ods) (max_width_of ods), rest).
Proof.
  intros Hfl Hms Hds (Hf & Hd & Hdot) Hm Hx.
  destruct ods as [ds|].
  - unfold widths_text. rewrite <- (app_assoc ms). cbn [app].
    now apply parse_widths_run.
  - unfold widths_text in *. rewrite app_nil_r in *.
    unfold parse_widths. rewrite (parse_flags_run _ _ _ _ _ Hfl Hf).
    rewrite (parse_number_run ms 0 rest Hms Hd ltac:(lia) Hm).
    cbn [obind]. destruct rest as [|c rest]; [reflexivity|].
    cbn in Hdot. now rewrite Hdot.
Qed.

(** The flags and widths of a directive at which the template ends. *)
Lemma parse_widths_end fl ms ods :
  forallb is_flag fl = true -> forallb is_digit ms = true ->
  digits ods = true ->
  match parse_widths' (fl ++ widths_text ms ods) with
  | Returned (_, q) => q = []
  | Undefined => True
  | _ => False
  end.
Proof.
  intros Hfl Hms Hds. unfold parse_widths.
  rewrite (parse_flags_run _ _ _ _ _ Hfl (stops_flag_widths ms ods Hms)).
  unfold widths_text. destruct ods as [ds|].
  - destruct (parse_number_split ms 0 (dot :: ds) Hms eq_refl)
      as [->|[m ->]]; [exact I|].
    cbn [obind]. replace (Ascii.eqb dot dot) with true by reflexivity.
    pose proof (parse_number_split ds 0 [] Hds I) as H.
    rewrite app_nil_r in H. destruct H as [->|[m' ->]]; [exact I|].
    reflexivity.
  - pose proof (parse_number_split ms 0 [] Hms I) as H.
    destruct H as [->|[m ->]]; [exact I|]. reflexivity.
Qed.

(** A template must not end inside a directive or an escape: after a
    literal of at most 1024 characters, a percent sign followed by flags and
    widths only, or a backslash, at the end of the template makes the
    compiler read past the end, which is undefined. With the selector [x]
    as the last character the compiler stops instead, and keeps an empty
    literal with the flags and the widths. *)
Theorem parse_elements_unfinished (lit fl ms : text) (ods : option text) :
  forallb is_plain lit = true -> (length lit <= 1024)%nat ->
  forallb is_flag fl = true -> forallb is_digit ms = true ->
  digits ods = true ->
  parse_elements' (lit ++ "%"%char :: fl ++ widths_text ms ods) = Undefined
  /\ parse_elements' (lit ++ ["\"%char]) = Undefined
  /\ (decimal ms <= INT_MAX -> max_width_of ods <= INT_MAX ->
      parse_elements' (lit ++ "%"%char :: fl ++ widths_text ms ods ++ ["x"%char])
      = Returned
          (flush ptr_op_t lit
             ++ [field_element ptr_op_t STRING (flag_bits' fl)
                   (min_width_of ms ods) (max_width_of ods)])).
Proof.
  intros Hlit Hlen Hfl Hms Hds.
  split; [|split].
  - rewrite parse_elements_after_literal by assumption.
    rewrite percent_step.
    pose proof (parse_widths_end fl ms ods Hfl Hms Hds) as H.
    destruct (parse_widths' (fl ++ widths_text ms ods))
      as [[e q]| | | |]; try easy.
    subst q. reflexivity.
  - rewrite parse_elements_after_literal by assumption. reflexivity.
  - intros Hm Hx.
    rewrite parse_elements_after_literal by assumption.
    rewrite percent_step, parse_widths_spec; try assumption.
    + reflexivity.
    + repeat split.
      * unfold widths_text. destruct ms as [|c ms].
        -- destruct ods; reflexivity.
        -- cbn in Hms. apply andb_true_iff in Hms as [Hc _]. cbn.
           now apply is_digit_not_flag.
      * destruct ods; reflexivity.
Qed.

End CompilerDirectives.

Lemma flag_fold al hl fl : forall f0,
  forallb is_flag fl = true ->
  fold_left (fun f c => if Ascii.eqb c "-"%char then Z.lor f al
                        else Z.lor f hl) fl f0
  = Z.lor (Z.lor f0 (if occurs "-" fl then al else 0))
      (if occurs "!" fl then hl else 0).
Proof.
  induction fl as [|c fl IH]; intros f0 Hfl.
  - cbn. now rewrite !Z.lor_0_r.
  - cbn in Hfl. apply andb_true_iff in Hfl as [Hc Hfl].
    cbn [fold_left]. unfold occurs in *. cbn [existsb].
    rewrite (Ascii.eqb_sym "-" c), (Ascii.eqb_sym "!" c).
    destruct (Ascii.eqb_spec c "-") as [->|Hne].
    + rewrite IH by assumption.
      replace (Ascii.eqb "-" "!") with false by reflexivity. cbn [orb].
      f_equal. destruct (existsb (Ascii.eqb "-") fl).
      * now rewrite <- Z.lor_assoc, Z.lor_diag.
      * now rewrite Z.lor_0_r.
    + unfold is_flag in Hc. destruct (Ascii.eqb_spec c "!") as [->|Hne'].
      * rewrite IH by assumption. cbn [orb].
        apply Z.bits_inj'. intros n _. rewrite !Z.lor_spec.
        destruct (existsb (Ascii.eqb "-") fl), (existsb (Ascii.eqb "!") fl);
          rewrite ?Z.lor_spec, ?Z.bits_0;
          destruct (Z.testbit f0 n), (Z.testbit hl n), (Z.testbit al n);
          reflexivity.
      * destruct (Ascii.eqb_spec c "-"); [contradiction|].
        discriminate Hc.
Qed.

Lemma scan_balanced o c inner : forall d rest,
  is_nul c = false -> no_nul inner = true ->
  balanced o c inner d = true ->
  scan_closing o c (inner ++ c :: rest) (1 + Z.of_nat d) = (inner, c :: rest).
Proof.
  induction inner as [|x inner IH]; intros d rest Hc Hn Hb.
  - cbn in Hb. apply Nat.eqb_eq in Hb. subst d. cbn [app scan_closing].
    rewrite Hc, Ascii.eqb_refl. reflexivity.
  - rewrite no_nul_cons in Hn. destruct Hn as [Hx Hn].
    cbn [balanced] in Hb. cbn [app scan_closing]. rewrite Hx.
    destruct (Ascii.eqb x c).
    + destruct d as [|d]; [discriminate|].
      destruct (Z.eqb_spec (1 + Z.of_nat (S d) - 1) 0) as [E|_]; [lia|].
      replace (1 + Z.of_nat (S d) - 1) with (1 + Z.of_nat d) by lia.
      now rewrite IH.
    + destruct (Ascii.eqb x o).
      * replace (1 + Z.of_nat d + 1) with (1 + Z.of_nat (S d)) by lia.
        now rewrite IH.
      * now rewrite IH.
Qed.

Section CompilerSelectors.

Variable ptr_op_t : Type.
Variable parser : option (text -> exception + ptr_op_t).
Variables ELEMENT_ALIGN_LEFT ELEMENT_HIGHLIGHT : Z.
Variable output_time_format : text.
Variable scope_t : Type.

#[local] Abbreviation parse_loop' :=
  (parse_loop ptr_op_t parser ELEMENT_ALIGN_LEFT ELEMENT_HIGHLIGHT
     output_time_format).

#[local] Abbreviation parse_elements' :=
  (parse_elements ptr_op_t parser ELEMENT_ALIGN_LEFT ELEMENT_HIGHLIGHT
     output_time_format).

#[local] Abbreviation parse_widths' :=
  (parse_widths ptr_op_t ELEMENT_ALIGN_LEFT ELEMENT_HIGHLIGHT).

#[local] Abbreviation parse_selector' :=
  (parse_selector ptr_op_t parser output_time_format).

#[local] Abbreviation flag_bits' :=
  (flag_bits ELEMENT_ALIGN_LEFT ELEMENT_HIGHLIGHT).

(** ** The flags of a directive *)

Lemma parse_widths_flags fl1 fl2 rest :
  forallb is_flag fl1 = true -> forallb is_flag fl2 = true ->
  occurs "-" fl1 = occurs "-" fl2 -> occurs "!" fl1 = occurs "!" fl2 ->
  stops is_flag rest ->
  parse_widths' (fl1 ++ rest) = parse_widths' (fl2 ++ rest).
Proof.
  intros H1 H2 Hm Hb Hrest. unfold parse_widths.
  rewrite (parse_flags_run _ _ _ _ _ H1 Hrest),
    (parse_flags_run _ _ _ _ _ H2 Hrest).
  rewrite !flag_fold by assumption. now rewrite Hm, Hb.
Qed.

Lemma parse_loop_fuel f1 f2 p lit :
  (length p < f1)%nat -> (length p < f2)%nat ->
  parse_loop' f1 p lit = parse_loop' f2 p lit.
Proof.
  intros H1 H2.
  rewrite (parse_loop_enough _ _ _ _ _ f1) by exact H1.
  now rewrite (parse_loop_enough _ _ _ _ _ f2) by exact H2.
Qed.

(** The flags of a directive may be repeated and written in any order:
    two directives that differ only in their runs of flag characters, the
    same characters occurring in both, compile to the same elements. *)
Theorem parse_elements_flags (lit fl1 fl2 rest : text) :
  forallb is_plain lit = true -> (length lit <= 1024)%nat ->
  forallb is_flag fl1 = true -> forallb is_flag fl2 = true ->
  occurs "-" fl1 = occurs "-" fl2 -> occurs "!" fl1 = occurs "!" fl2 ->
  stops is_flag rest -> no_nul rest = true ->
  parse_elements' (lit ++ "%"%char :: fl1 ++ rest)
  = parse_elements' (lit ++ "%"%char :: fl2 ++ rest).
Proof.
  intros Hlit Hlen H1 H2 Hm Hb Hst Hrest.
  rewrite !parse_elements_after_literal by assumption.
  rewrite !percent_step.
  pose proof (parse_widths_rest ptr_op_t ELEMENT_ALIGN_LEFT ELEMENT_HIGHLIGHT
                (fl1 ++ rest)) as R1.
  pose proof (parse_widths_rest ptr_op_t ELEMENT_ALIGN_LEFT ELEMENT_HIGHLIGHT
                (fl2 ++ rest)) as R2.
  rewrite (parse_widths_flags fl1 fl2 rest H1 H2 Hm Hb Hst) in *.
  destruct (parse_widths' (fl2 ++ rest)) as [[e q]| | | |]; try reflexivity.
  cbn [obind].
  pose proof (parse_selector_regular ptr_op_t parser output_time_format e q)
    as Hs.
  destruct (parse_selector' e q) as [[e' [q'|]]| | | |]; try reflexivity.
  cbn [obind]. destruct Hs as [_ Hs].
  apply rest_of_length in R1, R2.
  rewrite (parse_loop_fuel (length ("%"%char :: fl1 ++ rest))
             (length ("%"%char :: fl2 ++ rest)) q' [])
    by (cbn [length]; lia).
  reflexivity.
Qed.

(** ** Directives written out up to their selector *)

Lemma directive_step fuel lit fl ms ods p :
  forallb is_flag fl = true -> forallb is_digit ms = true ->
  digits ods = true -> ends_widths ms ods p ->
  decimal ms <= INT_MAX -> max_width_of ods <= INT_MAX ->
  parse_loop' (S fuel) ("%"%char :: fl ++ widths_text ms ods ++ p) lit
  = (r <-- parse_selector'
             (field_element ptr_op_t STRING (flag_bits' fl)
                (min_width_of ms ods) (max_width_of ods)) p ;;
     match r with
     | (e, None) => Returned (flush ptr_op_t lit ++ [e])
     | (e, Some rest) =>
         els <-- parse_loop' fuel rest [] ;;
         Returned (flush ptr_op_t lit ++ e :: els)
     end).
Proof.
  intros Hfl Hms Hds He Hm Hx.
  rewrite percent_step, parse_widths_spec by assumption. reflexivity.
Qed.

Lemma ends_widths_at ms ods c rest :
  forallb is_digit ms = true ->
  is_flag c = false -> is_digit c = false -> Ascii.eqb c dot = false ->
  ends_widths ms ods (c :: rest).
Proof.
  intros Hms Hf Hd Hdot. repeat split.
  - unfold widths_text. destruct ms as [|m ms].
    + destruct ods; [reflexivity|exact Hf].
    + cbn in Hms. apply andb_true_iff in Hms as [Hc _]. cbn.
      now apply is_digit_not_flag.
  - exact Hd.
  - destruct ods; [exact I|exact Hdot].
Qed.

(** The text between the delimiters of a sub-expression or of a date
    format, nested pairs of the delimiters included, is what the directive
    gets: the expression parser is handed exactly that text, the date
    format is exactly that text, and the compiler goes on after the closing
    delimiter. *)
Theorem parse_elements_nested (lit fl ms : text) (ods : option text)
    (inner rest : text) :
  forallb is_plain lit = true -> (length lit <= 1024)%nat ->
  forallb is_flag fl = true -> forallb is_digit ms = true ->
  digits ods = true ->
  decimal ms <= INT_MAX -> max_width_of ods <= INT_MAX ->
  no_nul inner = true -> no_nul rest = true ->
  (balanced "(" ")" inner 0 = true ->
   parse_elements'
     (lit ++ "%"%char :: fl ++ widths_text ms ods
          ++ "("%char :: inner ++ ")"%char :: rest)
   = (x <-- expr_parse ptr_op_t parser inner ;;
      els <-- parse_elements' rest ;;
      Returned
        (flush ptr_op_t lit
           ++ with_expr ptr_op_t x
                (field_element ptr_op_t STRING (flag_bits' fl)
                   (min_width_of ms ods) (max_width_of ods))
           :: els)))
  /\ (balanced "[" "]" inner 0 = true ->
      parse_elements'
        (lit ++ "%"%char :: fl ++ widths_text ms ods
             ++ "["%char :: inner ++ "]"%char :: rest)
      = (els <-- parse_elements' rest ;;
         Returned
           (flush ptr_op_t lit
              ++ with_type ptr_op_t DATE_STRING inner
                   (field_element ptr_op_t STRING (flag_bits' fl)
                      (min_width_of ms ods) (max_width_of ods))
              :: els))).
Proof.
  intros Hlit Hlen Hfl Hms Hds Hm Hx Hinner Hrest.
  split; intros Hb.
  - rewrite parse_elements_after_literal by assumption.
    rewrite directive_step;
      [|assumption|assumption|assumption|now apply ends_widths_at
       |assumption|assumption].
    unfold parse_selector.
    replace (Ascii.eqb "(" "%") with false by reflexivity.
    replace (Ascii.eqb "(" "(") with true by reflexivity.
    change 1 with (1 + Z.of_nat 0) at 1.
    rewrite (scan_balanced "(" ")" _ _ _ eq_refl Hinner Hb).
    replace (Ascii.eqb ")" ")") with true by reflexivity. cbn [negb].
    destruct (expr_parse ptr_op_t parser inner) as [x| | | |];
      try reflexivity.
    cbn [obind]. rewrite parse_loop_elements; [reflexivity|].
    cbn [length]. rewrite !length_app. cbn [length]. rewrite length_app.
    cbn [length]. lia.
  - rewrite parse_elements_after_literal by assumption.
    rewrite directive_step;
      [|assumption|assumption|assumption|now apply ends_widths_at
       |assumption|assumption].
    unfold parse_selector.
    replace (Ascii.eqb "[" "%") with false by reflexivity.
    replace (Ascii.eqb "[" "(") with false by reflexivity.
    replace (Ascii.eqb "[" "[") with true by reflexivity.
    change 1 with (1 + Z.of_nat 0) at 1.
    rewrite (scan_balanced "[" "]" _ _ _ eq_refl Hinner Hb).
    replace (Ascii.eqb "]" "]") with true by reflexivity. cbn [negb].
    cbn [obind]. rewrite parse_loop_elements; [reflexivity|].
    cbn [length]. rewrite !length_app. cbn [length]. rewrite length_app.
    cbn [length]. lia.
Qed.

(** ** Characters that select nothing *)

Lemma parse_selector_none (e : element_t ptr_op_t) c rest :
  is_selector c = false ->
  parse_selector' e (c :: rest) = Returned (e, Some rest).
Proof.
  unfold is_selector. rewrite !orb_false_iff.
  intros ((((((H1 & H2) & H3) & H4) & H5) & H6) & H7).
  unfold parse_selector. rewrite H1, H2, H3, H4, H5, H6.
  now destruct (field_kind c).
Qed.

Lemma format_element_blank fl minw maxw (scope : scope_t) :
  0 <= minw ->
  format_element ptr_op_t ELEMENT_ALIGN_LEFT scope_t
    (field_element ptr_op_t STRING fl minw maxw) scope
  = Returned
      (replicate (Z.to_nat (if 0 <? maxw then Z.min minw maxw else minw))
         " "%char).
Proof.
  intros Hmin. rewrite format_element_literal. cbn [is_literal field_element type].
  unfold literal_text, cut, pad. cbn [field_element max_width min_width chars flags length].
  f_equal.
  set (left := negb _). change (Z.of_nat 0) with 0.
  assert (Hfill : forall n, (if left then [] ++ replicate n " "%char
                             else replicate n " "%char ++ [])
                            = replicate n " "%char).
  { intros n. destruct left; [reflexivity|apply app_nil_r]. }
  destruct (Z.ltb_spec 0 minw).
  - rewrite Nat.sub_0_r, Hfill, length_replicate.
    destruct (Z.ltb_spec 0 maxw); cbn [andb].
    + destruct (Z.ltb_spec maxw (Z.of_nat (Z.to_nat minw))).
      * rewrite take_replicate. f_equal. lia.
      * f_equal. lia.
    + reflexivity.
  - replace minw with 0 by lia. cbn [length].
    destruct (Z.ltb_spec 0 maxw); cbn [andb].
    + destruct (Z.ltb_spec maxw (Z.of_nat 0)); [lia|].
      replace (0 `min` maxw) with 0 by lia. reflexivity.
    + reflexivity.
Qed.

Lemma decimal_nonneg ds : forallb is_digit ds = true -> 0 <= decimal ds.
Proof. intros H. apply (decimal_from_ge ds 0 H). lia. Qed.

Lemma min_width_of_nonneg ms ods :
  forallb is_digit ms = true -> digits ods = true -> 0 <= min_width_of ms ods.
Proof.
  intros Hms Hds. unfold min_width_of. destruct ods as [ds|].
  - destruct (decimal ms =? 0); now apply decimal_nonneg.
  - now apply decimal_nonneg.
Qed.

(** A directive whose selector is a character the compiler has no case
    for is not an error: it compiles to an empty literal that carries the
    flags and the widths, the compiler goes on after the character, and the
    element renders as blanks only, as many as the min-width, or as the
    max-width when that is set and smaller. *)
Theorem parse_elements_unknown_selector (lit fl ms : text)
    (ods : option text) (c : ascii) (rest : text) :
  forallb is_plain lit = true -> (length lit <= 1024)%nat ->
  forallb is_flag fl = true -> forallb is_digit ms = true ->
  digits ods = true ->
  decimal ms <= INT_MAX -> max_width_of ods <= INT_MAX ->
  is_selector c = false -> is_nul c = false ->
  ends_widths ms ods (c :: rest) -> no_nul rest = true ->
  let blank := field_element ptr_op_t STRING (flag_bits' fl)
                 (min_width_of ms ods) (max_width_of ods) in
  parse_elements' (lit ++ "%"%char :: fl ++ widths_text ms ods ++ c :: rest)
  = (els <-- parse_elements' rest ;;
     Returned (flush ptr_op_t lit ++ blank :: els))
  /\ forall scope : scope_t,
       format_element ptr_op_t ELEMENT_ALIGN_LEFT scope_t blank scope
       = Returned
           (replicate
              (Z.to_nat (if 0 <? max_width_of ods
                         then Z.min (min_width_of ms ods) (max_width_of ods)
                         else min_width_of ms ods))
              " "%char).
Proof.
  intros Hlit Hlen Hfl Hms Hds Hm Hx Hsel Hc He Hrest blank. split.
  - rewrite parse_elements_after_literal by assumption.
    rewrite directive_step by assumption.
    rewrite parse_selector_none by assumption. cbn [obind].
    rewrite parse_loop_elements; [reflexivity|].
    cbn [length]. rewrite !length_app. cbn [length]. lia.
  - intros scope. apply format_element_blank.
    now apply min_width_of_nonneg.
Qed.

End CompilerSelectors.

Lemma escape_chars_text k : escape_chars k = escape_text k.
Proof. destruct k as [[] [] [] [] [] [] [] []]; reflexivity. Qed.

Section CompilerEscapes.

Variable ptr_op_t : Type.
Variable parser : option (text -> exception + ptr_op_t).
Variables ELEMENT_ALIGN_LEFT ELEMENT_HIGHLIGHT : Z.
Variable output_time_format : text.
Variable scope_t : Type.

#[local] Abbreviation parse_elements' :=
  (parse_elements ptr_op_t parser ELEMENT_ALIGN_LEFT ELEMENT_HIGHLIGHT
     output_time_format).

(** A backslash and the character [k] after it compile to one literal,
    after which the compiler goes on. The literal is, and renders as, the
    control character the pair stands for in C when [k] is one of [b], [t],
    [n], [v], [f] and [r] (the characters 8 to 13), and it is empty for
    every other [k], so that an escaped backslash or percent sign renders
    as nothing. *)
Theorem parse_elements_escape (lit : text) (k : ascii) (rest : text) :
  forallb is_plain lit = true -> (length lit <= 1024)%nat ->
  let escape := with_type ptr_op_t STRING (escape_text k)
                  (new_element ptr_op_t) in
  parse_elements' (lit ++ "\"%char :: k :: rest)
  = (els <-- parse_elements' rest ;;
     Returned (flush ptr_op_t lit ++ escape :: els))
  /\ (forall scope : scope_t,
        format_element ptr_op_t ELEMENT_ALIGN_LEFT scope_t escape scope
        = Returned (escape_text k)).
Proof.
  intros Hlit Hlen escape. split.
  - rewrite parse_elements_after_literal by assumption.
    cbn [length]. rewrite parse_loop_unfold.
    replace (is_nul "\") with false by reflexivity.
    replace (Ascii.eqb "\" "%") with false by reflexivity.
    replace (Ascii.eqb "\" "\") with true by reflexivity.
    cbn [orb negb]. rewrite parse_loop_elements by lia.
    unfold escape. now rewrite escape_chars_text.
  - intros scope. apply format_element_chars.
Qed.

End CompilerEscapes.


Lemma parse_elements_escape_witness :
  parse_elements unit None 1 2 (txt "%Y/%m/%d")
    (txt "a" ++ "\"%char :: "n"%char :: txt "b")
  = Returned
      [with_type unit STRING (txt "a") (new_element unit);
       with_type unit STRING [ascii_of_nat 10] (new_element unit);
       with_type unit STRING (txt "b") (new_element unit)]
  /\ format_element unit 1 unit
       (with_type unit STRING [ascii_of_nat 10] (new_element unit)) tt
     = Returned [ascii_of_nat 10].
Proof.
  destruct (parse_elements_escape unit None 1 2 (txt "%Y/%m/%d") unit
              (txt "a") "n"%char (txt "b")) as [H1 H2];
    [reflexivity|cbn; lia|].
  split; [exact H1|exact (H2 tt)].
Defined.

Lemma parse_format_escaped_witness :
  exists els,
    parse_elements unit None 1 2 (txt "%Y/%m/%d")
      (escape_percent (txt "100% sure"))
    = Returned els
    /\ forall out scope,
         format unit 1 unit out els scope = Returned (out ++ txt "100% sure").
Proof.
  apply (parse_format_escaped unit None 1 2 (txt "%Y/%m/%d") unit
           (txt "100% sure")); [reflexivity|reflexivity|cbn; lia].
Defined.

Lemma parse_elements_long_literal_witness :
  parse_elements unit None 1 2 (txt "%Y/%m/%d")
    (replicate 1025 "a"%char ++ txt "%P")
  = Undefined.
Proof.
  apply (parse_elements_long_literal unit None 1 2 (txt "%Y/%m/%d")
           (replicate 1025 "a"%char) (txt "%P"));
    [vm_compute; reflexivity|rewrite length_replicate; lia].
Defined.

Lemma parse_elements_unfinished_witness :
  parse_elements unit None 1 2 (txt "%Y/%m/%d") (txt "Total: %-20") = Undefined
  /\ parse_elements unit None 1 2 (txt "%Y/%m/%d")
       (txt "Total: " ++ ["\"%char])
     = Undefined
  /\ parse_elements unit None 1 2 (txt "%Y/%m/%d") (txt "Total: %-20x")
     = Returned
         [with_type unit STRING (txt "Total: ") (new_element unit);
          field_element unit STRING 1 20 0].
Proof.
  destruct (parse_elements_unfinished unit None 1 2 (txt "%Y/%m/%d")
              (txt "Total: ") (txt "-") (txt "20") None)
    as (H1 & H2 & H3);
    [reflexivity|cbn; lia|reflexivity|reflexivity|reflexivity|].
  split; [exact H1|split; [exact H2|]].
  apply H3; vm_compute; discriminate.
Defined.

Lemma parse_elements_flags_witness :
  parse_elements unit None 1 2 (txt "%Y/%m/%d")
    ([] ++ "%"%char :: txt "-!" ++ txt "5P")
  = parse_elements unit None 1 2 (txt "%Y/%m/%d")
      ([] ++ "%"%char :: txt "!--" ++ txt "5P").
Proof.
  apply (parse_elements_flags unit None 1 2 (txt "%Y/%m/%d")
           [] (txt "-!") (txt "!--") (txt "5P"));
    [reflexivity|cbn; lia|reflexivity|reflexivity|reflexivity|reflexivity
    |reflexivity|reflexivity].
Defined.

Lemma parse_elements_nested_witness :
  parse_elements text (Some (fun s => inr s)) 1 2 (txt "%Y/%m/%d")
    (txt "=%10(f(a))!")
  = Returned
      [with_type text STRING (txt "=") (new_element text);
       with_expr text {| ptr := Some (txt "f(a)"); str := txt "f(a)" |}
         (field_element text STRING 0 10 0);
       with_type text STRING (txt "!") (new_element text)]
  /\ parse_elements text (Some (fun s => inr s)) 1 2 (txt "%Y/%m/%d")
       (txt "=%10[f(a)]!")
     = Returned
         [with_type text STRING (txt "=") (new_element text);
          with_type text DATE_STRING (txt "f(a)")
            (field_element text STRING 0 10 0);
          with_type text STRING (txt "!") (new_element text)].
Proof.
  destruct (parse_elements_nested text (Some (fun s => inr s)) 1 2
              (txt "%Y/%m/%d") (txt "=") [] (txt "10") None (txt "f(a)")
              (txt "!")) as (H1 & H2);
    [reflexivity|cbn; lia|reflexivity|reflexivity|reflexivity
    |vm_compute; discriminate|vm_compute; discriminate
    |reflexivity|reflexivity|].
  split; [exact (H1 eq_refl)|exact (H2 eq_refl)].
Defined.

Lemma parse_elements_unknown_selector_witness :
  parse_elements unit None 1 2 (txt "%Y/%m/%d")
    ([] ++ "%"%char :: txt "-" ++ widths_text (txt "5") (Some (txt "3"))
        ++ "q"%char :: txt "!")
  = (els <-- parse_elements unit None 1 2 (txt "%Y/%m/%d") (txt "!") ;;
     Returned
       (flush unit []
          ++ field_element unit STRING (flag_bits 1 2 (txt "-"))
               (min_width_of (txt "5") (Some (txt "3")))
               (max_width_of (Some (txt "3")))
          :: els))
  /\ forall scope : unit,
       format_element unit 1 unit
         (field_element unit STRING (flag_bits 1 2 (txt "-"))
            (min_width_of (txt "5") (Some (txt "3")))
            (max_width_of (Some (txt "3")))) scope
       = Returned
           (replicate
              (Z.to_nat
                 (if 0 <? max_width_of (Some (txt "3"))
                  then Z.min (min_width_of (txt "5") (Some (txt "3")))
                         (max_width_of (Some (txt "3")))
                  else min_width_of (txt "5") (Some (txt "3"))))
              " "%char).
Proof.
  apply (parse_elements_unknown_selector unit None 1 2 (txt "%Y/%m/%d") unit
           [] (txt "-") (txt "5") (Some (txt "3")) "q"%char (txt "!"));
    [reflexivity|cbn; lia|reflexivity|reflexivity|reflexivity
    |vm_compute; discriminate|vm_compute; discriminate
    |reflexivity|reflexivity|repeat split|reflexivity].
Defined.

(** ** A NUL inside the template *)

Lemma unmatched_before_nul o c inner rest :
  forallb (fun x => negb (Ascii.eqb x c)) inner = true ->
  is_nul c = false ->
  unmatched o c (inner ++ NUL :: rest).
Proof.
  intros Hin Hc inner' rest' E Hn. exfalso.
  revert inner' E Hn. induction inner as [|x inner IH]; intros inner' E Hn.
  - destruct inner' as [|y inner'].
    + cbn in E. injection E as <- _. discriminate Hc.
    + cbn in E. injection E as <- _. discriminate Hn.
  - cbn in Hin. apply andb_true_iff in Hin as [Hx Hin].
    destruct inner' as [|y inner'].
    + cbn in E. injection E as -> _. now rewrite Ascii.eqb_refl in Hx.
    + cbn in E. injection E as <- E. rewrite no_nul_cons in Hn.
      exact (IH Hin inner' E (proj2 Hn)).
Qed.

Section CompilerNul.

Variable ptr_op_t : Type.
Variable parser : option (text -> exception + ptr_op_t).
Variables ELEMENT_ALIGN_LEFT ELEMENT_HIGHLIGHT : Z.
Variable output_time_format : text.

#[local] Abbreviation parse_elements' :=
  (parse_elements ptr_op_t parser ELEMENT_ALIGN_LEFT ELEMENT_HIGHLIGHT
     output_time_format).

#[local] Abbreviation flag_bits' :=
  (flag_bits ELEMENT_ALIGN_LEFT ELEMENT_HIGHLIGHT).

(** A NUL inside the string of a template. Where the test of the loop
    reads it, after literal text, the compilation ends and what follows is
    not read. Where it stands for the selector of a directive it selects
    nothing: the directive compiles to an empty literal with the flags and
    the widths, and the compilation goes on after the NUL. After the
    selector [x] it ends the compilation. In a sub-expression whose
    parenthesis is not closed before it, it ends the scan, and the error
    for the missing parenthesis is thrown whatever follows. *)
Theorem parse_elements_embedded_nul (lit fl ms : text) (ods : option text)
    (rest : text) :
  forallb is_plain lit = true -> (length lit <= 1024)%nat ->
  forallb is_flag fl = true -> forallb is_digit ms = true ->
  digits ods = true ->
  decimal ms <= INT_MAX -> max_width_of ods <= INT_MAX ->
  let blank := field_element ptr_op_t STRING (flag_bits' fl)
                 (min_width_of ms ods) (max_width_of ods) in
  parse_elements' (lit ++ NUL :: rest) = Returned (flush ptr_op_t lit)
  /\ parse_elements'
       (lit ++ "%"%char :: fl ++ widths_text ms ods ++ NUL :: rest)
     = (els <-- parse_elements' rest ;;
        Returned (flush ptr_op_t lit ++ blank :: els))
  /\ parse_elements'
       (lit ++ "%"%char :: fl ++ widths_text ms ods
            ++ "x"%char :: NUL :: rest)
     = Returned (flush ptr_op_t lit ++ [blank])
  /\ (forall inner,
        forallb (fun c => negb (Ascii.eqb c ")"%char)) inner = true ->
        parse_elements'
          (lit ++ "%"%char :: fl ++ widths_text ms ods
               ++ "("%char :: inner ++ NUL :: rest)
        = Thrown (format_error missing_paren)).
Proof.
  intros Hlit Hlen Hfl Hms Hds Hm Hx blank.
  split; [|split; [|split]].
  - rewrite parse_elements_after_literal by assumption. reflexivity.
  - rewrite parse_elements_after_literal by assumption.
    rewrite directive_step;
      [|assumption|assumption|assumption|now apply ends_widths_at
       |assumption|assumption].
    rewrite parse_selector_none by reflexivity. cbn [obind].
    rewrite parse_loop_elements; [reflexivity|].
    cbn [length]. rewrite !length_app. cbn [length]. lia.
  - rewrite parse_elements_after_literal by assumption.
    rewrite directive_step;
      [|assumption|assumption|assumption|now apply ends_widths_at
       |assumption|assumption].
    reflexivity.
  - intros inner Hin.
    rewrite parse_elements_after_literal by assumption.
    rewrite directive_step;
      [|assumption|assumption|assumption|now apply ends_widths_at
       |assumption|assumption].
    unfold parse_selector.
    replace (Ascii.eqb "(" "%") with false by reflexivity.
    replace (Ascii.eqb "(" "(") with true by reflexivity.
    destruct (scan_closing "(" ")" (inner ++ NUL :: rest) 1)
      as [scanned q] eqn:E.
    pose proof (unmatched_before_nul "(" ")" inner rest Hin eq_refl) as Hu.
    apply (unmatched_scan "(" ")" _ _ _ eq_refl E) in Hu.
    destruct q as [|k q]; [reflexivity|]. cbn in Hu. now rewrite Hu.
Qed.

End CompilerNul.

Lemma parse_elements_embedded_nul_witness :
  parse_elements unit None 1 2 (txt "%Y/%m/%d") (txt "a" ++ NUL :: txt "%P")
  = Returned [with_type unit STRING (txt "a") (new_element unit)]
  /\ parse_elements unit None 1 2 (txt "%Y/%m/%d")
       (txt "a%5" ++ NUL :: txt "%(abc")
     = Thrown (format_error missing_paren)
  /\ parse_elements unit None 1 2 (txt "%Y/%m/%d")
       (txt "a%5x" ++ NUL :: txt "%(abc")
     = Returned [with_type unit STRING (txt "a") (new_element unit);
                 field_element unit STRING 0 5 0]
  /\ parse_elements unit None 1 2 (txt "%Y/%m/%d")
       (txt "a%5(bc" ++ NUL :: txt ")")
     = Thrown (format_error missing_paren).
Proof.
  destruct (parse_elements_embedded_nul unit None 1 2 (txt "%Y/%m/%d")
              (txt "a") [] (txt "5") None (txt "%(abc"))
    as (H1 & H2 & H3 & _);
    [reflexivity|cbn; lia|reflexivity|reflexivity|reflexivity
    |vm_compute; discriminate|vm_compute; discriminate|].
  destruct (parse_elements_embedded_nul unit None 1 2 (txt "%Y/%m/%d")
              (txt "a") [] (txt "5") None (txt ")"))
    as (_ & _ & _ & H4);
    [reflexivity|cbn; lia|reflexivity|reflexivity|reflexivity
    |vm_compute; discriminate|vm_compute; discriminate|].
  split; [exact H1|split; [exact H2|split; [exact H3|]]].
  exact (H4 (txt "bc") eq_refl).
Defined.

(** ** Compiling, then rendering *)

Lemma field_kind_not_literal c k : field_kind c = Some k -> k <> STRING.
Proof.
  destruct c as [[] [] [] [] [] [] [] []]; cbn; intros [= <-]; discriminate.
Qed.

Section CompileAndRender.

Variable ptr_op_t : Type.
Variable parser : option (text -> exception + ptr_op_t).
Variables ELEMENT_ALIGN_LEFT ELEMENT_HIGHLIGHT : Z.
Variable output_time_format : text.
Variable scope_t : Type.

#[local] Abbreviation parse_elements' :=
  (parse_elements ptr_op_t parser ELEMENT_ALIGN_LEFT ELEMENT_HIGHLIGHT
     output_time_format).

#[local] Abbreviation format' :=
  (format ptr_op_t ELEMENT_ALIGN_LEFT scope_t).

(** A template that holds the directive of a report field compiles, when
    the rest of it does, to elements that cannot be rendered: whatever the
    flags, the widths, the output and the context, [format] stops at the
    assertion of its [default] branch, the cases of the fields being
    compiled out. *)
Theorem parse_then_format_field (lit fl ms : text) (ods : option text)
    (c : ascii) (k : kind_t) (rest : text)
    (els : list (element_t ptr_op_t)) :
  forallb is_plain lit = true -> (length lit <= 1024)%nat ->
  forallb is_flag fl = true -> forallb is_digit ms = true ->
  digits ods = true ->
  decimal ms <= INT_MAX -> max_width_of ods <= INT_MAX ->
  field_kind c = Some k -> no_nul rest = true ->
  parse_elements' (lit ++ "%"%char :: fl ++ widths_text ms ods ++ c :: rest)
  = Returned els ->
  forall out scope, format' out els scope = AssertionFailed.
Proof.
  intros Hlit Hlen Hfl Hms Hds Hm Hx Hk Hrest Hels out scope.
  destruct (field_kind_selector c k Hk)
    as (_ & _ & _ & _ & _ & _ & Hnul & Hd & Hf & Hdot).
  rewrite parse_elements_after_literal in Hels by assumption.
  rewrite directive_step in Hels;
    [|assumption|assumption|assumption|now apply ends_widths_at
     |assumption|assumption].
  rewrite (parse_selector_field _ _ _ _ c k rest Hk) in Hels.
  cbn [obind] in Hels.
  destruct (parse_loop _ _ _ _ _ _ rest []) as [els'| | | |];
    try discriminate Hels.
  cbn [obind] in Hels. injection Hels as <-.
  rewrite format_flush. cbn [format].
  rewrite format_element_literal. unfold is_literal, with_type. cbn [type].
  pose proof (field_kind_not_literal c k Hk) as Hne.
  destruct k; (contradiction || reflexivity).
Qed.

End CompileAndRender.

Lemma parse_then_format_field_witness :
  format unit 1 unit []
    [with_type unit STRING (txt "Paid to ") (new_element unit);
     field_element unit PAYEE 0 20 0] tt
  = AssertionFailed.
Proof.
  apply (parse_then_format_field unit None 1 2 (txt "%Y/%m/%d") unit
           (txt "Paid to ") [] (txt "20") None "P"%char PAYEE []);
    [reflexivity|cbn; lia|reflexivity|reflexivity|reflexivity
    |vm_compute; discriminate|vm_compute; discriminate
    |reflexivity|reflexivity|reflexivity].
Defined.

(** * Further properties of the renderer, the groupers, the accounts and the expressions *)

(** ** The renderer: composition and widths *)

Section RendererMore.

Variable ptr_op_t : Type.
Variable ELEMENT_ALIGN_LEFT : Z.
Variable scope_t : Type.

#[local] Abbreviation format' :=
  (format ptr_op_t ELEMENT_ALIGN_LEFT scope_t).

#[local] Abbreviation format_element' :=
  (format_element ptr_op_t ELEMENT_ALIGN_LEFT scope_t).

Lemma format_from_empty els : forall out scope,
  format' out els scope
  = (t <-- format' [] els scope ;; Returned (out ++ t)).
Proof.
  induction els as [|e els IH]; intros out scope.
  - cbn. now rewrite app_nil_r.
  - cbn [format]. destruct (format_element' e scope) as [t| | | |];
      try reflexivity.
    cbn [obind app]. rewrite (IH (out ++ t)), (IH t).
    destruct (format' [] els scope) as [u| | | |]; try reflexivity.
    cbn [obind]. now rewrite app_assoc.
Qed.

(** Rendering composes and only appends: a template made of two parts
    renders as the first part followed by the second, stopping at the
    first failure, and what a template adds to the output does not depend
    on what the output already holds, which it leaves in place. *)
Theorem format_composes (a b : list (element_t ptr_op_t)) (out : text)
    (scope : scope_t) :
  format' out (a ++ b) scope
  = (o <-- format' out a scope ;; format' o b scope)
  /\ format' out a scope
     = (t <-- format' [] a scope ;; Returned (out ++ t)).
Proof.
  split; [|apply format_from_empty].
  revert out. induction a as [|e a IH]; intros out; [reflexivity|].
  cbn [app format]. destruct (format_element' e scope) as [t| | | |];
    try reflexivity.
  cbn [obind]. apply IH.
Qed.

(** The width of what an element renders: only a literal returns, and
    its text is as long as the longer of its characters and its min-width,
    cut to the max-width when that is set and smaller. *)
Theorem format_element_width (e : element_t ptr_op_t) (scope : scope_t)
    (t : text) :
  format_element' e scope = Returned t ->
  type _ e = STRING
  /\ Z.of_nat (length t)
     = (let n := Z.max (Z.of_nat (length (chars _ e))) (min_width _ e) in
        if (0 <? max_width _ e) && (max_width _ e <? n)
        then max_width _ e else n).
Proof.
  rewrite format_element_literal. unfold is_literal.
  destruct (type ptr_op_t e) eqn:Ek; try discriminate.
  intros [= <-]. split; [reflexivity|].
  unfold literal_text, cut, pad. cbv zeta.
  set (left := negb _). set (c := chars _ e). set (m := min_width _ e).
  set (x := max_width _ e).
  assert (Hp : Z.of_nat (length
                (if Z.of_nat (length c) <? m
                 then if left
                      then c ++ replicate (Z.to_nat m - length c) " "%char
                      else replicate (Z.to_nat m - length c) " "%char ++ c
                 else c))
               = Z.max (Z.of_nat (length c)) m).
  { destruct (Z.ltb_spec (Z.of_nat (length c)) m).
    - destruct left; rewrite length_app, length_replicate; lia.
    - lia. }
  rewrite Hp.
  destruct ((0 <? x) && (x <? Z.of_nat (length c) `max` m)) eqn:E.
  - apply andb_true_iff in E as [E1 E2].
    apply Z.ltb_lt in E1, E2. rewrite length_take. lia.
  - exact Hp.
Qed.

End RendererMore.

(** ** The transaction grouper: an escaped percent sign before a slash *)

Lemma no_marker_escaped a :
  forallb is_plain a = true -> no_marker ((a ++ ["%"%char]) ++ ["%"%char]).
Proof.
  induction a as [|c a IH]; intros Ha before after E.
  - destruct before as [|x [|y before]]; try discriminate.
    cbn in E. injection E as _ E. destruct before; discriminate.
  - cbn in Ha. apply andb_true_iff in Ha as [Hc Ha].
    destruct before as [|x before].
    + cbn in E. injection E as -> _. discriminate.
    + cbn in E. injection E as _ E. exact (IH Ha _ _ E).
Qed.

Section GrouperMore.

Variable ptr_op_t : Type.
Variable parser : option (text -> exception + ptr_op_t).
Variables ELEMENT_ALIGN_LEFT ELEMENT_HIGHLIGHT : Z.
Variable output_time_format : text.

(** An escaped percent sign that is followed by a slash is taken for
    the marker: the template [a%%/b], [a] being literal text of at most
    1024 characters, is split after the first percent sign, the first-line
    sub-template [a%] ends inside a directive, and the construction of the
    grouper is undefined. *)
Theorem format_transactions_escaped_marker (out a b : text) :
  forallb is_plain a = true -> (length a <= 1024)%nat ->
  strstr_marker (c_chars (a ++ txt "%%/" ++ b))
  = Some (a ++ ["%"%char], c_chars b)
  /\ format_transactions_new ptr_op_t parser ELEMENT_ALIGN_LEFT
       ELEMENT_HIGHLIGHT output_time_format out (a ++ txt "%%/" ++ b)
     = Undefined.
Proof.
  intros Ha Hlen.
  assert (Hs : strstr_marker (c_chars (a ++ txt "%%/" ++ b))
               = Some (a ++ ["%"%char], c_chars b)).
  { rewrite c_chars_app_no_nul by now apply is_plain_no_nul.
    change (c_chars (txt "%%/" ++ b)) with (txt "%%/" ++ c_chars b).
    change (a ++ txt "%%/" ++ c_chars b)
      with (a ++ ["%"%char] ++ marker ++ c_chars b).
    rewrite app_assoc. apply strstr_marker_first.
    now apply no_marker_escaped. }
  split; [exact Hs|].
  unfold format_transactions_new. rewrite Hs. unfold reset at 1.
  rewrite parse_elements_after_literal by easy.
  rewrite percent_step. reflexivity.
Qed.

End GrouperMore.

(** ** The entry grouper *)

Section EntriesProperties.

Variable ptr_op_t : Type.
Variable TRANSACTION_TO_DISPLAY : Z.

#[local] Abbreviation walk :=
  (format_entries_walk ptr_op_t TRANSACTION_TO_DISPLAY).

Lemma format_entries_walk_run xacts : forall self,
  walk self xacts
  = ({| output_stream := output_stream _ self;
        last_entry := match last xacts with
                      | Some x => Some (entry x)
                      | None => last_entry _ self
                      end;
        last_xact := last_xact _ self;
        first_line_format := first_line_format _ self;
        next_lines_format := next_lines_format _ self |},
     map (marked TRANSACTION_TO_DISPLAY) xacts).
Proof.
  induction xacts as [|x xacts IH]; intros self.
  - cbn. now destruct self.
  - cbn [format_entries_walk format_entries_call]. rewrite IH.
    cbn [output_stream last_entry last_xact first_line_format
         next_lines_format entry map].
    unfold format_last_entry.
    assert (Hself : forall (b : bool) (s : format_transactions ptr_op_t),
               (if b then s else s) = s) by now intros [].
    rewrite last_cons.
    destruct (last_entry _ self) as [e|]; rewrite ?Hself;
      now destruct (last xacts).
Qed.

(** The entry grouper over a traversal: called on each transaction of a
    list in turn, it sets the to-display flag of every transaction and
    leaves its other flags, entry and date as they were, it remembers the
    entry of the last transaction, and it writes nothing to the output: the
    rendering of a finished entry is compiled out. A second traversal of
    the same transactions changes none of them. *)
Theorem format_entries_walk_marks (self : format_transactions ptr_op_t)
    (xacts : list transaction_t) :
  let '(self', xacts') := walk self xacts in
  output_stream _ self' = output_stream _ self
  /\ last_entry _ self'
     = match last xacts with
       | Some x => Some (entry x)
       | None => last_entry _ self
       end
  /\ xacts' = map (marked TRANSACTION_TO_DISPLAY) xacts
  /\ Forall (fun x => Z.land (xact_dflags x) TRANSACTION_TO_DISPLAY
                      = TRANSACTION_TO_DISPLAY) xacts'
  /\ Forall2 (fun x x' =>
                entry x' = entry x /\ date x' = date x
                /\ Z.land (xact_dflags x') (Z.lnot TRANSACTION_TO_DISPLAY)
                   = Z.land (xact_dflags x) (Z.lnot TRANSACTION_TO_DISPLAY))
       xacts xacts'
  /\ snd (walk self' xacts') = xacts'.
Proof.
  rewrite format_entries_walk_run.
  repeat split.
  - induction xacts as [|x xacts IH]; constructor; [|exact IH].
    cbn. apply Z.bits_inj'. intros n _.
    rewrite Z.land_spec, Z.lor_spec.
    destruct (Z.testbit (xact_dflags x) n),
      (Z.testbit TRANSACTION_TO_DISPLAY n); reflexivity.
  - induction xacts as [|x xacts IH]; constructor; [|exact IH].
    repeat split. cbn. apply Z.bits_inj'. intros n Hn.
    rewrite !Z.land_spec, Z.lor_spec, Z.lnot_spec by assumption.
    destruct (Z.testbit (xact_dflags x) n),
      (Z.testbit TRANSACTION_TO_DISPLAY n); reflexivity.
  - rewrite format_entries_walk_run. cbn [snd].
    rewrite map_map. apply map_ext. intros x. unfold marked. cbn. f_equal.
    now rewrite <- Z.lor_assoc, Z.lor_diag.
Qed.

End EntriesProperties.

(** ** [partial_account_name] along the parent *)

Section AccountsMore.

Variable ACCOUNT_DISPLAYED : Z.

#[local] Abbreviation partial_account_name' :=
  (partial_account_name ACCOUNT_DISPLAYED).

#[local] Abbreviation from' := (partial_account_name_from ACCOUNT_DISPLAYED).

#[local] Abbreviation displayed := (account_displayed ACCOUNT_DISPLAYED).

Lemma partial_account_name_from_app a : forall x y,
  x <> [] -> from' a (x ++ y) = from' a x ++ y.
Proof.
  induction a as [n subs d|up n subs d IH] using account_parent_ind;
    intros x y Hx; [reflexivity|].
  cbn [partial_account_name_from].
  destruct (account_displayed _ _); [reflexivity|].
  destruct x as [|c x]; [contradiction|]. cbn [app].
  change (n ++ colon :: c :: x ++ y) with (n ++ (colon :: c :: x) ++ y).
  rewrite app_assoc. apply IH. now destruct n.
Qed.

(** The partial name along the parent link. The partial name of the
    root, or of an account that has been displayed, is empty. Otherwise it
    is the account's own name when the parent is the root or has been
    displayed, and the partial name of the parent, a colon and the
    account's name when the parent is neither and both names are not
    empty. *)
Theorem partial_account_name_parent (a : account_t) :
  (parent a = None \/ displayed a = true -> partial_account_name' a = [])
  /\ (forall p,
        parent a = Some p -> displayed a = false ->
        (parent p = None \/ displayed p = true ->
         partial_account_name' a = name a)
        /\ (parent p <> None -> displayed p = false ->
            name p <> [] -> name a <> [] ->
            partial_account_name' a
            = partial_account_name' p ++ colon :: name a)).
Proof.
  destruct a as [pa n subs d]. unfold partial_account_name.
  cbn [parent name]. split.
  - intros [->|Hd]; [reflexivity|]. cbn [partial_account_name_from].
    destruct pa; [|reflexivity]. now rewrite Hd.
  - intros p -> Hd. cbn [partial_account_name_from]. rewrite Hd.
    destruct p as [pp m psubs pd]. cbn [parent name]. split.
    + intros [->|Hp]; [reflexivity|]. cbn [partial_account_name_from].
      destruct pp; [|reflexivity]. now rewrite Hp.
    + intros Hpp Hp Hm Hn. destruct pp as [up|]; [|contradiction].
      cbn [partial_account_name_from]. rewrite Hp.
      destruct n as [|c n]; [contradiction|].
      change (m ++ colon :: c :: n) with (m ++ (colon :: c :: n)).
      now apply partial_account_name_from_app.
Qed.

End AccountsMore.

(** ** [expr_t] *)

Section ExpressionsProperties.

Variable ptr_op_t : Type.
Variable scope_t : Type.
Variable NULL_VALUE : value_t.
Variable op_calc : ptr_op_t -> scope_t -> outcome value_t.

#[local] Abbreviation calc' := (expr_t_calc ptr_op_t scope_t NULL_VALUE op_calc).

Lemma expr_t_parse_all_snoc (parser : parser_ptr ptr_op_t) this texts s flags :
  expr_t_parse_all ptr_op_t parser this (texts ++ [s]) flags
  = fst (expr_t_parse ptr_op_t parser
           (expr_t_parse_all ptr_op_t parser this texts flags) s flags).
Proof. unfold expr_t_parse_all. now rewrite fold_left_app. Qed.


End ExpressionsProperties.

Lemma format_element_width_witness :
  type unit
    {| type := STRING; flags := 0; min_width := 5; max_width := 0;
       chars := txt "ab"; val_expr := {| ptr := None; str := [] |} |}
  = STRING
  /\ Z.of_nat (length (txt "   ab"))
     = (let n := Z.max (Z.of_nat (length (txt "ab"))) 5 in
        if (0 <? 0) && (0 <? n) then 0 else n).
Proof.
  apply (format_element_width unit 1 unit
           {| type := STRING; flags := 0; min_width := 5; max_width := 0;
              chars := txt "ab"; val_expr := {| ptr := None; str := [] |} |}
           tt (txt "   ab")).
  reflexivity.
Defined.

Lemma format_transactions_escaped_marker_witness :
  strstr_marker (c_chars (txt "100" ++ txt "%%/" ++ txt "x"))
  = Some (txt "100" ++ ["%"%char], c_chars (txt "x"))
  /\ format_transactions_new unit None 1 2 (txt "%Y/%m/%d") []
       (txt "100" ++ txt "%%/" ++ txt "x")
     = Undefined.
Proof.
  apply (format_transactions_escaped_marker unit None 1 2 (txt "%Y/%m/%d")
           [] (txt "100") (txt "x")); [reflexivity|cbn; lia].
Defined.
